(** * diff-match-patch (TypeScript port): the diff orchestrator, its
      surrogate-pair repair, the Levenshtein count and the delta encoder

    Shallow embedding of [src/diff/diff.ts], [levenshtein] and [toDelta].

    - A JavaScript string is a sequence of UTF-16 code units: [jsstring] is
      [list Z], every unit in [0, 65535].
    - [DiffType] is the numeric enum of the source ([DELETE = -1],
      [INSERT = 1], [EQUAL = 0]); a [Diff] is the tuple [[DiffType, string]].
      The enum is kept as a number so that the [default:] branches of the
      [switch] statements stay visible.
    - A [Diff[]] that the source mutates in place is threaded through the
      functions as a value: [diffs[i][1] = t] is an update at index [i],
      [diffs.splice(j, 0, d)] an insertion, [diffs.splice(i, 1)] a removal.
      The tuples of one array are taken to be distinct objects.
    - Loops whose trip count is not fixed by their input take a fuel
      argument and return [None] when it runs out; termination theorems
      show that it never does for large enough fuel. *)

From Stdlib Require Import ZArith QArith Lia Ascii String DecimalString.
From stdpp Require Import base tactics option list.

Local Open Scope Z_scope.

(** ** Strings *)

Abbreviation char := Z (only parsing).
Abbreviation jsstring := (list Z) (only parsing).

(** A literal: the code units of an ASCII string. *)
Definition js (s : string) : jsstring :=
  (fun a => Z.of_nat (nat_of_ascii a)) <$> list_ascii_of_string s.

(** [s[k]]: the code unit at index [k], [undefined] (here [None]) outside. *)
Definition charAt (s : jsstring) (k : Z) : option char :=
  if k <? 0 then None else s !! Z.to_nat k.

(** [s.length] *)
Definition strlen (s : jsstring) : Z := Z.of_nat (length s).

(** [s.substring(a)] and [s.substring(a, b)]: both ends are clamped to
    [0, s.length] and swapped when [a > b]. *)
Definition clamp (s : jsstring) (k : Z) : nat :=
  Z.to_nat (Z.max 0 (Z.min k (strlen s))).

Definition substring (s : jsstring) (a b : Z) : jsstring :=
  let lo := Nat.min (clamp s a) (clamp s b) in
  let hi := Nat.max (clamp s a) (clamp s b) in
  take (hi - lo) (drop lo s).

Definition substring_from (s : jsstring) (a : Z) : jsstring :=
  substring s a (strlen s).

(** [a === b] on strings and on optional code units. *)
Definition str_eqb (a b : jsstring) : bool := bool_decide (a = b).
Definition char_eqb (a b : option char) : bool := bool_decide (a = b).

(** What string concatenation makes of an operand that may be [undefined]. *)
Definition text_of (c : option char) : jsstring :=
  match c with
  | Some c => [c]
  | None => js "undefined"
  end.

(** ** Surrogates *)

(** Modelled from the spec: [isHighSurrogate] and [isLowSurrogate] of
    [utils/surrogatePairs.js], which is not among the sources.  A surrogate
    pair is the two 16-bit code units of one supplementary-plane character:
    a high one in [0xD800, 0xDBFF] followed by a low one in
    [0xDC00, 0xDFFF]. *)
Definition isHighSurrogate (c : option char) : bool :=
  match c with
  | Some c => (0xD800 <=? c) && (c <=? 0xDBFF)
  | None => false
  end.

Definition isLowSurrogate (c : option char) : bool :=
  match c with
  | Some c => (0xDC00 <=? c) && (c <=? 0xDFFF)
  | None => false
  end.

(** ** Diffs *)

Abbreviation DiffType := Z (only parsing).
Definition DELETE : DiffType := -1.
Definition INSERT : DiffType := 1.
Definition EQUAL : DiffType := 0.

Abbreviation Diff := (Z * list Z)%type (only parsing).

(** The three members of the enum. *)
Definition known_type (t : DiffType) : bool :=
  (t =? DELETE) || (t =? INSERT) || (t =? EQUAL).

Definition well_typed (diffs : list Diff) : Prop :=
  Forall (fun d => known_type d.1 = true) diffs.

(** Modelled from the spec: the reconstructions [text1] and [text2], whose
    code is not among the sources.  [text1] concatenates, in order, the text
    of all EQUAL and DELETE entries, [text2] that of all EQUAL and INSERT
    entries. *)
Definition text1 (diffs : list Diff) : jsstring :=
  concat ((fun d : Diff =>
             if (d.1 =? EQUAL) || (d.1 =? DELETE) then d.2 else []) <$> diffs).

Definition text2 (diffs : list Diff) : jsstring :=
  concat ((fun d : Diff =>
             if (d.1 =? EQUAL) || (d.1 =? INSERT) then d.2 else []) <$> diffs).

(** ** Options and the deadline *)

(** A JavaScript number as far as the deadline needs it: a finite value or
    [+Infinity].  Sums and products of finite values are exact here, while
    the doubles of the source round: in [Date.now() + t * 1000] a timeout
    below about 1.2e-7 s is absorbed by the clock reading, and [t * 1000]
    overflows to [+Infinity] for a timeout above about 1.8e305.  The
    properties of the deadline below are stated only where the doubles are
    exact too (no timeout or a timeout of 0, which give one second) or
    where the deadline is [+Infinity] (a negative timeout). *)
Inductive number :=
| Finite (q : Q)
| Infinity.

(** [Partial<DiffOptions>]: either field may be absent. *)
Record DiffOptions := {
  opt_checkLines : option bool;
  opt_timeout : option number
}.

Record InternalDiffOptions := {
  checkLines : bool;
  deadline : number
}.

(** [x * 1000]; [Number.MAX_VALUE * 1000] overflows to [+Infinity].  A
    finite product is exact, see [number]. *)
Inductive seconds :=
| Secs (t : number)
| MAX_VALUE.

Definition to_millis (t : seconds) : number :=
  match t with
  | Secs (Finite q) => Finite (q * 1000)
  | Secs Infinity => Infinity
  | MAX_VALUE => Infinity
  end.

Definition num_add (now : Q) (x : number) : number :=
  match x with
  | Finite q => Finite (now + q)
  | Infinity => Infinity
  end.

(** [timeout <= 0] *)
Definition nonpositive (x : number) : bool :=
  match x with
  | Finite q => Qle_bool q 0
  | Infinity => false
  end.

(** [now] is what [Date.now()] returns, in milliseconds. *)
Definition createDeadLine (now : Q) (timeout : option number) : number :=
  let t :=
    match timeout with
    | None => Secs (Finite 1)
    | Some timeout => if nonpositive timeout then MAX_VALUE else Secs timeout
    end in
  num_add now (to_millis t).

(** [opts.timeout || 1.0]: [undefined] and [0] are falsy. *)
Definition timeout_or_default (timeout : option number) : number :=
  match timeout with
  | None => Finite 1
  | Some (Finite q) => if Qeq_bool q 0 then Finite 1 else Finite q
  | Some Infinity => Infinity
  end.

(** The object literal [{checkLines: true, deadline: ..., ...opts}]: a
    field of [opts] that is present overrides the default; [opts] has no
    [deadline] field. *)
Definition createInternalOpts (now : Q) (opts : DiffOptions) : InternalDiffOptions :=
  {| checkLines := default true (opt_checkLines opts);
     deadline := createDeadLine now (Some (timeout_or_default (opt_timeout opts))) |}.

(** Modelled from the spec: the deadline poll of the bisection engine, whose
    code is not among the sources.  The search aborts once the wall clock
    has passed the deadline. *)
Definition deadline_passed (clock : Q) (d : number) : bool :=
  match d with
  | Finite q => negb (Qle_bool clock q)
  | Infinity => false
  end.

(** ** Array primitives *)

(** [diffs[i][1]]; every index the code reads is that of an existing entry
    (the caller's loop index, or an index the scan has just visited). *)
Definition text_at (diffs : list Diff) (i : nat) : jsstring :=
  match diffs !! i with
  | Some d => d.2
  | None => []
  end.

(** [diffs[i][1] = t] *)
Definition set_text (diffs : list Diff) (i : nat) (t : jsstring) : list Diff :=
  alter (fun d : Diff => (d.1, t)) i diffs.

(** The index at which [diffs.splice(start, 0, d)] inserts: a negative
    [start] counts from the end, and the result is clamped to
    [0, diffs.length]. *)
Definition splice_pos (diffs : list Diff) (start : Z) : nat :=
  let len := Z.of_nat (length diffs) in
  Z.to_nat (if start <? 0 then Z.max (len + start) 0 else Z.min start len).

Definition splice_insert (diffs : list Diff) (start : Z) (d : Diff) : list Diff :=
  take (splice_pos diffs start) diffs ++ d :: drop (splice_pos diffs start) diffs.

(** ** [combineChar], [splitChar], [hasSharedChar] *)

(** [dir: 1 | -1] *)
Inductive direction := Forward | Backward.

Definition step (dir : direction) : Z :=
  match dir with Forward => 1 | Backward => -1 end.

Definition opposite (dir : direction) : direction :=
  match dir with Forward => Backward | Backward => Forward end.

Definition combineChar (data : jsstring) (c : option char) (dir : direction) : jsstring :=
  match dir with
  | Forward => data ++ text_of c
  | Backward => text_of c ++ data
  end.

Definition splitChar (data : jsstring) (dir : direction) : jsstring * option char :=
  match dir with
  | Forward => (substring data 0 (strlen data - 1), charAt data (strlen data - 1))
  | Backward => (substring_from data 1, charAt data 0)
  end.

Definition hasSharedChar (diffs : list Diff) (i j : nat) (dir : direction) : bool :=
  match dir with
  | Forward =>
      char_eqb (charAt (text_at diffs i) (strlen (text_at diffs i) - 1))
               (charAt (text_at diffs j) (strlen (text_at diffs j) - 1))
  | Backward => char_eqb (charAt (text_at diffs i) 0) (charAt (text_at diffs j) 0)
  end.

(** ** [deisolateChar] *)

(** How the search loop of [deisolateChar] ends: with the early [return] on
    an EQUAL entry at [j] met before any INSERT or DELETE, or by leaving the
    loop with the final [j], [insertIdx] and [deleteIdx]. *)
Inductive scanned :=
| Adjacent (j : nat)
| Stopped (j : Z) (insertIdx deleteIdx : option nat).

(** The [for] loop.  [ahead] counts the indices from [j] to the end of the
    array in the direction of travel, so [ahead = 0] is the test
    [j >= 0 && j < diffs.length] failing. *)
Fixpoint scan (diffs : list Diff) (dir : direction) (ahead : nat) (j : Z)
    (insertIdx deleteIdx : option nat) : scanned :=
  match ahead with
  | O => Stopped j insertIdx deleteIdx
  | S ahead =>
      if bool_decide (is_Some insertIdx) && bool_decide (is_Some deleteIdx)
      then Stopped j insertIdx deleteIdx
      else
        match diffs !! Z.to_nat j with
        | None => Stopped j insertIdx deleteIdx
        | Some (op, text) =>
            if strlen text =? 0 then
              scan diffs dir ahead (j + step dir) insertIdx deleteIdx
            else if op =? INSERT then
              scan diffs dir ahead (j + step dir)
                   (if insertIdx is None then Some (Z.to_nat j) else insertIdx) deleteIdx
            else if op =? DELETE then
              scan diffs dir ahead (j + step dir)
                   insertIdx (if deleteIdx is None then Some (Z.to_nat j) else deleteIdx)
            else if op =? EQUAL then
              if insertIdx is None then
                if deleteIdx is None then Adjacent (Z.to_nat j)
                else Stopped j insertIdx deleteIdx
              else Stopped j insertIdx deleteIdx
            else scan diffs dir ahead (j + step dir) insertIdx deleteIdx
        end
  end.

Definition indices_ahead (diffs : list Diff) (i : nat) (dir : direction) : nat :=
  match dir with
  | Forward => (length diffs - S i)%nat
  | Backward => i
  end.

(** The body after the loop when the shared-character case does not apply. *)
Definition move_char (diffs : list Diff) (i : nat) (dir : direction) (j : Z)
    (insertIdx deleteIdx : option nat) : list Diff :=
  let '(text, c) := splitChar (text_at diffs i) dir in
  let diffs := set_text diffs i text in
  let '(diffs, deleteIdx) :=
    match insertIdx with
    | None =>
        (splice_insert diffs j (INSERT, text_of c),
         (fun d => if j <=? Z.of_nat d then S d else d) <$> deleteIdx)
    | Some ins =>
        (set_text diffs ins (combineChar (text_at diffs ins) c (opposite dir)), deleteIdx)
    end in
  match deleteIdx with
  | None => splice_insert diffs j (DELETE, text_of c)
  | Some del => set_text diffs del (combineChar (text_at diffs del) c (opposite dir))
  end.

(** The shared-character case. *)
Definition pull_char (diffs : list Diff) (i : nat) (dir : direction)
    (ins del : nat) : list Diff :=
  let '(insertText, insertChar) := splitChar (text_at diffs ins) (opposite dir) in
  let '(deleteText, _) := splitChar (text_at diffs del) (opposite dir) in
  let diffs := set_text diffs ins insertText in
  let diffs := set_text diffs del deleteText in
  set_text diffs i (combineChar (text_at diffs i) insertChar dir).

Definition deisolateChar (diffs : list Diff) (i : nat) (dir : direction) : list Diff :=
  match scan diffs dir (indices_ahead diffs i dir) (Z.of_nat i + step dir) None None with
  | Adjacent j =>
      let '(rest, c) := splitChar (text_at diffs i) dir in
      let diffs := set_text diffs i rest in
      set_text diffs j (combineChar (text_at diffs j) c (opposite dir))
  | Stopped j insertIdx deleteIdx =>
      match insertIdx, deleteIdx with
      | Some ins, Some del =>
          if hasSharedChar diffs ins del dir then pull_char diffs i dir ins del
          else move_char diffs i dir j insertIdx deleteIdx
      | _, _ => move_char diffs i dir j insertIdx deleteIdx
      end
  end.

(** ** [adjustDiffForSurrogatePairs] *)

(** One turn of the first loop, at index [i < diffs.length]. *)
Definition repair_at (diffs : list Diff) (i : nat) : list Diff :=
  match diffs !! i with
  | None => diffs
  | Some (diffType, diffText) =>
      if strlen diffText =? 0 then diffs
      else
        let firstChar := charAt diffText 0 in
        let lastChar := charAt diffText (strlen diffText - 1) in
        let diffs :=
          if isHighSurrogate lastChar && (diffType =? EQUAL)
          then deisolateChar diffs i Forward else diffs in
        if isLowSurrogate firstChar && (diffType =? EQUAL)
        then deisolateChar diffs i Backward else diffs
  end.

(** [for (let i = 0; i < diffs.length; i++)]: the array may grow while the
    loop runs. *)
Fixpoint repair_loop (fuel : nat) (diffs : list Diff) (i : nat) : option (list Diff) :=
  if bool_decide (i < length diffs)%nat then
    match fuel with
    | O => None
    | S fuel => repair_loop fuel (repair_at diffs i) (S i)
    end
  else Some diffs.

(** The second loop: [splice(i, 1)] on an empty entry, then [i++] all the
    same. *)
Fixpoint sweep_loop (fuel : nat) (diffs : list Diff) (i : nat) : option (list Diff) :=
  if bool_decide (i < length diffs)%nat then
    match fuel with
    | O => None
    | S fuel =>
        if strlen (text_at diffs i) =? 0
        then sweep_loop fuel (delete i diffs) (S i)
        else sweep_loop fuel diffs (S i)
    end
  else Some diffs.

Definition adjustDiffForSurrogatePairs (fuel : nat) (diffs : list Diff) : option (list Diff) :=
  diffs ← repair_loop fuel diffs 0;
  sweep_loop fuel diffs 0.

(** ** Outcomes *)

Inductive error :=
| NullInput              (* [Error('Null input. (diff)')] *)
| UnknownOperation       (* [Error('Unknown diff operation.')] *)
| UnknownDiffType (t : DiffType)
| URIError.              (* raised by the built-in [encodeURI] *)

Inductive outcome (A : Type) :=
| Returns (a : A)
| Throws (e : error).
Arguments Returns {A} a.
Arguments Throws {A} e.

(** ** [_diff] and [diff] *)

Section Orchestrator.

(** The imports of [diff.ts] whose modules are not among the sources. *)
Variable commonPrefix : jsstring -> jsstring -> Z.
Variable commonSuffix : jsstring -> jsstring -> Z.
Variable compute_ : jsstring -> jsstring -> InternalDiffOptions -> list Diff.
Variable cleanupMerge : list Diff -> list Diff.

Definition _diff (textA textB : jsstring) (options : InternalDiffOptions) : list Diff :=
  let text1 := textA in
  let text2 := textB in
  if str_eqb text1 text2 then
    if bool_decide (text1 = []) then [] else [(EQUAL, text1)]
  else
    let commonlength := commonPrefix text1 text2 in
    let commonprefix := substring text1 0 commonlength in
    let text1 := substring_from text1 commonlength in
    let text2 := substring_from text2 commonlength in
    let commonlength := commonSuffix text1 text2 in
    let commonsuffix := substring_from text1 (strlen text1 - commonlength) in
    let text1 := substring text1 0 (strlen text1 - commonlength) in
    let text2 := substring text2 0 (strlen text2 - commonlength) in
    let diffs := compute_ text1 text2 options in
    let diffs :=
      if bool_decide (commonprefix = []) then diffs
      else (EQUAL, commonprefix) :: diffs in
    let diffs :=
      if bool_decide (commonsuffix = []) then diffs
      else diffs ++ [(EQUAL, commonsuffix)] in
    cleanupMerge diffs.

(** [null | string] is [option jsstring]; [opts?] may be left out. *)
Definition diff (fuel : nat) (now : Q) (textA textB : option jsstring)
    (opts : option DiffOptions) : option (outcome (list Diff)) :=
  match textA, textB with
  | Some textA, Some textB =>
      let opts := default {| opt_checkLines := None; opt_timeout := None |} opts in
      let diffs := _diff textA textB (createInternalOpts now opts) in
      diffs ← adjustDiffForSurrogatePairs fuel diffs;
      Some (Returns diffs)
  | _, _ => Some (Throws NullInput)
  end.

End Orchestrator.

(** ** [levenshtein] *)

Fixpoint levenshtein_loop (diffs : list Diff) (leven insertions deletions : Z) : outcome Z :=
  match diffs with
  | [] => Returns (leven + Z.max insertions deletions)
  | (op, data) :: diffs =>
      if op =? INSERT then
        levenshtein_loop diffs leven (insertions + strlen data) deletions
      else if op =? DELETE then
        levenshtein_loop diffs leven insertions (deletions + strlen data)
      else if op =? EQUAL then
        levenshtein_loop diffs (leven + Z.max insertions deletions) 0 0
      else Throws UnknownOperation
  end.

Definition levenshtein (diffs : list Diff) : outcome Z :=
  levenshtein_loop diffs 0 0 0.

(** ** [toDelta] *)

(** *** The built-ins it calls *)

Definition in_range (lo hi : string) (c : char) : bool :=
  match js lo, js hi with
  | [a], [b] => (a <=? c) && (c <=? b)
  | _, _ => false
  end.

(** The code units [encodeURI] copies: letters, digits, the marks
    [-_.!~*'()] and the reserved set [;/?:@&=+$,#]. *)
Definition uri_unescaped (c : char) : bool :=
  in_range "A" "Z" c || in_range "a" "z" c || in_range "0" "9" c
  || bool_decide (c ∈ js "-_.!~*'()") || bool_decide (c ∈ js ";/?:@&=+$,#").

Definition hex_digit (n : Z) : char :=
  nth (Z.to_nat n) (js "0123456789ABCDEF") 48.

(** One octet as [%XX]. *)
Definition percent (octet : Z) : jsstring :=
  js "%" ++ [hex_digit (octet / 16); hex_digit (octet mod 16)].

Definition utf8 (cp : Z) : list Z :=
  if cp <? 0x80 then [cp]
  else if cp <? 0x800 then [0xC0 + cp / 64; 0x80 + cp mod 64]
  else if cp <? 0x10000 then [0xE0 + cp / 4096; 0x80 + (cp / 64) mod 64; 0x80 + cp mod 64]
  else [0xF0 + cp / 262144; 0x80 + (cp / 4096) mod 64; 0x80 + (cp / 64) mod 64;
        0x80 + cp mod 64].

Definition escape (cp : Z) : jsstring := mjoin (percent <$> utf8 cp).

(** [encodeURI(s)] after ECMA-262: a code unit outside the unescaped set is
    read as a code point, a surrogate that has no partner raises [URIError],
    and the UTF-8 octets of the code point are written as [%XX]. *)
Fixpoint encodeURI (s : jsstring) : option jsstring :=
  match s with
  | [] => Some []
  | c :: rest =>
      if uri_unescaped c then (c ::.) <$> encodeURI rest
      else if isHighSurrogate (Some c) then
        match rest with
        | d :: rest' =>
            if isLowSurrogate (Some d)
            then (escape ((c - 0xD800) * 0x400 + (d - 0xDC00) + 0x10000) ++.)
                   <$> encodeURI rest'
            else None
        | [] => None
        end
      else if isLowSurrogate (Some c) then None
      else (escape c ++.) <$> encodeURI rest
  end.

(** [n] in decimal, for a length. *)
Definition decimal (n : Z) : jsstring :=
  js (DecimalString.NilZero.string_of_uint (N.to_uint (Z.to_N n))).

(** [parts.join(sep)] *)
Fixpoint join (sep : jsstring) (parts : list jsstring) : jsstring :=
  match parts with
  | [] => []
  | [p] => p
  | p :: parts => p ++ sep ++ join sep parts
  end.

(** [s.replace(/%20/g, ' ')]: every match, left to right. *)
Fixpoint replace_pct20 (s : jsstring) : jsstring :=
  match s with
  | [] => []
  | c :: rest =>
      match rest with
      | c2 :: c3 :: rest' =>
          if bool_decide ([c; c2; c3] = js "%20")
          then js " " ++ replace_pct20 rest'
          else c :: replace_pct20 rest
      | _ => c :: replace_pct20 rest
      end
  end.

(** *** The function *)

(** The loop that fills the array [text]. *)
Fixpoint toDelta_loop (diffs : list Diff) (text : list jsstring) : outcome (list jsstring) :=
  match diffs with
  | [] => Returns text
  | (diffType, diff) :: diffs =>
      if diffType =? INSERT then
        match encodeURI diff with
        | Some encoded => toDelta_loop diffs (text ++ [js "+" ++ encoded])
        | None => Throws URIError
        end
      else if diffType =? DELETE then
        toDelta_loop diffs (text ++ [js "-" ++ decimal (strlen diff)])
      else if diffType =? EQUAL then
        toDelta_loop diffs (text ++ [js "=" ++ decimal (strlen diff)])
      else Throws (UnknownDiffType diffType)
  end.

Definition tab : jsstring := [9].

Definition toDelta (diffs : list Diff) : outcome jsstring :=
  match toDelta_loop diffs [] with
  | Returns text => Returns (replace_pct20 (join tab text))
  | Throws e => Throws e
  end.

(** * Properties *)

(** ** The deadline *)

(** Code units used in the examples: two high surrogates, two low ones. *)
Definition hi1 : char := 0xD800.
Definition hi2 : char := 0xD840.
Definition lo1 : char := 0xDC00.
Definition lo2 : char := 0xDC01.

Lemma timeout_or_default_zero : timeout_or_default (Some (Finite 0)) = Finite 1.
Proof. reflexivity. Qed.

(** A negative timeout is the only one that reaches [Number.MAX_VALUE]. *)
Lemma negative_timeout_never_expires (now clock : Q) (checks : option bool) :
  let opts := {| opt_checkLines := checks; opt_timeout := Some (Finite (-1)) |} in
  deadline_passed clock (deadline (createInternalOpts now opts)) = false.
Proof. reflexivity. Qed.

(** C3, as the code has it: with [timeout: 0] the expression
    [opts.timeout || 1.0] replaces the falsy [0] by one second, so the
    deadline is [Date.now() + 1000] and a clock one millisecond later has
    passed it; the [Number.MAX_VALUE] branch of [createDeadLine] is not
    reached. *)
Theorem timeout_zero_deadline_is_one_second (now : Q) (checks : option bool) :
  let opts := {| opt_checkLines := checks; opt_timeout := Some (Finite 0) |} in
  deadline (createInternalOpts now opts) = Finite (now + 1 * 1000)
  /\ deadline_passed (now + 1001) (deadline (createInternalOpts now opts)) = true.
Proof.
  split; [reflexivity|].
  cbn. apply negb_true_iff, not_true_is_false.
  rewrite Qle_bool_iff. intros H.
  assert (1001 <= 1 * 1000)%Q as Hle by (apply (Qplus_le_r _ _ now); exact H).
  revert Hle. unfold Qle. cbn. lia.
Qed.

(** ** [levenshtein] *)

(** The claim's reading of the count: the script is cut at its EQUAL
    entries into runs of edits, and each run costs the larger of its
    inserted and its deleted length. *)
Fixpoint edit_runs (diffs : list Diff) : list (list Diff) :=
  match diffs with
  | [] => [[]]
  | d :: diffs =>
      if d.1 =? EQUAL then [] :: edit_runs diffs
      else
        match edit_runs diffs with
        | run :: runs => (d :: run) :: runs
        | [] => [[d]]
        end
  end.

Fixpoint length_of (kind : DiffType) (run : list Diff) : Z :=
  match run with
  | [] => 0
  | d :: run => if d.1 =? kind then strlen d.2 + length_of kind run else length_of kind run
  end.

Definition run_cost (run : list Diff) : Z :=
  Z.max (length_of INSERT run) (length_of DELETE run).

Fixpoint sum_costs (runs : list (list Diff)) : Z :=
  match runs with
  | [] => 0
  | run :: runs => run_cost run + sum_costs runs
  end.

Definition levenshtein_by_runs (diffs : list Diff) : Z :=
  sum_costs (edit_runs diffs).

Lemma edit_runs_nonempty diffs : edit_runs diffs <> [].
Proof.
  destruct diffs as [|d diffs]; cbn; [done|].
  destruct (d.1 =? EQUAL); [done|]. by destruct (edit_runs diffs).
Qed.

(** The runs hold no EQUAL entry, and there is one more run than EQUAL
    entries: the runs are maximal. *)
Lemma edit_runs_no_equal diffs :
  Forall (Forall (fun d : Diff => d.1 <> EQUAL)) (edit_runs diffs).
Proof.
  induction diffs as [|d diffs IH]; cbn.
  - repeat constructor.
  - destruct (Z.eqb_spec d.1 EQUAL) as [He|Hne].
    + by constructor.
    + destruct (edit_runs diffs) as [|run runs]; [repeat constructor; done|].
      inversion IH; subst. constructor; [by constructor|done].
Qed.

Lemma edit_runs_count diffs :
  length (edit_runs diffs) = S (length (filter (fun d : Diff => d.1 = EQUAL) diffs)).
Proof.
  induction diffs as [|d diffs IH]; [done|]. cbn [edit_runs].
  pose proof (edit_runs_nonempty diffs) as Hne.
  destruct (Z.eqb_spec d.1 EQUAL) as [He|Hn].
  - rewrite filter_cons_True by done. cbn. by rewrite IH.
  - rewrite filter_cons_False by done.
    destruct (edit_runs diffs); [done|]. exact IH.
Qed.

Lemma strlen_nonneg (s : jsstring) : 0 <= strlen s.
Proof. unfold strlen. lia. Qed.

Lemma length_of_nonneg kind run : 0 <= length_of kind run.
Proof.
  induction run as [|d run IH]; cbn [length_of]; [lia|].
  pose proof (strlen_nonneg d.2). destruct (d.1 =? kind); lia.
Qed.

Lemma sum_costs_nonneg runs : 0 <= sum_costs runs.
Proof.
  induction runs as [|run runs IH]; cbn [sum_costs]; [lia|].
  pose proof (length_of_nonneg INSERT run). unfold run_cost. lia.
Qed.

(** The loop, started anywhere, adds the pending lengths to the first run. *)
Lemma levenshtein_loop_runs diffs leven insertions deletions :
  well_typed diffs ->
  exists run runs,
    edit_runs diffs = run :: runs
    /\ levenshtein_loop diffs leven insertions deletions
       = Returns (leven
                  + Z.max (insertions + length_of INSERT run)
                          (deletions + length_of DELETE run)
                  + sum_costs runs).
Proof.
  intros Hwt. revert leven insertions deletions.
  induction Hwt as [|[op data] diffs Hop Hwt IH]; intros leven insertions deletions.
  - exists [], []. cbn. split; [done|]. f_equal. lia.
  - cbn in Hop. cbn [levenshtein_loop edit_runs fst].
    unfold known_type in Hop.
    destruct (Z.eqb_spec op INSERT) as [->|Hi].
    { destruct (IH leven (insertions + strlen data) deletions) as (run & runs & -> & ->).
      exists ((INSERT, data) :: run), runs. cbn. split; [done|]. f_equal. lia. }
    destruct (Z.eqb_spec op DELETE) as [->|Hd].
    { destruct (IH leven insertions (deletions + strlen data)) as (run & runs & -> & ->).
      exists ((DELETE, data) :: run), runs. cbn. split; [done|]. f_equal. lia. }
    destruct (Z.eqb_spec op EQUAL) as [->|He]; [|done].
    destruct (IH (leven + Z.max insertions deletions) 0 0) as (run & runs & Hr & ->).
    exists [], (edit_runs diffs). split; [done|]. rewrite Hr. cbn.
    unfold run_cost. f_equal. lia.
Qed.

(** C8: on a script of DELETE, INSERT and EQUAL entries, [levenshtein]
    returns the sum over the maximal runs of edits between EQUAL entries
    (or an end of the script) of the larger of the run's inserted and
    deleted lengths. *)
Theorem levenshtein_sums_runs (diffs : list Diff) :
  well_typed diffs -> levenshtein diffs = Returns (levenshtein_by_runs diffs).
Proof.
  intros Hwt. unfold levenshtein, levenshtein_by_runs.
  destruct (levenshtein_loop_runs diffs 0 0 0 Hwt) as (run & runs & -> & ->).
  cbn [sum_costs]. unfold run_cost. f_equal; lia.
Qed.

Lemma levenshtein_sums_runs_example :
  well_typed [(DELETE, js "ab"); (INSERT, js "xyz"); (EQUAL, js "c"); (DELETE, js "d")]
  /\ levenshtein [(DELETE, js "ab"); (INSERT, js "xyz"); (EQUAL, js "c"); (DELETE, js "d")]
     = Returns 4.
Proof.
  split.
  - repeat constructor.
  - apply (levenshtein_sums_runs
             [(DELETE, js "ab"); (INSERT, js "xyz"); (EQUAL, js "c"); (DELETE, js "d")]).
    repeat constructor.
Defined.

(** C10: on a script whose entries are DELETE, INSERT or EQUAL,
    [levenshtein] does not reach its [throw] and returns a number that is
    not negative. *)
Theorem levenshtein_total (diffs : list Diff) :
  well_typed diffs -> exists n, levenshtein diffs = Returns n /\ 0 <= n.
Proof.
  intros Hwt. unfold levenshtein.
  destruct (levenshtein_loop_runs diffs 0 0 0 Hwt) as (run & runs & _ & ->).
  eexists. split; [reflexivity|].
  pose proof (length_of_nonneg INSERT run). pose proof (sum_costs_nonneg runs). lia.
Qed.

Lemma levenshtein_total_example :
  well_typed [(INSERT, js "kitten"); (EQUAL, js "s"); (DELETE, js "ing")]
  /\ exists n,
       levenshtein [(INSERT, js "kitten"); (EQUAL, js "s"); (DELETE, js "ing")] = Returns n
       /\ 0 <= n.
Proof.
  split.
  - repeat constructor.
  - apply (levenshtein_total [(INSERT, js "kitten"); (EQUAL, js "s"); (DELETE, js "ing")]).
    repeat constructor.
Defined.

(** The [throw] is reached as soon as an entry is of no known kind. *)
Lemma levenshtein_unknown_operation :
  levenshtein [(INSERT, js "a"); (2, js "b")] = Throws UnknownOperation.
Proof. reflexivity. Qed.

(** ** The loops, one turn at a time *)

Lemma repair_loop_done fuel (diffs : list Diff) i :
  (length diffs <= i)%nat -> repair_loop fuel diffs i = Some diffs.
Proof. intros. destruct fuel; cbn; by rewrite bool_decide_eq_false_2 by lia. Qed.

Lemma repair_loop_step fuel (diffs : list Diff) i :
  (i < length diffs)%nat ->
  repair_loop (S fuel) diffs i = repair_loop fuel (repair_at diffs i) (S i).
Proof. intros. cbn. by rewrite bool_decide_eq_true_2 by lia. Qed.

Lemma sweep_loop_done fuel (diffs : list Diff) i :
  (length diffs <= i)%nat -> sweep_loop fuel diffs i = Some diffs.
Proof. intros. destruct fuel; cbn; by rewrite bool_decide_eq_false_2 by lia. Qed.

Lemma sweep_loop_step fuel (diffs : list Diff) i :
  (i < length diffs)%nat ->
  sweep_loop (S fuel) diffs i
  = if strlen (text_at diffs i) =? 0
    then sweep_loop fuel (delete i diffs) (S i)
    else sweep_loop fuel diffs (S i).
Proof. intros. cbn. by rewrite bool_decide_eq_true_2 by lia. Qed.

(** ** Fuel *)

Lemma repair_loop_more_fuel fuel fuel' diffs i r :
  (fuel <= fuel')%nat -> repair_loop fuel diffs i = Some r ->
  repair_loop fuel' diffs i = Some r.
Proof.
  revert fuel' diffs i. induction fuel as [|fuel IH]; intros fuel' diffs i Hle.
  - destruct fuel'; cbn; case_bool_decide; done.
  - destruct fuel' as [|fuel']; [lia|]. cbn. case_bool_decide; [|done].
    apply IH. lia.
Qed.

Lemma sweep_loop_more_fuel fuel fuel' diffs i r :
  (fuel <= fuel')%nat -> sweep_loop fuel diffs i = Some r ->
  sweep_loop fuel' diffs i = Some r.
Proof.
  revert fuel' diffs i. induction fuel as [|fuel IH]; intros fuel' diffs i Hle.
  - destruct fuel'; cbn; case_bool_decide; done.
  - destruct fuel' as [|fuel']; [lia|]. cbn. case_bool_decide; [|done].
    destruct (strlen (text_at diffs i) =? 0); apply IH; lia.
Qed.

(** The sweep makes at most one turn per entry. *)
Lemma sweep_loop_returns fuel diffs i :
  (length diffs - i <= fuel)%nat -> is_Some (sweep_loop fuel diffs i).
Proof.
  revert diffs i. induction fuel as [|fuel IH]; intros diffs i Hle; cbn.
  - case_bool_decide; [lia|done].
  - case_bool_decide as Hi; [|done].
    destruct (strlen (text_at diffs i) =? 0); apply IH; [|lia].
    rewrite length_delete; [lia|]. by apply lookup_lt_is_Some_2.
Qed.

Lemma adjust_more_fuel fuel fuel' diffs r :
  (fuel <= fuel')%nat -> adjustDiffForSurrogatePairs fuel diffs = Some r ->
  adjustDiffForSurrogatePairs fuel' diffs = Some r.
Proof.
  unfold adjustDiffForSurrogatePairs. intros Hle H.
  destruct (repair_loop fuel diffs 0) as [mid|] eqn:Hmid; [|done]. cbn in H.
  rewrite (repair_loop_more_fuel _ _ _ _ _ Hle Hmid). cbn.
  by apply (sweep_loop_more_fuel fuel).
Qed.

(** ** Equal texts *)

Section EqualTexts.

Variable commonPrefix : jsstring -> jsstring -> Z.
Variable commonSuffix : jsstring -> jsstring -> Z.
Variable compute_ : jsstring -> jsstring -> InternalDiffOptions -> list Diff.
Variable cleanupMerge : list Diff -> list Diff.

(** Equal texts return before any import is called. *)
Lemma _diff_equal_texts (a : jsstring) (options : InternalDiffOptions) :
  _diff commonPrefix commonSuffix compute_ cleanupMerge a a options
  = if bool_decide (a = []) then [] else [(EQUAL, a)].
Proof. unfold _diff, str_eqb. by rewrite bool_decide_eq_true_2. Qed.

Lemma diff_equal_texts fuel now (a : jsstring) opts :
  diff commonPrefix commonSuffix compute_ cleanupMerge fuel now (Some a) (Some a) opts
  = Returns <$> adjustDiffForSurrogatePairs fuel
                  (if bool_decide (a = []) then [] else [(EQUAL, a)]).
Proof.
  unfold diff. rewrite _diff_equal_texts.
  by destruct (adjustDiffForSurrogatePairs _ _).
Qed.

End EqualTexts.

(** A text with no loose end: it does not start with a low surrogate and
    does not end with a high one. *)
Definition closed_ends (s : jsstring) : bool :=
  negb (isLowSurrogate (charAt s 0))
  && negb (isHighSurrogate (charAt s (strlen s - 1))).

(** An entry with closed ends is passed over. *)
Lemma repair_at_closed_ends (diffs : list Diff) i op t :
  diffs !! i = Some (op, t) -> closed_ends t = true -> repair_at diffs i = diffs.
Proof.
  intros Hi Hc. unfold closed_ends in Hc. apply andb_true_iff in Hc as [Hlo Hhi].
  apply negb_true_iff in Hlo, Hhi.
  unfold repair_at. rewrite Hi. destruct (strlen t =? 0); [done|].
  by rewrite Hlo, Hhi.
Qed.

(** The repair leaves a lone EQUAL entry with closed ends alone. *)
Lemma adjust_single_equal fuel (a : jsstring) :
  a <> [] -> closed_ends a = true -> (1 <= fuel)%nat ->
  adjustDiffForSurrogatePairs fuel [(EQUAL, a)] = Some [(EQUAL, a)].
Proof.
  intros Hne Hc Hfuel. apply (adjust_more_fuel 1); [done|].
  assert ((strlen a =? 0) = false) as Hlen.
  { apply Z.eqb_neq. unfold strlen. destruct a; [done|]. cbn. lia. }
  unfold adjustDiffForSurrogatePairs.
  rewrite repair_loop_step by (cbn; lia).
  rewrite (repair_at_closed_ends [(EQUAL, a)] 0 EQUAL a) by done.
  rewrite repair_loop_done by (cbn; lia). cbn [mbind option_bind].
  rewrite sweep_loop_step by (cbn; lia). cbn [text_at lookup list_lookup snd].
  rewrite Hlen. by rewrite sweep_loop_done by (cbn; lia).
Qed.

(** C6, as the code has it: for a non-empty text [a] that neither starts
    with a low surrogate nor ends with a high one, [diff(a, a)] is the
    single entry [(EQUAL, a)]; and [diff("", "")] is the empty script. *)
Theorem diff_equal_texts_closed_ends
    (commonPrefix commonSuffix : jsstring -> jsstring -> Z)
    (compute_ : jsstring -> jsstring -> InternalDiffOptions -> list Diff)
    (cleanupMerge : list Diff -> list Diff)
    (fuel : nat) (now : Q) (a : jsstring) (opts : option DiffOptions) :
  (1 <= fuel)%nat ->
  (a <> [] -> closed_ends a = true) ->
  diff commonPrefix commonSuffix compute_ cleanupMerge fuel now (Some a) (Some a) opts
  = Some (Returns (if bool_decide (a = []) then [] else [(EQUAL, a)])).
Proof.
  intros Hfuel Hc. rewrite diff_equal_texts. case_bool_decide as Ha.
  - subst. by destruct fuel.
  - by rewrite adjust_single_equal by auto.
Qed.

(** The imports do not matter here; these stand in for them. *)
Definition no_affix : jsstring -> jsstring -> Z := fun _ _ => 0.
Definition replace_all : jsstring -> jsstring -> InternalDiffOptions -> list Diff :=
  fun a b _ => [(DELETE, a); (INSERT, b)].
Definition keep : list Diff -> list Diff := fun diffs => diffs.

Lemma diff_equal_texts_closed_ends_example :
  diff no_affix no_affix replace_all keep 1 0 (Some (js "kitten")) (Some (js "kitten")) None
  = Some (Returns [(EQUAL, js "kitten")])
  /\ diff no_affix no_affix replace_all keep 1 0 (Some []) (Some []) None
     = Some (Returns []).
Proof.
  split.
  - apply (diff_equal_texts_closed_ends no_affix no_affix replace_all keep
             1 0 (js "kitten") None); [lia | reflexivity].
  - apply (diff_equal_texts_closed_ends no_affix no_affix replace_all keep
             1 0 [] None); [lia | done].
Defined.

(** C6, refuted as stated: a text that is one lone high surrogate is not
    kept as an EQUAL entry; the repair turns it into a DELETE and an INSERT
    of that code unit, whatever the imports are. *)
Lemma diff_lone_high_surrogate :
  (forall commonPrefix commonSuffix compute_ cleanupMerge,
      diff commonPrefix commonSuffix compute_ cleanupMerge 4 0
           (Some [hi1]) (Some [hi1]) None
      = Some (Returns [(DELETE, [hi1]); (INSERT, [hi1])]))
  /\ [(DELETE, [hi1]); (INSERT, [hi1])] <> [(EQUAL, [hi1])].
Proof.
  split; [|done]. intros. by rewrite diff_equal_texts.
Qed.

(** ** The repair and the two reconstructions *)

(** [diff] is the repair applied to what [_diff] returns. *)
Lemma diff_is_repair_of__diff
    (commonPrefix commonSuffix : jsstring -> jsstring -> Z)
    (compute_ : jsstring -> jsstring -> InternalDiffOptions -> list Diff)
    (cleanupMerge : list Diff -> list Diff)
    fuel now (a b : jsstring) (opts : DiffOptions) :
  diff commonPrefix commonSuffix compute_ cleanupMerge fuel now (Some a) (Some b) (Some opts)
  = Returns <$> adjustDiffForSurrogatePairs fuel
                  (_diff commonPrefix commonSuffix compute_ cleanupMerge a b
                         (createInternalOpts now opts)).
Proof. unfold diff. cbn. by destruct (adjustDiffForSurrogatePairs _ _). Qed.

(** The least edit script from U+10000 to U+10001 U+20000, as code units:
    keep the high surrogate, insert two units, keep the low surrogate.  It
    has no empty entry and no two neighbours of one kind. *)
Definition split_pair_script : list Diff :=
  [(EQUAL, [hi1]); (INSERT, [lo2; hi2]); (EQUAL, [lo1])].

(** C9, on this script: the forward repair of the first entry gives
    INSERT and DELETE the same first unit, the backward repair of the last
    entry then takes the shared-character case, which compares the first
    units but moves the last unit of the INSERT into the EQUAL entry.  The
    script that comes out deletes nothing and keeps U+20000: its source
    text is no longer U+10000. *)
Theorem repair_changes_source_text :
  adjustDiffForSurrogatePairs 8 split_pair_script
  = Some [(INSERT, [hi1; lo2]); (EQUAL, [hi2; lo1])]
  /\ text1 split_pair_script = [hi1; lo1]
  /\ text1 [(INSERT, [hi1; lo2]); (EQUAL, [hi2; lo1])] = [hi2; lo1]
  /\ text2 [(INSERT, [hi1; lo2]); (EQUAL, [hi2; lo1])] = text2 split_pair_script.
Proof. repeat split; reflexivity. Qed.

(** The case the documentation of [deisolateChar] describes,
    [[EQUAL abc, INSERT de, DELETE df]] with [c] a high surrogate: the
    source tests the last characters of the two edits, which differ, so the
    character is moved out of the EQUAL entry instead of [d] being pulled
    into it. *)
Lemma documented_shared_case_not_taken :
  deisolateChar [(EQUAL, js "ab" ++ [hi1]); (INSERT, js "de"); (DELETE, js "df")] 0 Forward
  = [(EQUAL, js "ab"); (INSERT, [hi1] ++ js "de"); (DELETE, [hi1] ++ js "df")].
Proof. reflexivity. Qed.

(** When the last characters agree and the first ones do not, the case is
    taken and the DELETE loses a character that the EQUAL does not get. *)
Lemma shared_case_drops_deleted_char :
  deisolateChar [(EQUAL, js "a" ++ [hi1]); (INSERT, js "xy"); (DELETE, js "zy")] 0 Forward
  = [(EQUAL, js "a" ++ [hi1] ++ js "x"); (INSERT, js "y"); (DELETE, js "y")].
Proof. reflexivity. Qed.

(** C1, on equal texts made of a lone low surrogate followed by a lone
    high one: the backward repair finds no entry before the EQUAL one and
    calls [splice(-1, 0, ...)], which inserts before the last element
    instead of at the front.  The script returned rebuilds the source text
    with the two units swapped, and the destination text as it was. *)
Theorem diff_swaps_source_units
    (commonPrefix commonSuffix : jsstring -> jsstring -> Z)
    (compute_ : jsstring -> jsstring -> InternalDiffOptions -> list Diff)
    (cleanupMerge : list Diff -> list Diff) (now : Q) (opts : option DiffOptions) :
  let script := [(DELETE, [hi1]); (INSERT, [lo1]); (DELETE, [lo1]); (INSERT, [hi1])] in
  diff commonPrefix commonSuffix compute_ cleanupMerge 8 now
       (Some [lo1; hi1]) (Some [lo1; hi1]) opts
  = Some (Returns script)
  /\ text1 script = [hi1; lo1]
  /\ text2 script = [lo1; hi1].
Proof. cbn zeta. rewrite diff_equal_texts. repeat split; reflexivity. Qed.

(** ** Empty entries and neighbours of one kind *)

Definition is_empty (d : Diff) : bool := strlen d.2 =? 0.

Definition all_nonempty (diffs : list Diff) : bool :=
  forallb (fun d => negb (is_empty d)) diffs.

(** No two neighbours of the same kind. *)
Fixpoint alternating (diffs : list Diff) : bool :=
  match diffs with
  | d :: rest =>
      match rest with
      | d' :: _ => negb (d.1 =? d'.1) && alternating rest
      | [] => true
      end
  | [] => true
  end.

(** The least edit script from U+10000 to U+20000 [x]: it has no empty
    entry and no two neighbours of one kind. *)
Definition shared_low_script : list Diff :=
  [(DELETE, [hi1]); (INSERT, [hi2]); (EQUAL, [lo1]); (INSERT, js "x")].

(** The repair does not merge again: on [shared_low_script] it empties the
    EQUAL entry, the sweep removes it, and two INSERT entries end up side
    by side. *)
Lemma repair_does_not_merge_again :
  all_nonempty shared_low_script = true
  /\ alternating shared_low_script = true
  /\ adjustDiffForSurrogatePairs 8 shared_low_script
     = Some [(DELETE, [hi1; lo1]); (INSERT, [hi2; lo1]); (INSERT, js "x")]
  /\ alternating [(DELETE, [hi1; lo1]); (INSERT, [hi2; lo1]); (INSERT, js "x")] = false.
Proof. repeat split; reflexivity. Qed.

(** What the sweep computes: an empty entry is removed, and the entry that
    slides into its place is stepped over. *)
Fixpoint swept (diffs : list Diff) : list Diff :=
  match diffs with
  | [] => []
  | d :: rest =>
      if is_empty d then
        match rest with
        | d' :: rest' => d' :: swept rest'
        | [] => []
        end
      else d :: swept rest
  end.

Lemma sweep_loop_swept fuel (diffs : list Diff) i :
  (length diffs - i <= fuel)%nat ->
  sweep_loop fuel diffs i = Some (take i diffs ++ swept (drop i diffs)).
Proof.
  revert diffs i. induction fuel as [|fuel IH]; intros diffs i Hle.
  - rewrite sweep_loop_done by lia.
    rewrite drop_ge, take_ge by lia. by rewrite app_nil_r.
  - destruct (decide (i < length diffs)%nat) as [Hi|Hi].
    2:{ rewrite sweep_loop_done by lia.
        rewrite drop_ge, take_ge by lia. by rewrite app_nil_r. }
    rewrite sweep_loop_step by done.
    destruct (lookup_lt_is_Some_2 diffs i Hi) as [d Hd].
    unfold text_at. rewrite Hd.
    rewrite (drop_S diffs d i Hd). cbn [swept]. unfold is_empty at 1.
    destruct (strlen d.2 =? 0).
    + rewrite IH by (rewrite length_delete by eauto; lia).
      f_equal.
      assert (delete i diffs = take i diffs ++ drop (S i) diffs) as Hdel
        by (by rewrite delete_take_drop).
      rewrite Hdel.
      assert (length (take i diffs) = i) as Hlen by (rewrite length_take; lia).
      generalize (drop (S i) diffs). intros tail.
      replace (S i) with (i + 1)%nat by lia.
      rewrite take_app_add', drop_app_add' by done.
      destruct tail as [|d' rest']; cbn; by rewrite <- app_assoc.
    + rewrite IH by lia. f_equal.
      rewrite (take_S_r diffs i d Hd). by rewrite <- app_assoc.
Qed.

(** After an empty entry the sweep steps over the next entry, empty or
    not. *)
Lemma swept_two_empty (d d' : Diff) (rest : list Diff) :
  is_empty d = true -> swept (d :: d' :: rest) = d' :: swept rest.
Proof. intros Hd. cbn [swept]. by rewrite Hd. Qed.

(** C5: the script [diff] returns can hold an entry with empty text.  The
    second loop of [adjustDiffForSurrogatePairs] removes an empty entry
    with [splice(i, 1)] and moves on with [i++], so it never looks at the
    entry that slid into place [i].  On equal texts of two lone low
    surrogates the repair loop leaves an empty INSERT followed by an empty
    DELETE; the sweep removes the first and steps over the second, and
    [diff] returns a script that starts with an empty DELETE entry,
    whatever the imports are. *)
Theorem diff_returns_empty_entry :
  repair_loop 8 [(EQUAL, [lo1; lo1])] 0
  = Some [(INSERT, []); (DELETE, []); (EQUAL, [lo1; lo1])]
  /\ sweep_loop 8 [(INSERT, []); (DELETE, []); (EQUAL, [lo1; lo1])] 0
     = Some [(DELETE, []); (EQUAL, [lo1; lo1])]
  /\ (forall commonPrefix commonSuffix compute_ cleanupMerge,
         diff commonPrefix commonSuffix compute_ cleanupMerge 8 0
              (Some [lo1; lo1]) (Some [lo1; lo1]) None
         = Some (Returns [(DELETE, []); (EQUAL, [lo1; lo1])]))
  /\ all_nonempty [(DELETE, []); (EQUAL, [lo1; lo1])] = false.
Proof.
  split; [reflexivity|]. split; [reflexivity|]. split; [|reflexivity].
  intros. by rewrite diff_equal_texts.
Qed.

(** ** [toDelta] *)

(** Every surrogate of the text has its partner. *)
Fixpoint paired (s : jsstring) : bool :=
  match s with
  | [] => true
  | c :: rest =>
      if isHighSurrogate (Some c) then
        match rest with
        | d :: rest' => isLowSurrogate (Some d) && paired rest'
        | [] => false
        end
      else negb (isLowSurrogate (Some c)) && paired rest
  end.

(** The claim's reading of one token. *)
Definition delta_token (d : Diff) : option jsstring :=
  if d.1 =? EQUAL then Some (js "=" ++ decimal (strlen d.2))
  else if d.1 =? DELETE then Some (js "-" ++ decimal (strlen d.2))
  else if d.1 =? INSERT then (fun encoded => js "+" ++ replace_pct20 encoded) <$> encodeURI d.2
  else None.

Definition no_tab (s : jsstring) : Prop := Forall (fun c => c <> 9) s.
Definition no_percent (s : jsstring) : Prop := Forall (fun c => c <> 37) s.

Lemma list_induction_by_length {A} (P : list A -> Prop) :
  (forall l, (forall k, (length k < length l)%nat -> P k) -> P l) -> forall l, P l.
Proof.
  intros Hstep l. remember (length l) as n eqn:Hn. revert l Hn.
  induction n as [n IH] using lt_wf_ind. intros l ->.
  apply Hstep. intros k Hk. by eapply IH.
Qed.

(** Replaces the code of a character literal by its value. *)
Ltac eval_codes_in H :=
  repeat match type of H with
         | context [Z.of_nat (nat_of_ascii ?a)] =>
             let v := eval vm_compute in (Z.of_nat (nat_of_ascii a)) in
             change (Z.of_nat (nat_of_ascii a)) with v in H
         end.

Ltac eval_codes :=
  repeat match goal with
         | |- context [Z.of_nat (nat_of_ascii ?a)] =>
             let v := eval vm_compute in (Z.of_nat (nat_of_ascii a)) in
             change (Z.of_nat (nat_of_ascii a)) with v
         end.

Lemma uri_unescaped_not_surrogate c :
  uri_unescaped c = true ->
  isHighSurrogate (Some c) = false /\ isLowSurrogate (Some c) = false /\ c <> 9.
Proof.
  intros H.
  assert (c < 128) as Hlt.
  { unfold uri_unescaped in H.
    repeat (apply orb_true_iff in H as [H|H]).
    - unfold in_range in H. cbn in H. eval_codes_in H. lia.
    - unfold in_range in H. cbn in H. eval_codes_in H. lia.
    - unfold in_range in H. cbn in H. eval_codes_in H. lia.
    - apply bool_decide_eq_true_1 in H.
      apply list_elem_of_In in H. cbn in H. eval_codes_in H. lia.
    - apply bool_decide_eq_true_1 in H.
      apply list_elem_of_In in H. cbn in H. eval_codes_in H. lia. }
  repeat split; [cbn; lia | cbn; lia |].
  intros ->. vm_compute in H. done.
Qed.

(** [encodeURI] raises exactly on the texts with an unpaired surrogate. *)
Lemma encodeURI_paired s : is_Some (encodeURI s) <-> paired s = true.
Proof.
  induction s as [s IH] using list_induction_by_length.
  destruct s as [|c rest]; [cbn; split; eauto|].
  cbn [encodeURI paired].
  destruct (uri_unescaped c) eqn:Hu.
  { destruct (uri_unescaped_not_surrogate c Hu) as (-> & -> & _). cbn [negb andb].
    rewrite <- (IH rest) by (cbn; lia). rewrite fmap_is_Some. done. }
  destruct (isHighSurrogate (Some c)).
  - destruct rest as [|d rest']; [split; [by intros [? ?]|done]|].
    destruct (isLowSurrogate (Some d)); cbn [andb].
    + rewrite <- (IH rest') by (cbn; lia). by rewrite fmap_is_Some.
    + split; [by intros [? ?]|done].
  - destruct (isLowSurrogate (Some c)); cbn [negb andb].
    + split; [by intros [? ?]|done].
    + rewrite <- (IH rest) by (cbn; lia). by rewrite fmap_is_Some.
Qed.

Lemma hex_digit_bounds n : 48 <= hex_digit n.
Proof.
  unfold hex_digit. generalize (Z.to_nat n). intros k.
  do 17 (destruct k as [|k]; [cbn; eval_codes; lia|]). cbn. lia.
Qed.

Lemma escape_no_tab cp : no_tab (escape cp).
Proof.
  unfold escape, no_tab. apply Forall_forall. intros c Hc.
  apply list_elem_of_join in Hc as (piece & Hc & Hpiece).
  apply list_elem_of_fmap in Hpiece as (octet & -> & _).
  pose proof (hex_digit_bounds (octet / 16)). pose proof (hex_digit_bounds (octet mod 16)).
  unfold percent in Hc. apply elem_of_app in Hc as [Hc|Hc].
  - apply list_elem_of_In in Hc. destruct Hc as [<-|[]]. by vm_compute.
  - apply list_elem_of_In in Hc. destruct Hc as [<-|[<-|[]]]; lia.
Qed.

Lemma encodeURI_no_tab s encoded : encodeURI s = Some encoded -> no_tab encoded.
Proof.
  revert encoded. induction s as [s IH] using list_induction_by_length. intros encoded.
  destruct s as [|c rest]; [cbn; intros [= <-]; constructor|].
  cbn [encodeURI].
  destruct (uri_unescaped c) eqn:Hu.
  { destruct (encodeURI rest) as [e|] eqn:He; [|done]. cbn. intros [= <-].
    constructor; [by apply uri_unescaped_not_surrogate | apply (IH rest); [cbn; lia|done]]. }
  destruct (isHighSurrogate (Some c)).
  - destruct rest as [|d rest']; [done|].
    destruct (isLowSurrogate (Some d)); [|done].
    destruct (encodeURI rest') as [e|] eqn:He; [|done]. cbn. intros [= <-].
    apply Forall_app. split; [apply escape_no_tab | apply (IH rest'); [cbn; lia|done]].
  - destruct (isLowSurrogate (Some c)); [done|].
    destruct (encodeURI rest) as [e|] eqn:He; [|done]. cbn. intros [= <-].
    apply Forall_app. split; [apply escape_no_tab | apply (IH rest); [cbn; lia|done]].
Qed.

Lemma replace_pct20_unfold c c2 c3 rest :
  replace_pct20 (c :: c2 :: c3 :: rest)
  = if bool_decide ([c; c2; c3] = js "%20")
    then js " " ++ replace_pct20 rest
    else c :: replace_pct20 (c2 :: c3 :: rest).
Proof. reflexivity. Qed.

Lemma replace_pct20_cons c rest :
  c <> 37 -> replace_pct20 (c :: rest) = c :: replace_pct20 rest.
Proof.
  intros Hc. cbn [replace_pct20]. destruct rest as [|c2 [|c3 rest']]; try done.
  rewrite bool_decide_eq_false_2; [done|]. vm_compute (js "%20"). congruence.
Qed.

Lemma replace_pct20_no_percent s : no_percent s -> replace_pct20 s = s.
Proof.
  induction 1 as [|c rest Hc _ IH]; [done|].
  rewrite replace_pct20_cons by done. by rewrite IH.
Qed.

(** No match of [%20] reaches across a tab. *)
Lemma replace_pct20_tab x y :
  replace_pct20 (x ++ tab ++ y) = replace_pct20 x ++ tab ++ replace_pct20 y.
Proof.
  induction x as [x IH] using list_induction_by_length.
  destruct x as [|c [|c2 [|c3 x']]].
  - cbn [app]. unfold tab. cbn [app]. by rewrite replace_pct20_cons.
  - change (replace_pct20 [c]) with [c]. cbn [app tab]. unfold tab. cbn [app].
    transitivity (c :: replace_pct20 (9 :: y)).
    + cbn [replace_pct20]. destruct y as [|c3 y']; [done|].
      rewrite bool_decide_eq_false_2; [done|]. vm_compute (js "%20"). congruence.
    + by rewrite replace_pct20_cons.
  - change (replace_pct20 [c; c2]) with [c; c2].
    transitivity (c :: replace_pct20 ([c2] ++ tab ++ y)).
    + unfold tab. cbn [app replace_pct20].
      rewrite bool_decide_eq_false_2; [done|]. vm_compute (js "%20"). congruence.
    + rewrite (IH [c2]) by (cbn; lia). done.
  - change ((c :: c2 :: c3 :: x') ++ tab ++ y) with (c :: c2 :: c3 :: (x' ++ tab ++ y)).
    rewrite !replace_pct20_unfold. case_bool_decide.
    + rewrite (IH x') by (cbn; lia). by rewrite <- app_assoc.
    + change (c2 :: c3 :: x' ++ tab ++ y) with ((c2 :: c3 :: x') ++ tab ++ y).
      rewrite (IH (c2 :: c3 :: x')) by (cbn; lia). done.
Qed.

Lemma replace_pct20_join parts :
  replace_pct20 (join tab parts) = join tab (replace_pct20 <$> parts).
Proof.
  induction parts as [|p [|q parts] IH]; [done|done|].
  change (join tab (p :: q :: parts)) with (p ++ tab ++ join tab (q :: parts)).
  rewrite replace_pct20_tab, IH. done.
Qed.

Lemma replace_pct20_no_tab s : no_tab s -> no_tab (replace_pct20 s).
Proof.
  induction s as [s IH] using list_induction_by_length. intros Hs.
  destruct s as [|c [|c2 [|c3 rest']]]; try done.
  inversion Hs as [|? ? Hc Hs1]; subst. inversion Hs1 as [|? ? Hc2 Hs2]; subst.
  inversion Hs2 as [|? ? Hc3 Hs3]; subst.
  rewrite replace_pct20_unfold. case_bool_decide.
  - apply Forall_app. split; [by repeat constructor|]. apply IH; [cbn; lia|done].
  - constructor; [done|]. apply IH; [cbn; lia|done].
Qed.

Definition is_digit (c : char) : Prop := 48 <= c <= 57.

Lemma decimal_digits n : Forall is_digit (decimal n).
Proof.
  unfold decimal, NilZero.string_of_uint.
  assert (forall u, Forall is_digit (js (NilEmpty.string_of_uint u))) as Hu.
  { induction u; cbn; constructor; try done; unfold is_digit; vm_compute; split; congruence. }
  destruct (N.to_uint (Z.to_N n)); try apply Hu.
  repeat constructor; vm_compute; congruence.
Qed.

Lemma digits_no_percent s : Forall is_digit s -> no_percent s.
Proof. intros H. eapply Forall_impl; [done|]. unfold is_digit. intros; lia. Qed.

Lemma digits_no_tab s : Forall is_digit s -> no_tab s.
Proof. intros H. eapply Forall_impl; [done|]. unfold is_digit. intros; lia. Qed.

(** The loop appends one raw token per entry. *)
Lemma toDelta_loop_tokens (diffs : list Diff) (text : list jsstring) :
  well_typed diffs ->
  Forall (fun d : Diff => d.1 = INSERT -> paired d.2 = true) diffs ->
  exists raw,
    toDelta_loop diffs text = Returns (text ++ raw)
    /\ Forall2 (fun d token => delta_token d = Some token) diffs (replace_pct20 <$> raw)
    /\ Forall no_tab (replace_pct20 <$> raw).
Proof.
  intros Hwt. revert text. induction Hwt as [|[op data] diffs Hop Hwt IH]; intros text Hp.
  - exists []. rewrite app_nil_r. repeat split; constructor.
  - inversion Hp as [|? ? Hhead Hp']; subst. cbn [fst snd] in Hhead, Hop.
    cbn [toDelta_loop]. unfold known_type in Hop.
    pose proof (decimal_digits (strlen data)) as Hdig.
    destruct (Z.eqb_spec op INSERT) as [->|Hi].
    { destruct (proj2 (encodeURI_paired data) (Hhead eq_refl)) as [encoded He].
      rewrite He.
      destruct (IH (text ++ [js "+" ++ encoded]) Hp') as (raw & -> & Htok & Htab).
      exists ((js "+" ++ encoded) :: raw).
      rewrite <- app_assoc.
      assert (replace_pct20 (js "+" ++ encoded) = js "+" ++ replace_pct20 encoded) as Hplus.
      { vm_compute (js "+"). cbn [app]. by rewrite replace_pct20_cons. }
      cbn [fmap list_fmap]. rewrite Hplus. repeat split; try done.
      - constructor; [|done]. unfold delta_token. cbn [fst snd].
        change (INSERT =? EQUAL) with false. change (INSERT =? DELETE) with false.
        change (INSERT =? INSERT) with true. cbn match. by rewrite He.
      - constructor; [|done]. apply Forall_app. split; [by repeat constructor|].
        apply replace_pct20_no_tab. by eapply encodeURI_no_tab. }
    destruct (Z.eqb_spec op DELETE) as [->|Hd].
    { destruct (IH (text ++ [js "-" ++ decimal (strlen data)]) Hp') as (raw & -> & Htok & Htab).
      exists ((js "-" ++ decimal (strlen data)) :: raw).
      rewrite <- app_assoc.
      assert (replace_pct20 (js "-" ++ decimal (strlen data))
              = js "-" ++ decimal (strlen data)) as Hminus.
      { apply replace_pct20_no_percent.
        apply Forall_app. split; [by repeat constructor | by apply digits_no_percent]. }
      cbn [fmap list_fmap]. rewrite Hminus. repeat split; try done.
      - by constructor.
      - constructor; [|done].
        apply Forall_app. split; [by repeat constructor | by apply digits_no_tab]. }
    destruct (Z.eqb_spec op EQUAL) as [->|He]; [|done].
    destruct (IH (text ++ [js "=" ++ decimal (strlen data)]) Hp') as (raw & -> & Htok & Htab).
    exists ((js "=" ++ decimal (strlen data)) :: raw).
    rewrite <- app_assoc.
    assert (replace_pct20 (js "=" ++ decimal (strlen data))
            = js "=" ++ decimal (strlen data)) as Heq.
    { apply replace_pct20_no_percent.
      apply Forall_app. split; [by repeat constructor | by apply digits_no_percent]. }
    cbn [fmap list_fmap]. rewrite Heq. repeat split; try done.
    + by constructor.
    + constructor; [|done].
      apply Forall_app. split; [by repeat constructor | by apply digits_no_tab].
Qed.

(** C7, as the code has it: for a script of DELETE, INSERT and EQUAL
    entries whose inserted texts have no unpaired surrogate, [toDelta]
    returns the tokens of the entries, in order, joined by tabs: [=n] and
    [-n] with the decimal length of the text, and [+] followed by the
    percent-encoded text in which every [%20] is written as a space.  No
    token holds a tab. *)
Theorem toDelta_tokens (diffs : list Diff) :
  well_typed diffs ->
  Forall (fun d : Diff => d.1 = INSERT -> paired d.2 = true) diffs ->
  exists tokens,
    mapM delta_token diffs = Some tokens
    /\ toDelta diffs = Returns (join tab tokens)
    /\ Forall no_tab tokens.
Proof.
  intros Hwt Hp.
  destruct (toDelta_loop_tokens diffs [] Hwt Hp) as (raw & Hloop & Htok & Htab).
  exists (replace_pct20 <$> raw). split; [by apply mapM_Some_2|]. split; [|done].
  unfold toDelta. rewrite Hloop. cbn [app]. by rewrite replace_pct20_join.
Qed.

Lemma toDelta_tokens_example :
  exists tokens,
    mapM delta_token [(EQUAL, js "ab"); (DELETE, js "c"); (INSERT, js " x%")] = Some tokens
    /\ toDelta [(EQUAL, js "ab"); (DELETE, js "c"); (INSERT, js " x%")]
       = Returns (join tab tokens)
    /\ Forall no_tab tokens.
Proof.
  apply (toDelta_tokens [(EQUAL, js "ab"); (DELETE, js "c"); (INSERT, js " x%")]).
  - repeat constructor.
  - repeat constructor.
Defined.

Lemma toDelta_example :
  toDelta [(EQUAL, js "ab"); (DELETE, js "c"); (INSERT, js " x%")]
  = Returns (js "=2" ++ tab ++ js "-1" ++ tab ++ js "+ x%25").
Proof. reflexivity. Qed.

(** C7, refuted as stated: on an inserted text that is a lone high
    surrogate [encodeURI] raises, and [toDelta] returns no delta. *)
Lemma toDelta_lone_surrogate : toDelta [(INSERT, [hi1])] = Throws URIError.
Proof. reflexivity. Qed.

(** ** Termination of the repair loop *)

(** The loop index moves on by one each turn while the repair can make the
    array longer.  What shrinks is the weight of the entries from the loop
    index on: an entry counts one, every code unit of an EQUAL entry four
    more, every code unit of another entry one more. *)
Definition weight (d : Diff) : nat :=
  S ((if d.1 =? EQUAL then 4 else 1) * length d.2).

Fixpoint total (diffs : list Diff) : nat :=
  match diffs with
  | [] => 0
  | d :: diffs => weight d + total diffs
  end.

(** The entries after index [i]. *)
Definition tail_after (i : nat) (diffs : list Diff) : nat := total (drop (S i) diffs).

Lemma total_app (diffs1 diffs2 : list Diff) :
  total (diffs1 ++ diffs2) = (total diffs1 + total diffs2)%nat.
Proof. induction diffs1 as [|d diffs1 IH]; cbn [total app]; [done|]. rewrite IH. lia. Qed.

Lemma total_cons (d : Diff) (diffs : list Diff) :
  total (d :: diffs) = (weight d + total diffs)%nat.
Proof. done. Qed.

Lemma total_alter (f : Diff -> Diff) (diffs : list Diff) k d :
  diffs !! k = Some d ->
  (total (alter f k diffs) + weight d = total diffs + weight (f d))%nat.
Proof.
  revert k. induction diffs as [|d0 diffs IH]; intros k Hk; [done|].
  destruct k as [|k]; cbn in Hk.
  - injection Hk as ->. cbn [alter list_alter]. rewrite !total_cons. lia.
  - cbn [alter list_alter]. rewrite !total_cons.
    specialize (IH k Hk). lia.
Qed.

Lemma total_drop_lookup (diffs : list Diff) i d :
  diffs !! i = Some d -> total (drop i diffs) = (weight d + tail_after i diffs)%nat.
Proof. intros Hi. unfold tail_after. by rewrite (drop_S diffs d i Hi). Qed.

(** *** Updates and insertions seen from index [i] *)

Lemma set_text_length (diffs : list Diff) k t : length (set_text diffs k t) = length diffs.
Proof. apply length_alter. Qed.

Lemma set_text_lookup_eq (diffs : list Diff) k op t0 t :
  diffs !! k = Some (op, t0) -> set_text diffs k t !! k = Some (op, t).
Proof. intros Hk. unfold set_text. by rewrite list_lookup_alter_eq, Hk. Qed.

Lemma set_text_lookup_ne (diffs : list Diff) k k' t :
  k <> k' -> set_text diffs k t !! k' = diffs !! k'.
Proof. intros. unfold set_text. by rewrite list_lookup_alter_ne. Qed.

Lemma text_at_lookup (diffs : list Diff) k op t :
  diffs !! k = Some (op, t) -> text_at diffs k = t.
Proof. intros Hk. unfold text_at. by rewrite Hk. Qed.

Lemma tail_after_set_text_le (diffs : list Diff) i k t :
  (k <= i)%nat -> tail_after i (set_text diffs k t) = tail_after i diffs.
Proof. intros. unfold tail_after, set_text. rewrite drop_alter_lt by lia. done. Qed.

Lemma tail_after_set_text_gt (diffs : list Diff) i k op t0 t :
  (i < k)%nat -> diffs !! k = Some (op, t0) ->
  (tail_after i (set_text diffs k t) + weight (op, t0)
   = tail_after i diffs + weight (op, t))%nat.
Proof.
  intros Hik Hk. unfold tail_after, set_text. rewrite drop_alter_ge by lia.
  assert (drop (S i) diffs !! (k - S i)%nat = Some (op, t0)) as Hd.
  { rewrite lookup_drop. rewrite <- Hk. f_equal. lia. }
  exact (total_alter (fun d : Diff => (d.1, t)) _ _ _ Hd).
Qed.

Lemma splice_insert_length (diffs : list Diff) j d :
  length (splice_insert diffs j d) = S (length diffs).
Proof.
  unfold splice_insert. rewrite length_app. cbn [length].
  rewrite length_take, length_drop. lia.
Qed.

Lemma splice_pos_le (diffs : list Diff) j : (splice_pos diffs j <= length diffs)%nat.
Proof. unfold splice_pos. cbv zeta. destruct (Z.ltb_spec j 0); lia. Qed.

Lemma splice_insert_lookup_lt (diffs : list Diff) j d k :
  (k < splice_pos diffs j)%nat -> splice_insert diffs j d !! k = diffs !! k.
Proof.
  intros Hk. unfold splice_insert. pose proof (splice_pos_le diffs j).
  rewrite lookup_app_l by (rewrite length_take; lia). by rewrite lookup_take_lt.
Qed.

Lemma splice_insert_lookup_ge (diffs : list Diff) j d k :
  (splice_pos diffs j <= k)%nat -> splice_insert diffs j d !! S k = diffs !! k.
Proof.
  intros Hk. unfold splice_insert. pose proof (splice_pos_le diffs j).
  rewrite lookup_app_r by (rewrite length_take; lia).
  rewrite length_take. replace (Nat.min (splice_pos diffs j) (length diffs))
    with (splice_pos diffs j) by lia.
  replace (S k - splice_pos diffs j)%nat with (S (k - splice_pos diffs j)) by lia.
  rewrite lookup_cons, lookup_drop. f_equal. lia.
Qed.

(** An insertion at or before [i] pushes entry [i] into the tail. *)
Lemma tail_after_splice_shift (diffs : list Diff) i j d :
  (splice_pos diffs j <= i)%nat ->
  tail_after i (splice_insert diffs j d) = total (drop i diffs).
Proof.
  intros Hp. unfold tail_after, splice_insert. pose proof (splice_pos_le diffs j).
  rewrite drop_app_ge by (rewrite length_take; lia). rewrite length_take.
  replace (Nat.min (splice_pos diffs j) (length diffs)) with (splice_pos diffs j) by lia.
  replace (S i - splice_pos diffs j)%nat with (S (i - splice_pos diffs j)) by lia.
  cbn [drop]. rewrite drop_drop. do 2 f_equal. lia.
Qed.

(** An insertion after [i] adds its entry to the tail. *)
Lemma tail_after_splice_after (diffs : list Diff) i j d :
  (i < splice_pos diffs j)%nat ->
  tail_after i (splice_insert diffs j d) = (tail_after i diffs + weight d)%nat.
Proof.
  intros Hp. unfold tail_after, splice_insert. pose proof (splice_pos_le diffs j).
  rewrite drop_app_le by (rewrite length_take; lia).
  rewrite total_app, total_cons.
  rewrite <- (drop_take_drop diffs (S i) (splice_pos diffs j)) at 1 by lia.
  rewrite total_app. lia.
Qed.

(** *** [splitChar] and [combineChar] on a text that is not empty *)

Lemma splitChar_forward_snoc (rest : jsstring) (c : char) :
  splitChar (rest ++ [c]) Forward = (rest, Some c).
Proof.
  unfold splitChar, substring, clamp, charAt, strlen. rewrite length_app. cbn [length].
  replace (Z.of_nat (length rest + 1) - 1) with (Z.of_nat (length rest)) by lia.
  f_equal.
  - replace (Z.to_nat (Z.max 0 (Z.min 0 (Z.of_nat (length rest + 1))))) with 0%nat by lia.
    replace (Z.to_nat (Z.max 0 (Z.min (Z.of_nat (length rest)) (Z.of_nat (length rest + 1)))))
      with (length rest) by lia.
    rewrite Nat.min_0_l, Nat.max_0_l, Nat.sub_0_r, drop_0. by rewrite take_app_length.
  - destruct (Z.ltb_spec (Z.of_nat (length rest)) 0); [lia|].
    rewrite Nat2Z.id. rewrite lookup_app_r by lia. by rewrite Nat.sub_diag.
Qed.

Lemma splitChar_backward_cons (c : char) (rest : jsstring) :
  splitChar (c :: rest) Backward = (rest, Some c).
Proof.
  unfold splitChar, substring_from, substring, clamp, charAt, strlen. cbn [length].
  f_equal.
  replace (Z.to_nat (Z.max 0 (Z.min 1 (Z.of_nat (S (length rest)))))) with 1%nat by lia.
  replace (Z.to_nat (Z.max 0 (Z.min (Z.of_nat (S (length rest))) (Z.of_nat (S (length rest))))))
    with (S (length rest)) by lia.
  replace (Nat.min 1 (S (length rest))) with 1%nat by lia.
  replace (Nat.max 1 (S (length rest))) with (S (length rest)) by lia.
  cbn [drop]. rewrite drop_0. apply take_ge. lia.
Qed.

Lemma snoc_or_nil {A} (l : list A) : l = [] \/ exists rest c, l = rest ++ [c].
Proof.
  destruct l as [|a l] using rev_ind; [by left|]. right. eauto.
Qed.

(** *** What the search loop finds *)

(** An entry of kind [op] whose text is not empty. *)
Definition edit_at (diffs : list Diff) (op : Z) (k : nat) : Prop :=
  exists t, diffs !! k = Some (op, t) /\ t <> [].

Lemma strlen_zero (t : jsstring) : (strlen t =? 0) = false -> t <> [].
Proof. intros H ->. done. Qed.

(** Forward, from [i + 1]: what is found lies after [i] and before the
    final [j], which is at most the length of the array. *)
Lemma scan_forward (diffs : list Diff) (i : nat) ahead j ins del :
  j + Z.of_nat ahead = Z.of_nat (length diffs) ->
  Z.of_nat i < j ->
  (forall k, ins = Some k -> (i < k)%nat /\ Z.of_nat k < j /\ edit_at diffs INSERT k) ->
  (forall k, del = Some k -> (i < k)%nat /\ Z.of_nat k < j /\ edit_at diffs DELETE k) ->
  match scan diffs Forward ahead j ins del with
  | Adjacent j' => (i < j')%nat
  | Stopped j' ins' del' =>
      Z.of_nat i < j' <= Z.of_nat (length diffs)
      /\ (forall k, ins' = Some k ->
                    (i < k)%nat /\ Z.of_nat k < j' /\ edit_at diffs INSERT k)
      /\ (forall k, del' = Some k ->
                    (i < k)%nat /\ Z.of_nat k < j' /\ edit_at diffs DELETE k)
  end.
Proof.
  revert j ins del. induction ahead as [|ahead IH]; intros j ins del Hj Hi Hins Hdel.
  { cbn [scan]. split; [lia|]. split; assumption. }
  cbn [scan].
  destruct (bool_decide (is_Some ins) && bool_decide (is_Some del)).
  { split; [lia|]. split; assumption. }
  destruct (diffs !! Z.to_nat j) as [[op text]|] eqn:Hlook.
  2:{ split; [lia|]. split; assumption. }
  assert (forall kind : Z, forall found : option nat,
             (forall k, found = Some k ->
                        (i < k)%nat /\ Z.of_nat k < j /\ edit_at diffs kind k) ->
             forall k, found = Some k ->
                       (i < k)%nat /\ Z.of_nat k < j + step Forward /\ edit_at diffs kind k)
    as Hweaken.
  { intros kind found Hf k Hk. destruct (Hf k Hk) as (? & ? & ?). cbn [step].
    repeat split; [lia|lia|done]. }
  assert (forall kind : Z, forall found : option nat,
             op = kind -> (strlen text =? 0) = false ->
             (forall k, found = Some k ->
                        (i < k)%nat /\ Z.of_nat k < j /\ edit_at diffs kind k) ->
             forall k, (if found is None then Some (Z.to_nat j) else found) = Some k ->
                       (i < k)%nat /\ Z.of_nat k < j + step Forward /\ edit_at diffs kind k)
    as Hnew.
  { intros kind found Hkind Hlen Hf k Hk. destruct found as [k0|].
    - by apply (Hweaken kind (Some k0)).
    - injection Hk as <-. cbn [step]. repeat split; [lia|lia|].
      exists text. rewrite <- Hkind. split; [done|by apply strlen_zero]. }
  destruct (strlen text =? 0) eqn:Hlen.
  { apply IH; [cbn [step]; lia | cbn [step]; lia | by apply Hweaken | by apply Hweaken]. }
  destruct (Z.eqb_spec op INSERT) as [Hop|Hop].
  { apply IH; [cbn [step]; lia | cbn [step]; lia | by apply Hnew | by apply Hweaken]. }
  destruct (Z.eqb_spec op DELETE) as [Hop'|Hop'].
  { apply IH; [cbn [step]; lia | cbn [step]; lia | by apply Hweaken | by apply Hnew]. }
  destruct (op =? EQUAL).
  - destruct ins; [split; [lia|]; split; assumption|].
    destruct del; [split; [lia|]; split; assumption|]. lia.
  - apply IH; [cbn [step]; lia | cbn [step]; lia | by apply Hweaken | by apply Hweaken].
Qed.

(** Backward, from [i - 1]: what is found lies before [i], and the final
    [j] is [-1] when nothing was found. *)
Lemma scan_backward (diffs : list Diff) (i : nat) ahead j ins del :
  j = Z.of_nat ahead - 1 -> j < Z.of_nat i -> (i <= length diffs)%nat ->
  (forall k, ins = Some k -> (k < i)%nat) ->
  (forall k, del = Some k -> (k < i)%nat) ->
  match scan diffs Backward ahead j ins del with
  | Adjacent j' => (j' < i)%nat
  | Stopped j' ins' del' =>
      -1 <= j' < Z.of_nat i
      /\ (forall k, ins' = Some k -> (k < i)%nat)
      /\ (forall k, del' = Some k -> (k < i)%nat)
      /\ (ins' = None -> del' = None -> j' = -1)
  end.
Proof.
  revert j ins del. induction ahead as [|ahead IH]; intros j ins del Hj Hi Hlen Hins Hdel.
  { cbn [scan]. repeat split; try assumption; lia. }
  cbn [scan].
  destruct (bool_decide (is_Some ins) && bool_decide (is_Some del)) eqn:Hboth.
  { repeat split; try assumption; try lia.
    intros -> _. by rewrite bool_decide_eq_false_2 in Hboth by (by intros [? ?]). }
  destruct (diffs !! Z.to_nat j) as [[op text]|] eqn:Hlook.
  2:{ apply lookup_ge_None in Hlook. lia. }
  assert (forall found : option nat,
             (forall k, found = Some k -> (k < i)%nat) ->
             forall k, (if found is None then Some (Z.to_nat j) else found) = Some k ->
                       (k < i)%nat) as Hnew.
  { intros found Hf k Hk. destruct found as [k0|]; [by apply Hf|].
    injection Hk as <-. lia. }
  destruct (strlen text =? 0).
  { apply IH; [cbn [step]; lia | cbn [step]; lia | done | done | done]. }
  destruct (op =? INSERT).
  { apply IH; [cbn [step]; lia | cbn [step]; lia | done | by apply Hnew | done]. }
  destruct (op =? DELETE).
  { apply IH; [cbn [step]; lia | cbn [step]; lia | done | done | by apply Hnew]. }
  destruct (op =? EQUAL).
  - destruct ins; [repeat split; try assumption; try lia; done|].
    destruct del; [repeat split; try assumption; try lia; done|]. lia.
  - apply IH; [cbn [step]; lia | cbn [step]; lia | done | done | done].
Qed.

(** *** One code unit more or less in an entry *)

Lemma weight_cons op (c : char) (t : jsstring) :
  weight (op, c :: t) = (weight (op, t) + (if (op =? EQUAL)%Z then 4 else 1))%nat.
Proof. unfold weight. cbn [fst snd length]. destruct (op =? EQUAL); lia. Qed.

Lemma weight_le op (t t' : jsstring) :
  (length t <= S (length t'))%nat -> (weight (op, t) <= weight (op, t') + 4)%nat.
Proof. unfold weight. cbn [fst snd]. destruct (op =? EQUAL); lia. Qed.

Lemma set_text_absent (diffs : list Diff) k t :
  diffs !! k = None -> set_text diffs k t = diffs.
Proof.
  intros Hk. unfold set_text.
  rewrite (list_alter_ext _ id diffs diffs k); [by apply list_alter_id | | done].
  intros d Hd. congruence.
Qed.

Lemma tail_after_set_text_grow (diffs : list Diff) i k t :
  (length t <= S (length (text_at diffs k)))%nat ->
  (tail_after i (set_text diffs k t) <= tail_after i diffs + 4)%nat.
Proof.
  intros Hlen. destruct (decide (k <= i)%nat) as [Hk|Hk].
  { rewrite tail_after_set_text_le by done. lia. }
  destruct (diffs !! k) as [[op t0]|] eqn:Hlook.
  - pose proof (tail_after_set_text_gt diffs i k op t0 t ltac:(lia) Hlook) as Heq.
    rewrite (text_at_lookup _ _ _ _ Hlook) in Hlen.
    pose proof (weight_le op t t0 Hlen). lia.
  - rewrite set_text_absent by done. lia.
Qed.

Lemma tail_after_push (diffs : list Diff) i k op t0 (c : char) :
  (i < k)%nat -> diffs !! k = Some (op, t0) -> op <> EQUAL ->
  tail_after i (set_text diffs k (c :: t0)) = (tail_after i diffs + 1)%nat.
Proof.
  intros Hik Hlook Hop.
  pose proof (tail_after_set_text_gt diffs i k op t0 (c :: t0) Hik Hlook) as Heq.
  rewrite weight_cons in Heq. destruct (Z.eqb_spec op EQUAL); [done|]. lia.
Qed.

Lemma tail_after_pop (diffs : list Diff) i k op (c : char) (rest : jsstring) :
  (i < k)%nat -> diffs !! k = Some (op, c :: rest) ->
  (tail_after i (set_text diffs k rest) + 1 <= tail_after i diffs)%nat.
Proof.
  intros Hik Hlook.
  pose proof (tail_after_set_text_gt diffs i k op (c :: rest) rest Hik Hlook) as Heq.
  rewrite weight_cons in Heq. destruct (op =? EQUAL); lia.
Qed.

Lemma splice_pos_inside (diffs : list Diff) (j : Z) :
  0 <= j <= Z.of_nat (length diffs) -> splice_pos diffs j = Z.to_nat j.
Proof. intros Hj. unfold splice_pos. cbv zeta. destruct (Z.ltb_spec j 0); lia. Qed.

Lemma splice_pos_minus_one (diffs : list Diff) :
  splice_pos diffs (-1) = (length diffs - 1)%nat.
Proof. unfold splice_pos. cbv zeta. change (-1 <? 0) with true. cbn match. lia. Qed.

(** *** The forward repair *)

(** What [deisolateChar(diffs, i, 1)] does to an EQUAL entry [i] with a
    text [E] that is not empty: the entry stays at [i]; either it loses
    its last unit and the tail grows by at most four, or it gains a unit
    that two entries of the tail lose. *)
Lemma deisolate_forward (diffs : list Diff) i (E : jsstring) :
  diffs !! i = Some (EQUAL, E) -> E <> [] ->
  exists E1,
    deisolateChar diffs i Forward !! i = Some (EQUAL, E1)
    /\ (length diffs <= length (deisolateChar diffs i Forward))%nat
    /\ ((length E = S (length E1)
         /\ (tail_after i (deisolateChar diffs i Forward) <= tail_after i diffs + 4)%nat)
        \/ (length E1 = S (length E)
            /\ (tail_after i (deisolateChar diffs i Forward) + 2 <= tail_after i diffs)%nat
            /\ (S i < length (deisolateChar diffs i Forward))%nat)).
Proof.
  intros Hi HE.
  assert (i < length diffs)%nat as Hlt by (by eapply lookup_lt_Some).
  destruct (snoc_or_nil E) as [->|(rest & c & ->)]; [done|]. clear HE.
  unfold deisolateChar.
  pose proof (scan_forward diffs i (indices_ahead diffs i Forward)
                (Z.of_nat i + step Forward) None None) as Hscan.
  cbn [indices_ahead step] in Hscan |- *.
  specialize (Hscan ltac:(lia) ltac:(lia) ltac:(done) ltac:(done)).
  rewrite (text_at_lookup _ _ _ _ Hi).
  destruct (scan diffs Forward (length diffs - S i) (Z.of_nat i + 1) None None)
    as [j|j ins del].
  - (* two EQUAL entries in a row *)
    rewrite splitChar_forward_snoc.
    exists rest. split; [|split].
    + rewrite set_text_lookup_ne by lia. by apply (set_text_lookup_eq _ _ _ (rest ++ [c])).
    + by rewrite !set_text_length.
    + left. split; [rewrite length_app; cbn; lia|].
      etransitivity; [apply tail_after_set_text_grow|].
      * unfold combineChar, opposite, text_of. cbn [app length]. lia.
      * rewrite tail_after_set_text_le by lia. lia.
  - destruct Hscan as (Hj & Hins & Hdel).
    assert (forall ki kd ti td, diffs !! ki = Some (INSERT, ti) ->
                                diffs !! kd = Some (DELETE, td) -> ki <> kd) as Hne.
    { intros ki kd ti td H1 H2 ->. rewrite H1 in H2. done. }
    (* the general case, shared by three branches *)
    assert (exists E1,
               move_char diffs i Forward j ins del !! i = Some (EQUAL, E1)
               /\ (length diffs <= length (move_char diffs i Forward j ins del))%nat
               /\ length (rest ++ [c]) = S (length E1)
               /\ (tail_after i (move_char diffs i Forward j ins del)
                   <= tail_after i diffs + 4)%nat) as Hmove.
    { unfold move_char. rewrite (text_at_lookup _ _ _ _ Hi), splitChar_forward_snoc.
      cbn [opposite combineChar text_of].
      pose proof (set_text_lookup_eq diffs i EQUAL (rest ++ [c]) rest Hi) as Hi0.
      pose proof (tail_after_set_text_le diffs i i rest ltac:(lia)) as Ht0.
      pose proof (set_text_length diffs i rest) as Hl0.
      set (L0 := set_text diffs i rest) in *.
      exists rest. rewrite length_app. cbn [length].
      destruct ins as [ki|].
      - destruct (Hins ki eq_refl) as (Hki & Hkij & ti & Hti & _).
        assert (L0 !! ki = Some (INSERT, ti)) as Hti0
            by (unfold L0; rewrite set_text_lookup_ne by lia; done).
        rewrite (text_at_lookup _ _ _ _ Hti0). cbn [app].
        pose proof (tail_after_push L0 i ki INSERT ti c Hki Hti0 ltac:(done)) as Ht1.
        pose proof (set_text_length L0 ki (c :: ti)) as Hl1.
        assert (set_text L0 ki (c :: ti) !! i = Some (EQUAL, rest)) as Hi1
            by (rewrite set_text_lookup_ne by lia; done).
        set (L1 := set_text L0 ki (c :: ti)) in *.
        destruct del as [kd|].
        + destruct (Hdel kd eq_refl) as (Hkd & Hkdj & td & Htd & _).
          assert (L1 !! kd = Some (DELETE, td)) as Htd1.
          { unfold L1, L0. rewrite !set_text_lookup_ne; [done|lia|]. by eapply Hne. }
          rewrite (text_at_lookup _ _ _ _ Htd1). cbn [app].
          pose proof (tail_after_push L1 i kd DELETE td c Hkd Htd1 ltac:(done)) as Ht2.
          rewrite set_text_lookup_ne by lia. rewrite set_text_length.
          repeat split; [done|lia|lia|lia].
        + rewrite splice_insert_lookup_lt by (rewrite splice_pos_inside; lia).
          rewrite splice_insert_length.
          rewrite tail_after_splice_after by (rewrite splice_pos_inside; lia).
          change (weight (DELETE, [c])) with 2%nat.
          repeat split; [done|lia|lia|lia].
      - pose proof (splice_insert_length L0 j (INSERT, [c])) as Hl1.
        assert (splice_insert L0 j (INSERT, [c]) !! i = Some (EQUAL, rest)) as Hi1
            by (rewrite splice_insert_lookup_lt by (rewrite splice_pos_inside; lia); done).
        pose proof (tail_after_splice_after L0 i j (INSERT, [c])
                      ltac:(rewrite splice_pos_inside; lia)) as Ht1.
        change (weight (INSERT, [c])) with 2%nat in Ht1.
        set (L1 := splice_insert L0 j (INSERT, [c])) in *.
        destruct del as [kd|].
        + destruct (Hdel kd eq_refl) as (Hkd & Hkdj & td & Htd & _).
          cbn [fmap option_fmap option_map].
          destruct (Z.leb_spec j (Z.of_nat kd)); [lia|].
          assert (L1 !! kd = Some (DELETE, td)) as Htd1.
          { unfold L1. rewrite splice_insert_lookup_lt by (rewrite splice_pos_inside; lia).
            unfold L0. rewrite set_text_lookup_ne by lia. done. }
          rewrite (text_at_lookup _ _ _ _ Htd1). cbn [app].
          pose proof (tail_after_push L1 i kd DELETE td c Hkd Htd1 ltac:(done)) as Ht2.
          rewrite set_text_lookup_ne by lia. rewrite set_text_length.
          repeat split; [done|lia|lia|lia].
        + cbn [fmap option_fmap option_map].
          rewrite splice_insert_lookup_lt by (rewrite splice_pos_inside; lia).
          rewrite splice_insert_length.
          rewrite tail_after_splice_after by (rewrite splice_pos_inside; lia).
          change (weight (DELETE, [c])) with 2%nat.
          repeat split; [done|lia|lia|lia]. }
    assert (exists E1,
               move_char diffs i Forward j ins del !! i = Some (EQUAL, E1)
               /\ (length diffs <= length (move_char diffs i Forward j ins del))%nat
               /\ (length (rest ++ [c]) = S (length E1)
                   /\ (tail_after i (move_char diffs i Forward j ins del)
                       <= tail_after i diffs + 4)%nat
                   \/ length E1 = S (length (rest ++ [c]))
                      /\ (tail_after i (move_char diffs i Forward j ins del) + 2
                          <= tail_after i diffs)%nat
                      /\ (S i < length (move_char diffs i Forward j ins del))%nat))
      as Hmove'.
    { destruct Hmove as (E1 & ? & ? & ? & ?). exists E1. auto. }
    destruct ins as [ki|]; [|exact Hmove'].
    destruct del as [kd|]; [|exact Hmove'].
    destruct (hasSharedChar diffs ki kd Forward); [|exact Hmove'].
    (* the shared-character case *)
    clear Hmove Hmove'.
    destruct (Hins ki eq_refl) as (Hki & Hkij & ti & Hti & Htine).
    destruct (Hdel kd eq_refl) as (Hkd & Hkdj & td & Htd & Htdne).
    destruct ti as [|ci ri]; [done|]. destruct td as [|cd rd]; [done|].
    unfold pull_char. cbn [opposite].
    rewrite (text_at_lookup _ _ _ _ Hti), (text_at_lookup _ _ _ _ Htd).
    rewrite !splitChar_backward_cons.
    pose proof (tail_after_pop diffs i ki INSERT ci ri Hki Hti) as Ht1.
    pose proof (set_text_length diffs ki ri) as Hl1.
    set (L1 := set_text diffs ki ri) in *.
    assert (L1 !! kd = Some (DELETE, cd :: rd)) as Htd1.
    { unfold L1. rewrite set_text_lookup_ne; [done|]. by eapply Hne. }
    pose proof (tail_after_pop L1 i kd DELETE cd rd Hkd Htd1) as Ht2.
    pose proof (set_text_length L1 kd rd) as Hl2.
    assert (set_text L1 kd rd !! i = Some (EQUAL, rest ++ [c])) as Hi2.
    { unfold L1. rewrite !set_text_lookup_ne by lia. done. }
    set (L2 := set_text L1 kd rd) in *.
    rewrite (text_at_lookup _ _ _ _ Hi2). cbn [combineChar text_of].
    exists ((rest ++ [c]) ++ [ci]). split; [|split].
    + by apply (set_text_lookup_eq _ _ _ (rest ++ [c])).
    + rewrite set_text_length. lia.
    + right. rewrite set_text_length, tail_after_set_text_le by lia.
      rewrite !length_app. cbn [length].
      assert (ki < length diffs)%nat by (by eapply lookup_lt_Some).
      repeat split; lia.
Qed.

(** *** The backward repair *)

(** An insertion at [j], the final index of a backward search from [i]:
    either it lands after [i] and adds its entry to the tail, or it lands
    at or before [i] and pushes entry [i] into the tail. *)
Lemma tail_after_splice_backward (diffs : list Diff) i (j : Z) d op (t : jsstring) :
  diffs !! i = Some (op, t) -> -1 <= j < Z.of_nat i ->
  (i < splice_pos diffs j)%nat
  /\ j = -1 /\ (S i < length diffs)%nat
  /\ tail_after i (splice_insert diffs j d) = (tail_after i diffs + weight d)%nat
  \/ (splice_pos diffs j <= i)%nat
     /\ (0 <= j \/ length diffs = S i)
     /\ tail_after i (splice_insert diffs j d) = (weight (op, t) + tail_after i diffs)%nat.
Proof.
  intros Hi Hj.
  assert (i < length diffs)%nat as Hlt by (by eapply lookup_lt_Some).
  destruct (decide (i < splice_pos diffs j)%nat) as [Hp|Hp].
  - left. split; [done|].
    assert (j = -1) as ->.
    { destruct (decide (0 <= j)) as [H0|H0]; [|lia].
      rewrite splice_pos_inside in Hp by lia. lia. }
    rewrite splice_pos_minus_one in Hp.
    repeat split; [lia|]. apply tail_after_splice_after. by rewrite splice_pos_minus_one.
  - right. split; [lia|]. split.
    + destruct (decide (0 <= j)) as [H0|H0]; [by left|right].
      assert (j = -1) as -> by lia. rewrite splice_pos_minus_one in Hp. lia.
    + rewrite tail_after_splice_shift by lia. by apply total_drop_lookup.
Qed.

(** What [deisolateChar(diffs, i, -1)] does to the tail after an EQUAL
    entry [i] with a text [E] that is not empty: the tail grows by at most
    four, or the entry, one unit shorter, moves into it, along with one
    new entry when it was the last of the array. *)
Lemma deisolate_backward (diffs : list Diff) i (E : jsstring) :
  diffs !! i = Some (EQUAL, E) -> E <> [] ->
  (tail_after i (deisolateChar diffs i Backward)
   <= tail_after i diffs
      + Nat.max 4 (4 * length E - 3
                   + (if bool_decide (length diffs = S i) then 2 else 0)))%nat.
Proof.
  intros Hi HE.
  assert (i < length diffs)%nat as Hlt by (by eapply lookup_lt_Some).
  destruct E as [|c rest]; [done|]. clear HE.
  unfold deisolateChar.
  pose proof (scan_backward diffs i (indices_ahead diffs i Backward)
                (Z.of_nat i + step Backward) None None) as Hscan.
  cbn [indices_ahead step] in Hscan |- *.
  specialize (Hscan ltac:(lia) ltac:(lia) ltac:(lia) ltac:(done) ltac:(done)).
  rewrite (text_at_lookup _ _ _ _ Hi).
  destruct (scan diffs Backward i (Z.of_nat i + -1) None None) as [j|j ins del].
  { rewrite splitChar_backward_cons. rewrite !tail_after_set_text_le by lia. lia. }
  destruct Hscan as (Hj & Hins & Hdel & Hnone).
  assert (tail_after i (move_char diffs i Backward j ins del)
          <= tail_after i diffs
             + Nat.max 4 (4 * length (c :: rest) - 3
                          + (if bool_decide (length diffs = S i) then 2 else 0)))%nat
    as Hmove.
  { unfold move_char. rewrite (text_at_lookup _ _ _ _ Hi), splitChar_backward_cons.
    cbn [opposite combineChar text_of length].
    pose proof (set_text_lookup_eq diffs i EQUAL (c :: rest) rest Hi) as Hi0.
    pose proof (tail_after_set_text_le diffs i i rest ltac:(lia)) as Ht0.
    pose proof (set_text_length diffs i rest) as Hl0.
    set (L0 := set_text diffs i rest) in *.
    assert (weight (EQUAL, rest) = 4 * S (length rest) - 3)%nat as Hw.
    { unfold weight. cbn [fst snd]. change (EQUAL =? EQUAL) with true. cbn match. lia. }
    destruct ins as [ki|].
    - pose proof (Hins ki eq_refl) as Hki.
      pose proof (tail_after_set_text_le L0 i ki (text_at L0 ki ++ [c]) ltac:(lia)) as Ht1.
      pose proof (set_text_length L0 ki (text_at L0 ki ++ [c])) as Hl1.
      assert (set_text L0 ki (text_at L0 ki ++ [c]) !! i = Some (EQUAL, rest)) as Hi1
          by (rewrite set_text_lookup_ne by lia; done).
      set (L1 := set_text L0 ki (text_at L0 ki ++ [c])) in *.
      destruct del as [kd|].
      + pose proof (Hdel kd eq_refl) as Hkd.
        rewrite tail_after_set_text_le by lia. lia.
      + destruct (tail_after_splice_backward L1 i j (DELETE, [c]) EQUAL rest Hi1 Hj)
          as [(_ & _ & _ & ->)|(_ & _ & ->)].
        * change (weight (DELETE, [c])) with 2%nat. lia.
        * case_bool_decide; lia.
    - pose proof (splice_insert_length L0 j (INSERT, [c])) as Hl1.
      destruct del as [kd|].
      + pose proof (Hdel kd eq_refl) as Hkd. cbn [fmap option_fmap option_map].
        rewrite tail_after_set_text_le by (destruct (j <=? Z.of_nat kd); lia).
        destruct (tail_after_splice_backward L0 i j (INSERT, [c]) EQUAL rest Hi0 Hj)
          as [(_ & _ & _ & ->)|(_ & _ & ->)].
        * change (weight (INSERT, [c])) with 2%nat. lia.
        * case_bool_decide; lia.
      + cbn [fmap option_fmap option_map].
        assert (j = -1) as -> by (by apply Hnone).
        destruct (tail_after_splice_backward L0 i (-1) (INSERT, [c]) EQUAL rest Hi0 Hj)
          as [(Hp & _ & Hlen & Ht1)|(Hp & Hlen & Ht1)].
        * rewrite tail_after_splice_after
            by (rewrite splice_pos_minus_one, splice_insert_length; lia).
          rewrite Ht1. change (weight (INSERT, [c])) with 2%nat.
          change (weight (DELETE, [c])) with 2%nat. lia.
        * destruct Hlen as [?|Hlen]; [lia|].
          rewrite tail_after_splice_after
            by (rewrite splice_pos_minus_one, splice_insert_length; lia).
          rewrite Ht1. change (weight (DELETE, [c])) with 2%nat.
          rewrite bool_decide_eq_true_2 by lia. lia. }
  destruct ins as [ki|]; [|exact Hmove].
  destruct del as [kd|]; [|exact Hmove].
  destruct (hasSharedChar diffs ki kd Backward); [|exact Hmove].
  pose proof (Hins ki eq_refl). pose proof (Hdel kd eq_refl).
  unfold pull_char.
  destruct (splitChar (text_at diffs ki) (opposite Backward)) as [insertText insertChar].
  destruct (splitChar (text_at diffs kd) (opposite Backward)) as [deleteText deleteChar].
  rewrite !tail_after_set_text_le by lia. lia.
Qed.

(** *** One turn of the loop *)

Lemma surrogate_kinds_disjoint c :
  isHighSurrogate c = true -> isLowSurrogate c = true -> False.
Proof. destruct c as [c|]; [|done]. cbn. lia. Qed.

Lemma weight_pos (d : Diff) : (1 <= weight d)%nat.
Proof. unfold weight. lia. Qed.

(** Each turn takes weight off the part of the array that is still to be
    visited. *)
Lemma repair_at_decreases (diffs : list Diff) i :
  (i < length diffs)%nat ->
  (tail_after i (repair_at diffs i) < total (drop i diffs))%nat.
Proof.
  intros Hlt. destruct (lookup_lt_is_Some_2 diffs i Hlt) as [[op E] Hi].
  rewrite (total_drop_lookup diffs i _ Hi). pose proof (weight_pos (op, E)) as Hpos.
  unfold repair_at. rewrite Hi.
  destruct (strlen E =? 0) eqn:Hlen; [lia|].
  apply strlen_zero in Hlen.
  assert (1 <= length E)%nat as Hlen1 by (destruct E; [done|cbn; lia]).
  assert (op = EQUAL -> weight (op, E) = S (4 * length E)) as Hw.
  { intros ->. unfold weight. cbn [fst snd]. by change (EQUAL =? EQUAL) with true. }
  destruct (isHighSurrogate (charAt E (strlen E - 1)) && (op =? EQUAL)) eqn:Hfwd.
  - apply andb_true_iff in Hfwd as [Hhigh Hop]. apply Z.eqb_eq in Hop. subst op.
    rewrite Hw by done.
    destruct (deisolate_forward diffs i E Hi Hlen) as (E1 & Hi1 & Hl1 & Hcases).
    destruct (isLowSurrogate (charAt E 0) && (EQUAL =? EQUAL)) eqn:Hbwd.
    + apply andb_true_iff in Hbwd as [Hlow _].
      assert (2 <= length E)%nat as Hlen2.
      { destruct E as [|c [|c2 E']]; [done| |cbn; lia].
        exfalso. by apply (surrogate_kinds_disjoint (Some c)). }
      assert (E1 <> []) as HE1.
      { intros ->. cbn [length] in Hcases. lia. }
      pose proof (deisolate_backward _ i E1 Hi1 HE1) as Hb.
      destruct Hcases as [(HlenE & Ht)|(HlenE & Ht & Hlast)].
      * case_bool_decide; lia.
      * rewrite bool_decide_eq_false_2 in Hb by lia. lia.
    + destruct Hcases as [(HlenE & Ht)|(HlenE & Ht & Hlast)]; lia.
  - destruct (isLowSurrogate (charAt E 0) && (op =? EQUAL)) eqn:Hbwd; [|lia].
    apply andb_true_iff in Hbwd as [Hlow Hop]. apply Z.eqb_eq in Hop. subst op.
    rewrite Hw by done.
    pose proof (deisolate_backward _ i E Hi Hlen) as Hb.
    case_bool_decide; lia.
Qed.

(** *** The loops return *)

(** With fuel for the weight still to be visited the repair loop returns,
    and the array it returns is no longer than that weight allows. *)
Lemma repair_loop_returns fuel (diffs : list Diff) i :
  (total (drop i diffs) <= fuel)%nat ->
  exists repaired,
    repair_loop fuel diffs i = Some repaired
    /\ (length repaired <= i + total (drop i diffs))%nat.
Proof.
  revert diffs i. induction fuel as [|fuel IH]; intros diffs i Hfuel.
  - destruct (decide (i < length diffs)%nat) as [Hlt|Hge].
    + destruct (lookup_lt_is_Some_2 diffs i Hlt) as [d Hd].
      rewrite (total_drop_lookup diffs i d Hd) in Hfuel. pose proof (weight_pos d). lia.
    + exists diffs. rewrite repair_loop_done by lia. split; [done|lia].
  - destruct (decide (i < length diffs)%nat) as [Hlt|Hge].
    + rewrite repair_loop_step by done.
      pose proof (repair_at_decreases diffs i Hlt) as Hdec. unfold tail_after in Hdec.
      destruct (IH (repair_at diffs i) (S i) ltac:(lia)) as (repaired & Hr & Hl).
      exists repaired. split; [done|lia].
    + exists diffs. rewrite repair_loop_done by lia. split; [done|lia].
Qed.

(** The fuel that is always enough for [adjustDiffForSurrogatePairs]. *)
Definition repair_budget (diffs : list Diff) : nat := total diffs.

Lemma adjust_returns fuel (diffs : list Diff) :
  (repair_budget diffs <= fuel)%nat ->
  is_Some (adjustDiffForSurrogatePairs fuel diffs).
Proof.
  intros Hfuel. unfold adjustDiffForSurrogatePairs, repair_budget in *.
  destruct (repair_loop_returns fuel diffs 0) as (repaired & -> & Hlen);
    [by rewrite drop_0|].
  rewrite drop_0 in Hlen. cbn [mbind option_bind].
  apply sweep_loop_returns. lia.
Qed.

(** ** [diff] fails on null input only *)

(** C4: [diff] throws its input error exactly when one of the two texts is
    null; on two strings it returns an edit script, the repair loop always
    coming to an end.  (The imports are taken to return.) *)
Theorem diff_throws_on_null_only
    (commonPrefix commonSuffix : jsstring -> jsstring -> Z)
    (compute_ : jsstring -> jsstring -> InternalDiffOptions -> list Diff)
    (cleanupMerge : list Diff -> list Diff)
    (now : Q) (textA textB : option jsstring) (opts : option DiffOptions) :
  exists budget result,
    (forall fuel, (budget <= fuel)%nat ->
       diff commonPrefix commonSuffix compute_ cleanupMerge fuel now textA textB opts
       = Some result)
    /\ (result = Throws NullInput <-> textA = None \/ textB = None)
    /\ (is_Some textA -> is_Some textB -> exists script, result = Returns script).
Proof.
  destruct textA as [a|], textB as [b|].
  - set (opts' := default {| opt_checkLines := None; opt_timeout := None |} opts).
    set (script0 := _diff commonPrefix commonSuffix compute_ cleanupMerge a b
                      (createInternalOpts now opts')).
    destruct (adjust_returns (repair_budget script0) script0 ltac:(lia)) as [script Hs].
    exists (repair_budget script0), (Returns script). split; [|split].
    + intros fuel Hfuel. unfold diff. fold opts'. fold script0.
      by rewrite (adjust_more_fuel _ fuel _ _ Hfuel Hs).
    + split; [done|]. by intros [?|?].
    + eauto.
  - exists 0%nat, (Throws NullInput). split; [done|]. split.
    + split; [by right|done].
    + by intros _ [? ?].
  - exists 0%nat, (Throws NullInput). split; [done|]. split.
    + split; [by left|done].
    + by intros [? ?].
  - exists 0%nat, (Throws NullInput). split; [done|]. split.
    + split; [by left|done].
    + by intros [? ?].
Qed.

(** ** Surrogate pairs stay together *)

(** *** Pairing, one code unit at a time *)

Arguments isHighSurrogate : simpl never.
Arguments isLowSurrogate : simpl never.

(** Reads [t] knowing whether the unit before it was a high surrogate that
    still waits for its partner; tells whether the last unit of [t] does.
    [None] when a surrogate has no partner inside. *)
Fixpoint units (open : bool) (t : jsstring) : option bool :=
  match t with
  | [] => Some open
  | c :: t =>
      if isHighSurrogate (Some c) then (if open then None else units true t)
      else if isLowSurrogate (Some c) then (if open then units false t else None)
      else (if open then None else units false t)
  end.

Lemma units_app open (s t : jsstring) :
  units open (s ++ t) = units open s ≫= fun open' => units open' t.
Proof.
  revert open. induction s as [|c s IH]; intros open; [done|].
  cbn [app units].
  destruct (isHighSurrogate (Some c)), (isLowSurrogate (Some c)), open; by rewrite ?IH.
Qed.

Lemma paired_units (t : jsstring) : paired t = true <-> units false t = Some false.
Proof.
  induction t as [t IH] using list_induction_by_length.
  destruct t as [|c rest]; [done|]. cbn [paired units].
  destruct (isHighSurrogate (Some c)) eqn:Hh.
  - destruct rest as [|d rest']; [done|]. cbn [units].
    destruct (isHighSurrogate (Some d)) eqn:Hd.
    + assert (isLowSurrogate (Some d) = false) as ->; [|done].
      destruct (isLowSurrogate (Some d)) eqn:Hl; [|done].
      exfalso. by apply (surrogate_kinds_disjoint (Some d)).
    + destruct (isLowSurrogate (Some d)); cbn [andb]; [|done].
      apply IH. cbn. lia.
  - destruct (isLowSurrogate (Some c)); cbn [negb andb]; [done|].
    apply IH. cbn. lia.
Qed.

Lemma units_snoc_high open (t : jsstring) (h : char) open' :
  isHighSurrogate (Some h) = true ->
  units open (t ++ [h]) = Some open' -> open' = true /\ units open t = Some false.
Proof.
  intros Hh. rewrite units_app. destruct (units open t) as [[|]|]; cbn; rewrite ?Hh; try done.
  by intros [= <-].
Qed.

Lemma units_snoc_low open (t : jsstring) (l : char) :
  isLowSurrogate (Some l) = true ->
  units open t = Some true -> units open (t ++ [l]) = Some false.
Proof.
  intros Hl Ht. rewrite units_app, Ht. cbn. rewrite Hl.
  destruct (isHighSurrogate (Some l)) eqn:Hh; [|done].
  exfalso. by apply (surrogate_kinds_disjoint (Some l)).
Qed.

Lemma units_cons_low open (l : char) (t : jsstring) open' :
  isLowSurrogate (Some l) = true ->
  units open (l :: t) = Some open' -> open = true /\ units false t = Some open'.
Proof.
  intros Hl. cbn [units]. rewrite Hl.
  destruct (isHighSurrogate (Some l)) eqn:Hh.
  { exfalso. by apply (surrogate_kinds_disjoint (Some l)). }
  by destruct open.
Qed.

Lemma units_cons_high (h : char) (t : jsstring) :
  isHighSurrogate (Some h) = true -> units false (h :: t) = units true t.
Proof. intros Hh. cbn [units]. by rewrite Hh. Qed.

Lemma units_open_first (c : char) (t : jsstring) open' :
  units true (c :: t) = Some open' -> isLowSurrogate (Some c) = true.
Proof. cbn [units]. by destruct (isHighSurrogate (Some c)), (isLowSurrogate (Some c)). Qed.

Lemma units_closed_first (c : char) (t : jsstring) open' :
  units false (c :: t) = Some open' -> isLowSurrogate (Some c) = false.
Proof.
  cbn [units]. destruct (isHighSurrogate (Some c)) eqn:Hh, (isLowSurrogate (Some c)) eqn:Hl;
    try done.
  exfalso. by apply (surrogate_kinds_disjoint (Some c)).
Qed.

Lemma units_last open (t : jsstring) (c : char) open' :
  units open (t ++ [c]) = Some open' -> open' = isHighSurrogate (Some c).
Proof.
  rewrite units_app. destruct (units open t) as [o|]; [|done]. cbn.
  destruct (isHighSurrogate (Some c)), (isLowSurrogate (Some c)), o; congruence.
Qed.

(** A text read from a closed state to a closed state has closed ends. *)
Lemma units_closed_ends (t : jsstring) : units false t = Some false -> closed_ends t = true.
Proof.
  intros Ht. unfold closed_ends. apply andb_true_iff. split; apply negb_true_iff.
  - destruct t as [|c t]; [done|]. cbn [charAt]. change (0 <? 0) with false. cbn.
    by eapply units_closed_first.
  - destruct (snoc_or_nil t) as [->|(t0 & c & ->)]; [done|].
    pose proof (splitChar_forward_snoc t0 c) as Hs. unfold splitChar in Hs.
    injection Hs as _ ->. symmetry. by eapply units_last.
Qed.

(** *** One side of the script *)

(** The entries that make up one reconstruction: with [k = DELETE] the
    source text, with [k = INSERT] the destination text.  Entries with an
    empty text are left out; an entry is kept with a flag telling whether
    it is an EQUAL entry. *)
Definition entry_view (k : Z) (d : Diff) : list (bool * jsstring) :=
  if negb (is_empty d) && ((d.1 =? EQUAL) || (d.1 =? k)) then [(d.1 =? EQUAL, d.2)] else [].

Definition view (k : Z) (diffs : list Diff) : list (bool * jsstring) :=
  diffs ≫= entry_view k.

Lemma view_app k (diffs1 diffs2 : list Diff) :
  view k (diffs1 ++ diffs2) = view k diffs1 ++ view k diffs2.
Proof. unfold view. apply bind_app. Qed.

Lemma view_cons k (d : Diff) (diffs : list Diff) :
  view k (d :: diffs) = entry_view k d ++ view k diffs.
Proof. done. Qed.

(** An entry of the view, unless its text is empty. *)
Definition ne (equal : bool) (t : jsstring) : list (bool * jsstring) :=
  if bool_decide (t = []) then [] else [(equal, t)].

Lemma is_empty_spec (op : Z) (t : jsstring) : is_empty (op, t) = bool_decide (t = []).
Proof.
  unfold is_empty, strlen. cbn [snd]. case_bool_decide as Ht.
  - by subst.
  - apply Z.eqb_neq. destruct t; [done|]. cbn [length]. lia.
Qed.

Lemma entry_view_equal k (t : jsstring) : entry_view k (EQUAL, t) = ne true t.
Proof.
  unfold entry_view, ne. rewrite is_empty_spec. cbn [fst snd].
  change (EQUAL =? EQUAL) with true. by case_bool_decide.
Qed.

Lemma entry_view_own k (t : jsstring) : k <> EQUAL -> entry_view k (k, t) = ne false t.
Proof.
  intros Hk. unfold entry_view, ne. rewrite is_empty_spec. cbn [fst snd].
  rewrite Z.eqb_refl, orb_true_r. apply Z.eqb_neq in Hk. rewrite Hk. by case_bool_decide.
Qed.

Lemma entry_view_other k op (t : jsstring) :
  op <> EQUAL -> op <> k -> entry_view k (op, t) = [].
Proof.
  intros H1 H2. unfold entry_view. cbn [fst snd].
  apply Z.eqb_neq in H1, H2. rewrite H1, H2. by rewrite andb_false_r.
Qed.

(** *** Boundaries the loop still has to repair *)

(** The state between two entries of a side: [Closed], or [Open] when the
    text so far ends with a high surrogate that waits for its partner; the
    flag tells whether that high surrogate is in an EQUAL entry the loop
    has not visited yet. *)
Inductive boundary := Closed | Open (by_pending : bool).

Definition is_open (st : boundary) : bool :=
  match st with Closed => false | Open _ => true end.

(** One entry.  [pending] tells whether the EQUAL entries read are still to
    be visited.  A pair may be split only at the end of an EQUAL entry that
    is still to be visited, or between an edit and such an entry. *)
Definition stepv (pending : bool) (st : boundary) (e : bool * jsstring) : option boundary :=
  match units (is_open st) e.2 with
  | None => None
  | Some open' =>
      if (open' && e.1 && negb pending)
         || (match st with Open false => negb (e.1 && pending) | _ => false end)
      then None
      else Some (if open' then Open (e.1 && pending) else Closed)
  end.

Fixpoint runv (pending : bool) (st : boundary) (v : list (bool * jsstring)) : option boundary :=
  match v with
  | [] => Some st
  | e :: v => stepv pending st e ≫= fun st' => runv pending st' v
  end.

Lemma runv_app pending st (v1 v2 : list (bool * jsstring)) :
  runv pending st (v1 ++ v2) = runv pending st v1 ≫= fun st' => runv pending st' v2.
Proof.
  revert st. induction v1 as [|e v1 IH]; intros st; [done|].
  cbn [app runv]. destruct (stepv pending st e); [apply IH|done].
Qed.

(** The side [k] of the script is in order when the loop is at index [i]. *)
Definition good (k : Z) (i : nat) (diffs : list Diff) : Prop :=
  exists st,
    runv false Closed (view k (take i diffs)) = Some st
    /\ runv true st (view k (drop i diffs)) = Some Closed.

(** *** The forward repair, on one side *)

(** How the forward repair of an EQUAL entry that ends with [h] changes the
    side after the entry when it moves [h] out: [h] goes to the front of
    the next entry of the side, or becomes an entry of its own in front of
    the next EQUAL entry. *)
Definition pushed (h : char) (vs vs' : list (bool * jsstring)) : Prop :=
  (exists b X vs2, vs = (b, X) :: vs2 /\ vs' = (b, h :: X) :: vs2)
  \/ (vs' = (false, [h]) :: vs /\ (vs = [] \/ exists W vs2, vs = (true, W) :: vs2)).

Lemma stepv_pending_equal st (t : jsstring) open' :
  units (is_open st) t = Some open' ->
  stepv true st (true, t) = Some (if open' then Open true else Closed).
Proof. intros Ht. unfold stepv. cbn [fst snd]. rewrite Ht. by destruct open', st as [|[|]]. Qed.

Lemma stepv_edit pending st (t : jsstring) :
  st <> Open false ->
  stepv pending st (false, t)
  = (fun open' : bool => if open' then Open false else Closed) <$> units (is_open st) t.
Proof.
  intros Hst. unfold stepv. cbn [fst snd].
  destruct (units (is_open st) t) as [[|]|]; by destruct st as [|[|]].
Qed.

Lemma stepv_done_equal st (t : jsstring) :
  st <> Open false -> units (is_open st) t = Some false ->
  stepv false st (true, t) = Some Closed.
Proof.
  intros Hst Ht. unfold stepv. cbn [fst snd]. rewrite Ht. by destruct st as [|[|]].
Qed.

Lemma stepv_units pending st e st' :
  stepv pending st e = Some st' -> exists open', units (is_open st) e.2 = Some open'.
Proof. unfold stepv. destruct (units (is_open st) e.2) as [o|]; [eauto|done]. Qed.

(** The entry without its last unit, when that unit is a high surrogate. *)
Lemma runv_drop_last_high st (E0 : jsstring) (h : char) vs :
  isHighSurrogate (Some h) = true ->
  runv true st ((true, E0 ++ [h]) :: vs) = Some Closed ->
  units (is_open st) E0 = Some false /\ runv true (Open true) vs = Some Closed.
Proof.
  intros Hh. cbn [runv].
  destruct (stepv true st (true, E0 ++ [h])) as [st'|] eqn:Hstep; [|done].
  destruct (stepv_units _ _ _ _ Hstep) as [open' Hu]. cbn [snd] in Hu.
  destruct (units_snoc_high _ _ _ _ Hh Hu) as [-> Hu0].
  rewrite (stepv_pending_equal st _ true Hu) in Hstep. injection Hstep as <-.
  cbn [mbind option_bind]. done.
Qed.

Lemma forward_pushed st (E0 : jsstring) (h : char) vs vs' :
  isHighSurrogate (Some h) = true ->
  runv true st ((true, E0 ++ [h]) :: vs) = Some Closed ->
  pushed h vs vs' ->
  units (is_open st) E0 = Some false /\ runv true Closed vs' = Some Closed.
Proof.
  intros Hh Hrun Hp.
  destruct (runv_drop_last_high st E0 h vs Hh Hrun) as (HE0 & Hvs). split; [done|].
  destruct Hp as [(b & X & vs2 & -> & ->)|(-> & [->|(W & vs2 & ->)])].
  - cbn [runv] in Hvs |- *. unfold stepv in Hvs |- *. cbn [fst snd is_open] in Hvs |- *.
    rewrite (units_cons_high h X Hh).
    destruct (units true X) as [o|]; [|done]. exact Hvs.
  - done.
  - cbn [runv] in Hvs |- *. unfold stepv in Hvs |- *. cbn [fst snd is_open] in Hvs |- *.
    rewrite (units_cons_high h [] Hh).
    cbn [units negb andb orb mbind option_bind is_open].
    destruct (units true W) as [o|]; [|done]. by destruct o.
Qed.

(** After an EQUAL entry that ends with a high surrogate, an edit starts
    with a low one. *)
Lemma pending_high_then_low st (E : jsstring) (h x : char) (X0 : jsstring) vs2 :
  isHighSurrogate (Some h) = true ->
  runv true st ((true, E ++ [h]) :: (false, x :: X0) :: vs2) = Some Closed ->
  isLowSurrogate (Some x) = true.
Proof.
  intros Hh Hrun. destruct (runv_drop_last_high st E h _ Hh Hrun) as (_ & Hvs).
  cbn [runv] in Hvs.
  destruct (stepv true (Open true) (false, x :: X0)) as [st'|] eqn:Hstep; [|done].
  destruct (stepv_units _ _ _ _ Hstep) as [open' Hu]. by eapply units_open_first.
Qed.

(** The shared-character case: the entry gains the low surrogate [y], the
    next entry of the side loses its first unit. *)
Lemma forward_pulled st (E : jsstring) (h y x : char) (X0 : jsstring) vs2 :
  isHighSurrogate (Some h) = true -> isLowSurrogate (Some y) = true ->
  runv true st ((true, E ++ [h]) :: (false, x :: X0) :: vs2) = Some Closed ->
  units (is_open st) ((E ++ [h]) ++ [y]) = Some false
  /\ runv true Closed (ne false X0 ++ vs2) = Some Closed.
Proof.
  intros Hh Hy Hrun.
  pose proof (pending_high_then_low _ _ _ _ _ _ Hh Hrun) as Hx.
  revert Hrun. cbn [runv].
  destruct (stepv true st (true, E ++ [h])) as [st'|] eqn:Hstep; [|done].
  destruct (stepv_units _ _ _ _ Hstep) as [open' Hu]. cbn [snd] in Hu.
  destruct (units_snoc_high _ _ _ _ Hh Hu) as [-> Hu0].
  rewrite (stepv_pending_equal st _ true Hu) in Hstep. injection Hstep as <-.
  cbn [mbind option_bind]. rewrite stepv_edit by done. cbn [is_open].
  destruct (units true (x :: X0)) as [o|] eqn:HxX; [|done].
  destruct (units_cons_low true x X0 o Hx HxX) as [_ HX0].
  cbn [fmap option_fmap option_map mbind option_bind]. intros Hrun.
  split; [by apply units_snoc_low|].
  unfold ne. case_bool_decide as HX.
  - subst X0. cbn in HX0. injection HX0 as <-. done.
  - cbn [app runv]. rewrite stepv_edit by done. cbn [is_open]. rewrite HX0. done.
Qed.

(** *** Pieces of the script *)

(** The entries from index [lo] up to, not including, index [hi]. *)
Definition between (lo hi : nat) (diffs : list Diff) : list Diff := drop lo (take hi diffs).

Lemma between_snoc lo hi (diffs : list Diff) d :
  (lo <= hi)%nat -> diffs !! hi = Some d ->
  between lo (S hi) diffs = between lo hi diffs ++ [d].
Proof.
  intros Hle Hd. unfold between. rewrite (take_S_r _ _ _ Hd).
  rewrite drop_app_le; [done|]. rewrite length_take. apply lookup_lt_Some in Hd. lia.
Qed.

Lemma between_cons lo hi (diffs : list Diff) d :
  (lo < hi)%nat -> diffs !! lo = Some d ->
  between lo hi diffs = d :: between (S lo) hi diffs.
Proof.
  intros Hlt Hd. unfold between. apply drop_S. by rewrite lookup_take_lt.
Qed.

Lemma between_nil lo (diffs : list Diff) : between lo lo diffs = [].
Proof. unfold between. apply drop_ge. rewrite length_take. lia. Qed.

Lemma drop_between lo hi (diffs : list Diff) :
  (lo <= hi)%nat -> drop lo diffs = between lo hi diffs ++ drop hi diffs.
Proof. intros. symmetry. by apply drop_take_drop. Qed.

Lemma take_between lo hi (diffs : list Diff) :
  (lo <= hi)%nat -> take hi diffs = take lo diffs ++ between lo hi diffs.
Proof.
  intros. unfold between. rewrite <- (take_drop lo (take hi diffs)) at 1.
  rewrite take_take. by replace (lo `min` hi)%nat with lo by lia.
Qed.

Lemma view_single k (d : Diff) : view k [d] = entry_view k d.
Proof. unfold view. cbn. apply app_nil_r. Qed.

(** An entry that is not empty, of the kind of the side or of another
    kind. *)
Lemma entry_view_edit k (t : jsstring) :
  k <> EQUAL -> t <> [] -> entry_view k (k, t) = [(false, t)].
Proof. intros Hk Ht. rewrite entry_view_own by done. unfold ne. by case_bool_decide. Qed.

Lemma entry_view_kept k (t : jsstring) : t <> [] -> entry_view k (EQUAL, t) = [(true, t)].
Proof. intros Ht. rewrite entry_view_equal. unfold ne. by case_bool_decide. Qed.

(** *** What the search loop finds, side by side *)

(** Searching forward from [lo], with the loop at [j]: the entry found for
    the side [k] is the first one of the side, and while none is found
    the side has no entry up to [j]. *)
Definition found_ahead (diffs : list Diff) (k : Z) (lo : nat) (j : Z)
    (found : option nat) : Prop :=
  match found with
  | Some a =>
      (lo <= a)%nat /\ Z.of_nat a < j /\ edit_at diffs k a
      /\ view k (between lo a diffs) = []
  | None => view k (between lo (Z.to_nat j) diffs) = []
  end.

Lemma found_ahead_skip (diffs : list Diff) k lo j found d :
  Z.of_nat lo <= j -> diffs !! Z.to_nat j = Some d ->
  (found = None -> entry_view k d = []) ->
  found_ahead diffs k lo j found -> found_ahead diffs k lo (j + 1) found.
Proof.
  intros Hlo Hd Hquiet. destruct found as [a|]; cbn [found_ahead].
  - intros (? & ? & ? & ?). repeat split; [done|lia|done|done].
  - intros Hv. replace (Z.to_nat (j + 1)) with (S (Z.to_nat j)) by lia.
    rewrite (between_snoc _ _ _ d) by (done || lia).
    rewrite view_app, Hv, view_single. by apply Hquiet.
Qed.

Lemma found_ahead_new (diffs : list Diff) k lo j found (t : jsstring) :
  Z.of_nat lo <= j -> diffs !! Z.to_nat j = Some (k, t) -> t <> [] ->
  found_ahead diffs k lo j found ->
  found_ahead diffs k lo (j + 1) (if found is None then Some (Z.to_nat j) else found).
Proof.
  intros Hlo Hd Ht. destruct found as [a|]; cbn [found_ahead].
  - intros (? & ? & ? & ?). repeat split; [done|lia|done|done].
  - intros Hv. repeat split; [lia|lia| |done]. by exists t.
Qed.

Lemma scan_forward_finds (diffs : list Diff) lo ahead j ins del :
  j + Z.of_nat ahead = Z.of_nat (length diffs) -> Z.of_nat lo <= j ->
  found_ahead diffs INSERT lo j ins -> found_ahead diffs DELETE lo j del ->
  match scan diffs Forward ahead j ins del with
  | Adjacent j' =>
      (lo <= j')%nat /\ edit_at diffs EQUAL j'
      /\ view INSERT (between lo j' diffs) = []
      /\ view DELETE (between lo j' diffs) = []
  | Stopped j' ins' del' =>
      Z.of_nat lo <= j' <= Z.of_nat (length diffs)
      /\ found_ahead diffs INSERT lo j' ins'
      /\ found_ahead diffs DELETE lo j' del'
      /\ (ins' = None \/ del' = None ->
          j' = Z.of_nat (length diffs) \/ edit_at diffs EQUAL (Z.to_nat j'))
  end.
Proof.
  revert j ins del. induction ahead as [|ahead IH]; intros j ins del Hj Hlo Hins Hdel.
  { cbn [scan]. split; [lia|]. split; [done|]. split; [done|]. intros _. left. lia. }
  cbn [scan].
  destruct (bool_decide (is_Some ins) && bool_decide (is_Some del)) eqn:Hboth.
  { apply andb_true_iff in Hboth as [Hi Hd]. apply bool_decide_eq_true in Hi, Hd.
    destruct Hi as [a ->], Hd as [b ->].
    split; [lia|]. split; [done|]. split; [done|]. by intros [|]. }
  destruct (diffs !! Z.to_nat j) as [[op text]|] eqn:Hlook.
  2:{ apply lookup_ge_None in Hlook. lia. }
  cbn [step].
  destruct (strlen text =? 0) eqn:Hlen.
  { apply Z.eqb_eq in Hlen. unfold strlen in Hlen.
    assert (text = []) as -> by (destruct text; [done|cbn [length] in Hlen; lia]).
    apply IH; [lia|lia| |]; eapply found_ahead_skip; done. }
  apply strlen_zero in Hlen.
  destruct (Z.eqb_spec op INSERT) as [->|Hop].
  { apply IH; [lia|lia| |].
    - by eapply found_ahead_new.
    - eapply found_ahead_skip; [done|done| |done]. intros _. by apply entry_view_other. }
  destruct (Z.eqb_spec op DELETE) as [->|Hop'].
  { apply IH; [lia|lia| |].
    - eapply found_ahead_skip; [done|done| |done]. intros _. by apply entry_view_other.
    - by eapply found_ahead_new. }
  destruct (Z.eqb_spec op EQUAL) as [->|Hop''].
  - assert (edit_at diffs EQUAL (Z.to_nat j)) as Heq by (by exists text).
    destruct ins as [a|].
    { split; [lia|]. split; [done|]. split; [done|]. intros _. by right. }
    destruct del as [b|].
    { split; [lia|]. split; [done|]. split; [done|]. intros _. by right. }
    split; [lia|]. by split.
  - apply IH; [lia|lia| |]; (eapply found_ahead_skip; [done|done| |done]);
      intros _; by apply entry_view_other.
Qed.

(** *** Updates and insertions, piece by piece *)

Lemma set_text_split (diffs : list Diff) a op (t0 t : jsstring) :
  diffs !! a = Some (op, t0) ->
  set_text diffs a t = take a diffs ++ (op, t) :: drop (S a) diffs.
Proof.
  revert a. induction diffs as [|d diffs IH]; intros a Ha; [done|].
  destruct a as [|a]; cbn in Ha.
  - injection Ha as ->. done.
  - unfold set_text in *. cbn [alter list_alter take drop app]. f_equal. by apply IH.
Qed.

Lemma take_set_text (diffs : list Diff) n a t :
  (n <= a)%nat -> take n (set_text diffs a t) = take n diffs.
Proof. intros. unfold set_text. by apply take_alter_ge. Qed.

Lemma drop_set_text (diffs : list Diff) n a t :
  (a < n)%nat -> drop n (set_text diffs a t) = drop n diffs.
Proof. intros. unfold set_text. by apply drop_alter_lt. Qed.

Lemma take_splice_insert (diffs : list Diff) n j d :
  (n <= splice_pos diffs j)%nat -> take n (splice_insert diffs j d) = take n diffs.
Proof.
  intros Hn. unfold splice_insert. pose proof (splice_pos_le diffs j).
  rewrite take_app_le by (rewrite length_take; lia).
  rewrite take_take. f_equal. lia.
Qed.

Lemma drop_splice_insert (diffs : list Diff) n j d :
  (n <= splice_pos diffs j)%nat ->
  drop n (splice_insert diffs j d)
  = between n (splice_pos diffs j) diffs ++ d :: drop (splice_pos diffs j) diffs.
Proof.
  intros Hn. unfold splice_insert, between. pose proof (splice_pos_le diffs j).
  by rewrite drop_app_le by (rewrite length_take; lia).
Qed.

(** The side [k] of the script from [lo] on, cut at an entry [a]. *)
Lemma view_drop_lookup k lo a (diffs : list Diff) d :
  (lo <= a)%nat -> diffs !! a = Some d ->
  view k (drop lo diffs)
  = view k (between lo a diffs) ++ entry_view k d ++ view k (drop (S a) diffs).
Proof.
  intros Hlo Ha. rewrite (drop_between lo a) by done.
  rewrite (drop_S _ _ _ Ha). by rewrite view_app, view_cons.
Qed.

Lemma view_drop_set_text k lo a (diffs : list Diff) op (t0 t : jsstring) :
  (lo <= a)%nat -> diffs !! a = Some (op, t0) ->
  view k (drop lo (set_text diffs a t))
  = view k (between lo a diffs) ++ entry_view k (op, t) ++ view k (drop (S a) diffs).
Proof.
  intros Hlo Ha. rewrite (set_text_split _ _ _ _ _ Ha).
  assert (a < length diffs)%nat by (by eapply lookup_lt_Some).
  rewrite drop_app_le by (rewrite length_take; lia).
  by rewrite view_app, view_cons.
Qed.

Lemma view_drop_splice_insert k lo j (diffs : list Diff) d :
  (lo <= splice_pos diffs j)%nat ->
  view k (drop lo (splice_insert diffs j d))
  = view k (between lo (splice_pos diffs j) diffs) ++ entry_view k d
    ++ view k (drop (splice_pos diffs j) diffs).
Proof. intros Hlo. rewrite drop_splice_insert by done. by rewrite view_app, view_cons. Qed.

(** The side [k] of the script up to [hi], cut at an entry [a]. *)
Lemma view_take_lookup k hi a (diffs : list Diff) d :
  (a < hi)%nat -> diffs !! a = Some d ->
  view k (take hi diffs)
  = view k (take a diffs) ++ entry_view k d ++ view k (between (S a) hi diffs).
Proof.
  intros Hhi Ha. rewrite (take_between a hi) by lia.
  rewrite (between_cons a hi _ d) by done. by rewrite view_app, view_cons.
Qed.

Lemma view_take_set_text k hi a (diffs : list Diff) op (t0 t : jsstring) :
  (a < hi)%nat -> diffs !! a = Some (op, t0) ->
  view k (take hi (set_text diffs a t))
  = view k (take a diffs) ++ entry_view k (op, t) ++ view k (between (S a) hi diffs).
Proof.
  intros Hhi Ha. rewrite (set_text_split _ _ _ _ _ Ha).
  assert (a < length diffs)%nat by (by eapply lookup_lt_Some).
  rewrite take_app_ge by (rewrite length_take; lia).
  rewrite length_take. replace (hi - a `min` length diffs)%nat with (S (hi - S a)) by lia.
  cbn [take]. rewrite view_app, view_cons. do 3 f_equal.
  unfold between. rewrite take_drop_commute. do 2 f_equal. lia.
Qed.

(** *** Changes the side [k] does not see *)

Definition same_side (k : Z) (diffs diffs' : list Diff) : Prop :=
  Forall2 (fun d d' : Diff => entry_view k d = entry_view k d') diffs diffs'.

Lemma same_side_view k (diffs diffs' : list Diff) :
  same_side k diffs diffs' -> view k diffs = view k diffs'.
Proof.
  induction 1 as [|d d' diffs diffs' Hd _ IH]; [done|]. rewrite !view_cons. by rewrite Hd, IH.
Qed.

Lemma same_side_set_text k (diffs : list Diff) a op (t0 t : jsstring) :
  diffs !! a = Some (op, t0) -> entry_view k (op, t) = entry_view k (op, t0) ->
  same_side k (set_text diffs a t) diffs.
Proof.
  intros Ha Hv. unfold same_side, set_text. apply Forall2_alter_l.
  - by apply Forall_Forall2_diag, Forall_true.
  - intros x y Hx Hy _. rewrite Ha in Hx, Hy. injection Hx as <-. injection Hy as <-. done.
Qed.

Lemma same_side_between k n m (diffs diffs' : list Diff) :
  same_side k diffs diffs' -> view k (between n m diffs) = view k (between n m diffs').
Proof. intros H. apply same_side_view. unfold between. by apply Forall2_drop, Forall2_take. Qed.

Lemma same_side_drop k n (diffs diffs' : list Diff) :
  same_side k diffs diffs' -> view k (drop n diffs) = view k (drop n diffs').
Proof. intros H. apply same_side_view. by apply Forall2_drop. Qed.

Lemma same_side_take k n (diffs diffs' : list Diff) :
  same_side k diffs diffs' -> view k (take n diffs) = view k (take n diffs').
Proof. intros H. apply same_side_view. by apply Forall2_take. Qed.

(** A change of the script that the side [k] does not see between [lo]
    and [hi], nor from there on. *)
Definition silent (k : Z) (lo hi : nat) (diffs diffs' : list Diff) : Prop :=
  (length diffs <= length diffs')%nat
  /\ (forall n m, (lo <= n)%nat -> (m <= hi)%nat ->
        view k (between n m diffs') = view k (between n m diffs))
  /\ (forall n, (lo <= n <= hi)%nat -> view k (drop n diffs') = view k (drop n diffs))
  /\ (forall a, (lo <= a < hi)%nat -> edit_at diffs k a -> diffs' !! a = diffs !! a).

Lemma silent_trans k lo hi (diffs1 diffs2 diffs3 : list Diff) :
  silent k lo hi diffs1 diffs2 -> silent k lo hi diffs2 diffs3 ->
  silent k lo hi diffs1 diffs3.
Proof.
  intros (Hl1 & Hb1 & Hd1 & Hk1) (Hl2 & Hb2 & Hd2 & Hk2). split; [lia|]. split; [|split].
  - intros n m Hn Hm. by rewrite Hb2, Hb1.
  - intros n Hn. by rewrite Hd2, Hd1.
  - intros a Ha He. rewrite <- (Hk1 a Ha He). apply Hk2; [done|].
    destruct He as (t & Ht & Hne). exists t. by rewrite (Hk1 a Ha) by (by exists t).
Qed.

Lemma silent_set_text_below k lo hi (diffs : list Diff) a t :
  (a < lo)%nat -> silent k lo hi diffs (set_text diffs a t).
Proof.
  intros Ha. split; [by rewrite set_text_length|]. split; [|split].
  - intros n m Hn _. unfold between, set_text. f_equal.
    destruct (decide (a < m)%nat).
    + rewrite take_alter_lt by done. apply drop_alter_lt. lia.
    + by rewrite take_alter_ge by lia.
  - intros n Hn. rewrite drop_set_text by lia. done.
  - intros b Hb _. apply set_text_lookup_ne. lia.
Qed.

Lemma silent_set_text_other k lo hi (diffs : list Diff) a op (t0 t : jsstring) :
  diffs !! a = Some (op, t0) -> op <> k -> entry_view k (op, t) = entry_view k (op, t0) ->
  silent k lo hi diffs (set_text diffs a t).
Proof.
  intros Ha Hop Hv. pose proof (same_side_set_text k diffs a op t0 t Ha Hv) as Hs.
  split; [by rewrite set_text_length|]. split; [|split].
  - intros n m _ _. by apply same_side_between.
  - intros n _. by apply same_side_drop.
  - intros b _ (t' & Hb & _). apply set_text_lookup_ne. intros ->. congruence.
Qed.

Lemma silent_splice_insert k lo hi (diffs : list Diff) j d :
  entry_view k d = [] -> (hi <= splice_pos diffs j)%nat ->
  silent k lo hi diffs (splice_insert diffs j d).
Proof.
  intros Hd Hhi. split; [rewrite splice_insert_length; lia|]. split; [|split].
  - intros n m _ Hm. unfold between. by rewrite take_splice_insert by lia.
  - intros n Hn. rewrite view_drop_splice_insert by lia. rewrite Hd. cbn [app].
    rewrite <- view_app. by rewrite <- drop_between by lia.
  - intros a Ha _. apply splice_insert_lookup_lt. lia.
Qed.

(** *** The unit moved out, one kind of edit at a time *)

(** What [deisolateChar] does with the unit it moves out, for the edits of
    kind [k]: the unit joins the entry found, or becomes an entry at [j]. *)
Definition push_op (k : Z) (diffs : list Diff) (dir : direction) (j : Z)
    (found : option nat) (c : option char) : list Diff :=
  match found with
  | None => splice_insert diffs j (k, text_of c)
  | Some a => set_text diffs a (combineChar (text_at diffs a) c (opposite dir))
  end.

Lemma move_char_push (diffs : list Diff) i dir j ins del :
  (forall d, del = Some d -> Z.of_nat d < j) ->
  move_char diffs i dir j ins del
  = push_op DELETE
      (push_op INSERT (set_text diffs i (splitChar (text_at diffs i) dir).1) dir j ins
         (splitChar (text_at diffs i) dir).2)
      dir j del (splitChar (text_at diffs i) dir).2.
Proof.
  intros Hdel. unfold move_char, push_op.
  destruct (splitChar (text_at diffs i) dir) as [text c]. cbn [fst snd].
  destruct ins as [a|]; [done|]. destruct del as [d|]; [|done].
  cbn [fmap option_fmap option_map]. specialize (Hdel d eq_refl).
  destruct (Z.leb_spec j (Z.of_nat d)); [lia|done].
Qed.

Lemma push_op_pushed k lo j (diffs0 diffs : list Diff) found (h : char) :
  k <> EQUAL -> silent k lo (Z.to_nat j) diffs0 diffs ->
  Z.of_nat lo <= j <= Z.of_nat (length diffs0) ->
  found_ahead diffs0 k lo j found ->
  (found = None -> j = Z.of_nat (length diffs0) \/ edit_at diffs0 EQUAL (Z.to_nat j)) ->
  take lo (push_op k diffs Forward j found (Some h)) = take lo diffs
  /\ pushed h (view k (drop lo diffs0))
              (view k (drop lo (push_op k diffs Forward j found (Some h)))).
Proof.
  intros Hk (Hlen & Hbetween & Hdrop & Hsame) Hj Hfound Hstop.
  destruct found as [a|]; cbn [found_ahead push_op opposite] in *.
  - destruct Hfound as (Hlo & Ha & (X & HX & Hne) & Hquiet).
    assert (diffs !! a = Some (k, X)) as HX'.
    { rewrite Hsame; [done|lia|by exists X]. }
    rewrite (text_at_lookup _ _ _ _ HX'). cbn [combineChar text_of app].
    split; [by apply take_set_text|]. left. exists false, X, (view k (drop (S a) diffs0)).
    split.
    + rewrite (view_drop_lookup k lo a diffs0 _ Hlo HX), Hquiet.
      by rewrite entry_view_edit.
    + rewrite (view_drop_set_text k lo a diffs _ _ _ Hlo HX').
      rewrite Hbetween, Hquiet, Hdrop by lia. by rewrite entry_view_edit.
  - assert (splice_pos diffs j = Z.to_nat j) as Hpos by (apply splice_pos_inside; lia).
    split; [apply take_splice_insert; lia|]. right.
    rewrite view_drop_splice_insert by lia. rewrite Hpos.
    rewrite Hbetween, Hfound, Hdrop by lia. cbn [text_of].
    rewrite entry_view_edit by done.
    rewrite (drop_between lo (Z.to_nat j) diffs0) by lia.
    rewrite view_app, Hfound. split; [done|].
    destruct (Hstop eq_refl) as [Hend|(W & HW & Hne)].
    + left. by rewrite drop_ge by lia.
    + right. rewrite (drop_S _ _ _ HW), view_cons, entry_view_kept by done. eauto.
Qed.

Lemma push_op_silent k k' lo j (diffs0 diffs : list Diff) found c :
  k <> EQUAL -> k' <> k -> silent k lo (Z.to_nat j) diffs0 diffs ->
  Z.of_nat lo <= j <= Z.of_nat (length diffs0) ->
  found_ahead diffs0 k lo j found ->
  silent k' lo (Z.to_nat j) diffs (push_op k diffs Forward j found c).
Proof.
  intros Hk Hk' (Hlen & Hbetween & Hdrop & Hsame) Hj Hfound.
  destruct found as [a|]; cbn [found_ahead push_op opposite] in *.
  - destruct Hfound as (Hlo & Ha & (X & HX & Hne) & Hquiet).
    assert (diffs !! a = Some (k, X)) as HX'.
    { rewrite Hsame; [done|lia|by exists X]. }
    apply (silent_set_text_other k' lo _ diffs a k X); [done|done|].
    by rewrite !entry_view_other.
  - apply silent_splice_insert; [by apply entry_view_other|].
    rewrite splice_pos_inside; lia.
Qed.

Lemma take_take_le {A} (l : list A) n m : (n <= m)%nat -> take n (take m l) = take n l.
Proof. intros. rewrite take_take. f_equal. lia. Qed.

Lemma same_side_refl k (diffs : list Diff) : same_side k diffs diffs.
Proof. by apply Forall_Forall2_diag, Forall_true. Qed.

(** The first entry of a side loses its first unit. *)
Definition popped (x : char) (vs vs' : list (bool * jsstring)) : Prop :=
  exists X0 vs2, vs = (false, x :: X0) :: vs2 /\ vs' = ne false X0 ++ vs2.

Lemma set_text_popped k lo a (diffs0 diffs : list Diff) (x : char) (X0 : jsstring) :
  k <> EQUAL -> same_side k diffs diffs0 -> (lo <= a)%nat ->
  diffs0 !! a = Some (k, x :: X0) -> diffs !! a = Some (k, x :: X0) ->
  view k (between lo a diffs0) = [] ->
  popped x (view k (drop lo diffs0)) (view k (drop lo (set_text diffs a X0))).
Proof.
  intros Hk Hs Hlo Ha0 Ha Hquiet. exists X0, (view k (drop (S a) diffs0)). split.
  - rewrite (view_drop_lookup k lo a diffs0 _ Hlo Ha0), Hquiet. by rewrite entry_view_edit.
  - rewrite (view_drop_set_text k lo a diffs _ _ _ Hlo Ha).
    rewrite (same_side_between k lo a _ _ Hs), Hquiet.
    rewrite (same_side_drop k (S a) _ _ Hs). by rewrite entry_view_own.
Qed.

(** The unit joins the EQUAL entry that follows. *)
Lemma set_text_adjacent k lo a (diffs : list Diff) (h : char) (t : jsstring) :
  (lo <= a)%nat -> diffs !! a = Some (EQUAL, t) -> t <> [] ->
  view k (between lo a diffs) = [] ->
  pushed h (view k (drop lo diffs)) (view k (drop lo (set_text diffs a (h :: t)))).
Proof.
  intros Hlo Ha Ht Hquiet. left. exists true, t, (view k (drop (S a) diffs)). split.
  - rewrite (view_drop_lookup k lo a diffs _ Hlo Ha), Hquiet. by rewrite entry_view_kept.
  - rewrite (view_drop_set_text k lo a diffs _ _ _ Hlo Ha), Hquiet.
    by rewrite entry_view_kept.
Qed.

(** The forward repair when the unit is moved out of the entry. *)
Lemma move_char_forward_sides (diffs : list Diff) i (E0 : jsstring) (h : char) j ins del :
  diffs !! i = Some (EQUAL, E0 ++ [h]) ->
  Z.of_nat (S i) <= j <= Z.of_nat (length diffs) ->
  found_ahead diffs INSERT (S i) j ins -> found_ahead diffs DELETE (S i) j del ->
  (ins = None \/ del = None ->
   j = Z.of_nat (length diffs) \/ edit_at diffs EQUAL (Z.to_nat j)) ->
  take i (move_char diffs i Forward j ins del) = take i diffs
  /\ move_char diffs i Forward j ins del !! i = Some (EQUAL, E0)
  /\ pushed h (view INSERT (drop (S i) diffs))
              (view INSERT (drop (S i) (move_char diffs i Forward j ins del)))
  /\ pushed h (view DELETE (drop (S i) diffs))
              (view DELETE (drop (S i) (move_char diffs i Forward j ins del))).
Proof.
  intros Hi Hj Hins Hdel Hstop.
  rewrite move_char_push.
  2:{ intros d ->. by destruct Hdel as (_ & ? & _). }
  rewrite (text_at_lookup _ _ _ _ Hi), splitChar_forward_snoc. cbn [fst snd].
  set (diffs1 := set_text diffs i E0).
  set (diffs2 := push_op INSERT diffs1 Forward j ins (Some h)).
  pose proof (silent_set_text_below INSERT (S i) (Z.to_nat j) diffs i E0 ltac:(lia)) as H1I.
  pose proof (silent_set_text_below DELETE (S i) (Z.to_nat j) diffs i E0 ltac:(lia)) as H1D.
  fold diffs1 in H1I, H1D.
  destruct (push_op_pushed INSERT (S i) j diffs diffs1 ins h) as [HtI HpI];
    [done|done|lia|done|by auto|]. fold diffs2 in HtI, HpI.
  pose proof (push_op_silent INSERT DELETE (S i) j diffs diffs1 ins (Some h)
                ltac:(done) ltac:(done) H1I ltac:(lia) Hins) as H2D. fold diffs2 in H2D.
  pose proof (silent_trans _ _ _ _ _ _ H1D H2D) as H12D.
  destruct (push_op_pushed DELETE (S i) j diffs diffs2 del h) as [HtD HpD];
    [done|done|lia|done|by auto|].
  pose proof (push_op_silent DELETE INSERT (S i) j diffs diffs2 del (Some h)
                ltac:(done) ltac:(done) H12D ltac:(lia) Hdel) as (_ & _ & H4I & _).
  set (diffs3 := push_op DELETE diffs2 Forward j del (Some h)) in *.
  assert (take (S i) diffs3 = take (S i) diffs1) as Htake by congruence.
  split; [|split; [|split]].
  - rewrite <- (take_take_le diffs3 i (S i)), Htake, take_take_le by lia.
    by apply take_set_text.
  - rewrite <- (lookup_take_lt diffs3 (S i) i), Htake, lookup_take_lt by lia.
    by eapply set_text_lookup_eq.
  - by rewrite H4I by lia.
  - done.
Qed.

(** The forward repair in the shared-character case. *)
Lemma pull_char_forward_sides (diffs : list Diff) i (E : jsstring) j ins del :
  diffs !! i = Some (EQUAL, E) ->
  found_ahead diffs INSERT (S i) j (Some ins) ->
  found_ahead diffs DELETE (S i) j (Some del) ->
  exists y x,
    take i (pull_char diffs i Forward ins del) = take i diffs
    /\ pull_char diffs i Forward ins del !! i = Some (EQUAL, E ++ [y])
    /\ popped y (view INSERT (drop (S i) diffs))
                (view INSERT (drop (S i) (pull_char diffs i Forward ins del)))
    /\ popped x (view DELETE (drop (S i) diffs))
                (view DELETE (drop (S i) (pull_char diffs i Forward ins del))).
Proof.
  intros Hi (HloI & _ & (X & HX & HneX) & HqI) (HloD & _ & (X' & HX' & HneX') & HqD).
  destruct X as [|y X0]; [done|]. destruct X' as [|x X0']; [done|]. exists y, x.
  assert (ins <> del) as Hne by (intros ->; rewrite HX in HX'; discriminate).
  unfold pull_char. cbn [opposite].
  rewrite (text_at_lookup _ _ _ _ HX), (text_at_lookup _ _ _ _ HX').
  rewrite !splitChar_backward_cons.
  set (diffs1 := set_text diffs ins X0).
  assert (diffs1 !! del = Some (DELETE, x :: X0')) as HX1.
  { unfold diffs1. by rewrite set_text_lookup_ne. }
  set (diffs2 := set_text diffs1 del X0').
  assert (diffs2 !! i = Some (EQUAL, E)) as Hi2.
  { unfold diffs2, diffs1. by rewrite !set_text_lookup_ne by lia. }
  rewrite (text_at_lookup _ _ _ _ Hi2). cbn [combineChar text_of].
  assert (same_side DELETE diffs1 diffs) as HsD.
  { apply (same_side_set_text DELETE diffs ins INSERT (y :: X0) X0 HX).
    by rewrite !entry_view_other. }
  assert (same_side INSERT diffs2 diffs1) as HsI.
  { apply (same_side_set_text INSERT diffs1 del DELETE (x :: X0') X0' HX1).
    by rewrite !entry_view_other. }
  split; [|split; [|split]].
  - unfold diffs2, diffs1. by rewrite !take_set_text by lia.
  - by eapply set_text_lookup_eq.
  - rewrite drop_set_text by lia. rewrite (same_side_drop INSERT (S i) _ _ HsI).
    by apply set_text_popped; [|apply same_side_refl|..].
  - rewrite drop_set_text by lia. by apply set_text_popped.
Qed.

(** The forward repair of an EQUAL entry that ends with [h], on both sides:
    the entries before [i] stay; either [h] moves out of the entry and to
    the front of what follows on each side, or the entry gains the first
    unit of the INSERT entry that follows and each side loses the first
    unit of what follows. *)
Lemma deisolate_forward_sides (diffs : list Diff) i (E0 : jsstring) (h : char) :
  diffs !! i = Some (EQUAL, E0 ++ [h]) ->
  take i (deisolateChar diffs i Forward) = take i diffs
  /\ ((deisolateChar diffs i Forward !! i = Some (EQUAL, E0)
       /\ pushed h (view INSERT (drop (S i) diffs))
                   (view INSERT (drop (S i) (deisolateChar diffs i Forward)))
       /\ pushed h (view DELETE (drop (S i) diffs))
                   (view DELETE (drop (S i) (deisolateChar diffs i Forward))))
      \/ (exists y x,
            deisolateChar diffs i Forward !! i = Some (EQUAL, (E0 ++ [h]) ++ [y])
            /\ popped y (view INSERT (drop (S i) diffs))
                        (view INSERT (drop (S i) (deisolateChar diffs i Forward)))
            /\ popped x (view DELETE (drop (S i) diffs))
                        (view DELETE (drop (S i) (deisolateChar diffs i Forward))))).
Proof.
  intros Hi. assert (i < length diffs)%nat as Hlt by (by eapply lookup_lt_Some).
  unfold deisolateChar. cbn [indices_ahead step].
  pose proof (scan_forward_finds diffs (S i) (length diffs - S i) (Z.of_nat i + 1) None None)
    as Hscan.
  assert (forall k, found_ahead diffs k (S i) (Z.of_nat i + 1) None) as Hstart.
  { intros k. cbn. replace (Z.to_nat (Z.of_nat i + 1)) with (S i) by lia.
    by rewrite between_nil. }
  specialize (Hscan ltac:(lia) ltac:(lia) (Hstart INSERT) (Hstart DELETE)).
  destruct (scan diffs Forward (length diffs - S i) (Z.of_nat i + 1) None None)
    as [j|j ins del].
  - destruct Hscan as (Hlo & (W & HW & Hne) & HqI & HqD).
    rewrite (text_at_lookup _ _ _ _ Hi), splitChar_forward_snoc.
    set (diffs1 := set_text diffs i E0).
    assert (diffs1 !! j = Some (EQUAL, W)) as HW1.
    { unfold diffs1. by rewrite set_text_lookup_ne by lia. }
    rewrite (text_at_lookup _ _ _ _ HW1). cbn [opposite combineChar text_of app].
    split; [unfold diffs1; by rewrite !take_set_text by lia|]. left.
    split; [unfold diffs1; rewrite set_text_lookup_ne by lia; by eapply set_text_lookup_eq|].
    assert (forall k, view k (between (S i) j diffs) = [] ->
                      pushed h (view k (drop (S i) diffs))
                               (view k (drop (S i) (set_text diffs1 j (h :: W))))) as Hp.
    { intros k Hq. replace (drop (S i) diffs) with (drop (S i) diffs1)
        by (unfold diffs1; apply drop_set_text; lia).
      apply set_text_adjacent; [done|done|done|].
      destruct (silent_set_text_below k (S i) j diffs i E0 ltac:(lia)) as (_ & Hb & _).
      fold diffs1 in Hb. by rewrite Hb by lia. }
    split; by apply Hp.
  - destruct Hscan as (Hj & Hins & Hdel & Hstop).
    assert (take i (move_char diffs i Forward j ins del) = take i diffs
            /\ move_char diffs i Forward j ins del !! i = Some (EQUAL, E0)
            /\ pushed h (view INSERT (drop (S i) diffs))
                        (view INSERT (drop (S i) (move_char diffs i Forward j ins del)))
            /\ pushed h (view DELETE (drop (S i) diffs))
                        (view DELETE (drop (S i) (move_char diffs i Forward j ins del))))
      as (Ht & Hl & HpI & HpD) by (by apply move_char_forward_sides).
    destruct ins as [a|]; [|by auto]. destruct del as [b|]; [|by auto].
    destruct (hasSharedChar diffs a b Forward); [|by auto].
    destruct (pull_char_forward_sides diffs i _ j a b Hi Hins Hdel)
      as (y & x & Ht' & Hl' & HpI' & HpD').
    split; [done|]. right. by exists y, x.
Qed.

(** *** The search backward, side by side *)

(** Searching backward from [hi], with the loop at [j]: the entry found
    for the side [k] is the last one of the side before [hi], and while
    none is found the side has no entry after [j]. *)
Definition found_behind (diffs : list Diff) (k : Z) (hi : nat) (j : Z)
    (found : option nat) : Prop :=
  match found with
  | Some a =>
      (a < hi)%nat /\ j < Z.of_nat a /\ edit_at diffs k a
      /\ view k (between (S a) hi diffs) = []
  | None => view k (between (Z.to_nat (j + 1)) hi diffs) = []
  end.

Lemma found_behind_skip (diffs : list Diff) k hi j found d :
  0 <= j < Z.of_nat hi -> diffs !! Z.to_nat j = Some d ->
  (found = None -> entry_view k d = []) ->
  found_behind diffs k hi j found -> found_behind diffs k hi (j - 1) found.
Proof.
  intros Hj Hd Hquiet. destruct found as [a|]; cbn [found_behind].
  - intros (? & ? & ? & ?). repeat split; [done|lia|done|done].
  - intros Hv. replace (Z.to_nat (j - 1 + 1)) with (Z.to_nat j) by lia.
    rewrite (between_cons _ _ _ d) by (done || lia).
    replace (S (Z.to_nat j)) with (Z.to_nat (j + 1)) by lia.
    rewrite view_cons, Hv, app_nil_r. by apply Hquiet.
Qed.

Lemma found_behind_new (diffs : list Diff) k hi j found (t : jsstring) :
  0 <= j < Z.of_nat hi -> diffs !! Z.to_nat j = Some (k, t) -> t <> [] ->
  found_behind diffs k hi j found ->
  found_behind diffs k hi (j - 1) (if found is None then Some (Z.to_nat j) else found).
Proof.
  intros Hj Hd Ht. destruct found as [a|]; cbn [found_behind].
  - intros (? & ? & ? & ?). repeat split; [done|lia|done|done].
  - intros Hv. replace (S (Z.to_nat j)) with (Z.to_nat (j + 1)) by lia.
    repeat split; [lia|lia| |done]. by exists t.
Qed.

Lemma scan_backward_finds (diffs : list Diff) hi ahead j ins del :
  j = Z.of_nat ahead - 1 -> j < Z.of_nat hi -> (hi <= length diffs)%nat ->
  found_behind diffs INSERT hi j ins -> found_behind diffs DELETE hi j del ->
  match scan diffs Backward ahead j ins del with
  | Adjacent j' =>
      (j' < hi)%nat /\ edit_at diffs EQUAL j'
      /\ view INSERT (between (S j') hi diffs) = []
      /\ view DELETE (between (S j') hi diffs) = []
  | Stopped j' ins' del' =>
      -1 <= j' < Z.of_nat hi
      /\ found_behind diffs INSERT hi j' ins'
      /\ found_behind diffs DELETE hi j' del'
      /\ (ins' = None \/ del' = None -> j' = -1 \/ edit_at diffs EQUAL (Z.to_nat j'))
  end.
Proof.
  revert j ins del. induction ahead as [|ahead IH]; intros j ins del Hj Hhi Hlen Hins Hdel.
  { cbn [scan]. split; [lia|]. split; [done|]. split; [done|]. intros _. left. lia. }
  cbn [scan].
  destruct (bool_decide (is_Some ins) && bool_decide (is_Some del)) eqn:Hboth.
  { apply andb_true_iff in Hboth as [Hi Hd]. apply bool_decide_eq_true in Hi, Hd.
    destruct Hi as [a ->], Hd as [b ->].
    split; [lia|]. split; [done|]. split; [done|]. by intros [|]. }
  destruct (diffs !! Z.to_nat j) as [[op text]|] eqn:Hlook.
  2:{ apply lookup_ge_None in Hlook. lia. }
  cbn [step]. replace (j + -1) with (j - 1) by lia.
  destruct (strlen text =? 0) eqn:Hlen0.
  { apply Z.eqb_eq in Hlen0. unfold strlen in Hlen0.
    assert (text = []) as -> by (destruct text; [done|cbn [length] in Hlen0; lia]).
    apply IH; [lia|lia|done| |]; (eapply found_behind_skip; [lia|done|done|done]). }
  apply strlen_zero in Hlen0.
  destruct (Z.eqb_spec op INSERT) as [->|Hop].
  { apply IH; [lia|lia|done| |].
    - eapply found_behind_new; [lia|done|done|done].
    - eapply found_behind_skip; [lia|done| |done]. intros _. by apply entry_view_other. }
  destruct (Z.eqb_spec op DELETE) as [->|Hop'].
  { apply IH; [lia|lia|done| |].
    - eapply found_behind_skip; [lia|done| |done]. intros _. by apply entry_view_other.
    - eapply found_behind_new; [lia|done|done|done]. }
  destruct (Z.eqb_spec op EQUAL) as [->|Hop''].
  - assert (edit_at diffs EQUAL (Z.to_nat j)) as Heq by (by exists text).
    destruct ins as [a|].
    { split; [lia|]. split; [done|]. split; [done|]. intros _. by right. }
    destruct del as [b|].
    { split; [lia|]. split; [done|]. split; [done|]. intros _. by right. }
    cbn [found_behind] in Hins, Hdel.
    replace (Z.to_nat (j + 1)) with (S (Z.to_nat j)) in Hins, Hdel by lia.
    split; [lia|]. by split.
  - apply IH; [lia|lia|done| |]; (eapply found_behind_skip; [lia|done| |done]);
      intros _; by apply entry_view_other.
Qed.

(** When the side ends with an edit before [hi], the search finds that
    entry. *)
Lemma found_behind_last (diffs : list Diff) k hi j found v2 (X : jsstring) :
  k <> EQUAL -> -1 <= j < Z.of_nat hi ->
  view k (take hi diffs) = v2 ++ [(false, X)] ->
  found_behind diffs k hi j found ->
  (found = None -> j = -1 \/ edit_at diffs EQUAL (Z.to_nat j)) ->
  exists a, found = Some a /\ (a < hi)%nat /\ diffs !! a = Some (k, X) /\ X <> []
            /\ view k (take a diffs) = v2 /\ view k (between (S a) hi diffs) = [].
Proof.
  intros Hk Hj Hview Hfound Hstop. destruct found as [a|]; cbn [found_behind] in Hfound.
  - destruct Hfound as (Ha & _ & (X' & HX' & Hne) & Hq). exists a.
    rewrite (view_take_lookup k hi a diffs _ Ha HX'), Hq in Hview.
    rewrite entry_view_edit, app_nil_r in Hview by done.
    apply app_inj_tail in Hview as [Hv [= ->]]. done.
  - exfalso. destruct (decide (j = -1)) as [->|Hj'].
    + change (Z.to_nat (-1 + 1)) with 0%nat in Hfound. unfold between in Hfound.
      rewrite drop_0, Hview in Hfound. by destruct v2.
    + destruct (Hstop eq_refl) as [?|(W & HW & Hne)]; [done|].
      rewrite (view_take_lookup k hi (Z.to_nat j) diffs _ ltac:(lia) HW) in Hview.
      replace (S (Z.to_nat j)) with (Z.to_nat (j + 1)) in Hview by lia.
      rewrite Hfound, entry_view_kept, app_nil_r in Hview by done.
      by apply app_inj_tail in Hview as [_ [=]].
Qed.

Lemma view_take_set_text_last k hi a (diffs : list Diff) op (t0 t : jsstring) v2 :
  (a < hi)%nat -> diffs !! a = Some (op, t0) ->
  view k (take a diffs) = v2 -> view k (between (S a) hi diffs) = [] ->
  view k (take hi (set_text diffs a t)) = v2 ++ entry_view k (op, t).
Proof.
  intros Ha Hlook Hv Hq. rewrite (view_take_set_text k hi a diffs _ _ _ Ha Hlook).
  by rewrite Hv, Hq, app_nil_r.
Qed.

(** The backward repair of an EQUAL entry that starts with [l], when each
    side ends with an edit before the entry: the entries after [i] stay;
    either [l] moves out of the entry and to the end of that edit on each
    side, or the entry gains the last unit of the INSERT entry and each
    edit loses its last unit. *)
Lemma deisolate_backward_sides (diffs : list Diff) i (l : char) (E1 : jsstring)
    vI (XI : jsstring) vD (XD : jsstring) :
  diffs !! i = Some (EQUAL, l :: E1) ->
  view INSERT (take i diffs) = vI ++ [(false, XI)] ->
  view DELETE (take i diffs) = vD ++ [(false, XD)] ->
  drop (S i) (deisolateChar diffs i Backward) = drop (S i) diffs
  /\ ((deisolateChar diffs i Backward !! i = Some (EQUAL, E1)
       /\ view INSERT (take i (deisolateChar diffs i Backward)) = vI ++ [(false, XI ++ [l])]
       /\ view DELETE (take i (deisolateChar diffs i Backward)) = vD ++ [(false, XD ++ [l])])
      \/ (exists y x XI0 XD0,
            XI = XI0 ++ [y] /\ XD = XD0 ++ [x]
            /\ deisolateChar diffs i Backward !! i = Some (EQUAL, y :: l :: E1)
            /\ view INSERT (take i (deisolateChar diffs i Backward)) = vI ++ ne false XI0
            /\ view DELETE (take i (deisolateChar diffs i Backward)) = vD ++ ne false XD0)).
Proof.
  intros Hi HvI HvD. assert (i < length diffs)%nat as Hlt by (by eapply lookup_lt_Some).
  unfold deisolateChar. cbn [indices_ahead step].
  pose proof (scan_backward_finds diffs i i (Z.of_nat i + -1) None None) as Hscan.
  assert (forall k, found_behind diffs k i (Z.of_nat i + -1) None) as Hstart.
  { intros k. cbn. replace (Z.to_nat (Z.of_nat i + -1 + 1)) with i by lia.
    by rewrite between_nil. }
  specialize (Hscan ltac:(lia) ltac:(lia) ltac:(lia) (Hstart INSERT) (Hstart DELETE)).
  destruct (scan diffs Backward i (Z.of_nat i + -1) None None) as [j|j ins del].
  { exfalso. destruct Hscan as (Hj & (W & HW & Hne) & HqI & _).
    rewrite (view_take_lookup INSERT i j diffs _ Hj HW), HqI in HvI.
    rewrite entry_view_kept, app_nil_r in HvI by done.
    by apply app_inj_tail in HvI as [_ [=]]. }
  destruct Hscan as (Hj & Hins & Hdel & Hstop).
  destruct (found_behind_last diffs INSERT i j ins vI XI) as (a & -> & Ha & HXI & HneI & HtI & HqI);
    [done|lia|done|done|by auto|].
  destruct (found_behind_last diffs DELETE i j del vD XD) as (b & -> & Hb & HXD & HneD & HtD & HqD);
    [done|lia|done|done|by auto|].
  assert (a <> b) as Hab by (intros ->; rewrite HXI in HXD; discriminate).
  destruct (hasSharedChar diffs a b Backward).
  - destruct (snoc_or_nil XI) as [->|(XI0 & y & ->)]; [done|].
    destruct (snoc_or_nil XD) as [->|(XD0 & x & ->)]; [done|].
    unfold pull_char. cbn [opposite].
    rewrite (text_at_lookup _ _ _ _ HXI), (text_at_lookup _ _ _ _ HXD).
    rewrite !splitChar_forward_snoc.
    set (diffs1 := set_text diffs a XI0).
    assert (diffs1 !! b = Some (DELETE, XD0 ++ [x])) as HX1.
    { unfold diffs1. by rewrite set_text_lookup_ne. }
    set (diffs2 := set_text diffs1 b XD0).
    assert (diffs2 !! i = Some (EQUAL, l :: E1)) as Hi2.
    { unfold diffs2, diffs1. by rewrite !set_text_lookup_ne by lia. }
    rewrite (text_at_lookup _ _ _ _ Hi2). cbn [combineChar text_of app].
    assert (same_side DELETE diffs1 diffs) as HsD.
    { apply (same_side_set_text DELETE diffs a INSERT (XI0 ++ [y]) XI0 HXI).
      by rewrite !entry_view_other. }
    assert (same_side INSERT diffs2 diffs1) as HsI.
    { apply (same_side_set_text INSERT diffs1 b DELETE (XD0 ++ [x]) XD0 HX1).
      by rewrite !entry_view_other. }
    split; [unfold diffs2, diffs1; by rewrite !drop_set_text by lia|].
    right. exists y, x, XI0, XD0. split; [done|]. split; [done|].
    split; [by eapply set_text_lookup_eq|]. rewrite take_set_text by lia. split.
    + rewrite (same_side_take INSERT i _ _ HsI). unfold diffs1.
      rewrite (view_take_set_text_last INSERT i a diffs _ _ XI0 vI Ha HXI HtI HqI).
      by rewrite entry_view_own.
    + unfold diffs2.
      rewrite (view_take_set_text_last DELETE i b diffs1 _ _ XD0 vD Hb HX1).
      * by rewrite entry_view_own.
      * by rewrite (same_side_take DELETE b _ _ HsD).
      * by rewrite (same_side_between DELETE (S b) i _ _ HsD).
  - unfold move_char. rewrite (text_at_lookup _ _ _ _ Hi), splitChar_backward_cons.
    cbn [opposite].
    set (diffs1 := set_text diffs i E1).
    assert (diffs1 !! a = Some (INSERT, XI)) as HXI1.
    { unfold diffs1. by rewrite set_text_lookup_ne by lia. }
    rewrite (text_at_lookup _ _ _ _ HXI1). cbn [combineChar text_of].
    set (diffs2 := set_text diffs1 a (XI ++ [l])).
    assert (diffs2 !! b = Some (DELETE, XD)) as HXD2.
    { unfold diffs2, diffs1. by rewrite !set_text_lookup_ne by lia. }
    rewrite (text_at_lookup _ _ _ _ HXD2).
    assert (same_side DELETE diffs2 diffs1) as HsD.
    { apply (same_side_set_text DELETE diffs1 a INSERT XI (XI ++ [l]) HXI1).
      by rewrite !entry_view_other. }
    assert (same_side INSERT (set_text diffs2 b (XD ++ [l])) diffs2) as HsI.
    { apply (same_side_set_text INSERT diffs2 b DELETE XD (XD ++ [l]) HXD2).
      by rewrite !entry_view_other. }
    assert (forall n, (n <= i)%nat -> take n diffs1 = take n diffs) as Htake1.
    { intros n Hn. unfold diffs1. by apply take_set_text. }
    assert (forall n, between n i diffs1 = between n i diffs) as Hbetween1.
    { intros n. unfold between. by rewrite Htake1. }
    split; [unfold diffs2, diffs1; by rewrite !drop_set_text by lia|].
    left. split; [|split].
    + unfold diffs2, diffs1. rewrite !set_text_lookup_ne by lia. by eapply set_text_lookup_eq.
    + rewrite (same_side_take INSERT i _ _ HsI). unfold diffs2.
      rewrite (view_take_set_text_last INSERT i a diffs1 _ _ (XI ++ [l]) vI Ha HXI1).
      * rewrite entry_view_edit; [done|done|by destruct XI].
      * by rewrite Htake1 by lia.
      * by rewrite Hbetween1.
    + rewrite (view_take_set_text_last DELETE i b diffs2 _ _ (XD ++ [l]) vD Hb HXD2).
      * rewrite entry_view_edit; [done|done|by destruct XD].
      * rewrite (same_side_take DELETE b _ _ HsD). by rewrite Htake1 by lia.
      * rewrite (same_side_between DELETE (S b) i _ _ HsD). by rewrite Hbetween1.
Qed.

(** *** The boundary before the loop index *)

(** Among the entries the loop has visited no EQUAL entry ends with a loose
    high surrogate. *)
Lemma runv_done_state st v st' :
  runv false st v = Some st' -> st <> Open true -> st' <> Open true.
Proof.
  revert st. induction v as [|e v IH]; intros st; cbn [runv].
  - by intros [= ->].
  - destruct (stepv false st e) as [st1|] eqn:Hstep; [|done]. cbn. intros Hrun _.
    apply (IH st1 Hrun). unfold stepv in Hstep.
    destruct (units (is_open st) e.2) as [o|]; [|done].
    destruct (_ || _); [done|]. injection Hstep as <-. rewrite andb_false_r. by destruct o.
Qed.

(** A side that is open before the loop index ends there with an edit
    whose last unit is a high surrogate. *)
Lemma runv_done_open v b :
  runv false Closed v = Some (Open b) ->
  exists v2 X,
    v = v2 ++ [(false, X)] /\ runv false Closed v2 = Some Closed /\ units false X = Some true.
Proof.
  destruct (snoc_or_nil v) as [->|(v2 & e & ->)]; [done|].
  rewrite runv_app. destruct (runv false Closed v2) as [st2|] eqn:H2; [|done].
  cbn [mbind option_bind runv].
  destruct (stepv false st2 e) as [st'|] eqn:Hstep; [|done]. cbn. intros [= ->].
  pose proof (runv_done_state _ _ _ H2 ltac:(done)) as Hst2.
  unfold stepv in Hstep. destruct e as [eq X]. cbn [fst snd] in Hstep.
  destruct (units (is_open st2) X) as [o|] eqn:Hu; [|done].
  destruct st2 as [|[|]]; [|done|].
  - destruct o, eq; cbn in Hstep; try done. by exists v2, X.
  - cbn in Hstep. rewrite andb_false_r, orb_true_r in Hstep. done.
Qed.

Lemma prefix_pushed v2 (X : jsstring) (l : char) :
  runv false Closed v2 = Some Closed -> units false X = Some true ->
  isLowSurrogate (Some l) = true ->
  runv false Closed (v2 ++ [(false, X ++ [l])]) = Some Closed.
Proof.
  intros H2 HX Hl. rewrite runv_app, H2. cbn [mbind option_bind runv].
  rewrite stepv_edit by done. cbn [is_open]. by rewrite (units_snoc_low _ _ _ Hl HX).
Qed.

Lemma prefix_popped v2 (X0 : jsstring) (x : char) :
  runv false Closed v2 = Some Closed -> units false (X0 ++ [x]) = Some true ->
  runv false Closed (v2 ++ ne false X0) = Some Closed
  /\ isHighSurrogate (Some x) = true.
Proof.
  intros H2 HX. pose proof (units_last _ _ _ _ HX) as Hx. symmetry in Hx.
  split; [|done]. destruct (units_snoc_high _ _ _ _ Hx HX) as [_ HX0].
  rewrite runv_app, H2. cbn [mbind option_bind]. unfold ne. case_bool_decide; [done|].
  cbn [runv]. rewrite stepv_edit by done. cbn [is_open]. by rewrite HX0.
Qed.

(** *** One turn of the repair loop *)

(** The EQUAL entry at the loop index, with text [E], has no loose end at
    its right, and what follows it on the side [k] is in order. *)
Definition ready (k : Z) (i : nat) (diffs : list Diff) (E : jsstring) (st : boundary) : Prop :=
  runv false Closed (view k (take i diffs)) = Some st
  /\ units (is_open st) E = Some false
  /\ runv true Closed (view k (drop (S i) diffs)) = Some Closed.

Lemma good_cut k i (diffs : list Diff) (E : jsstring) :
  diffs !! i = Some (EQUAL, E) -> E <> [] -> good k i diffs ->
  exists st,
    runv false Closed (view k (take i diffs)) = Some st
    /\ runv true st ((true, E) :: view k (drop (S i) diffs)) = Some Closed.
Proof.
  intros Hi HE (st & Hpre & Hsuf). exists st. split; [done|].
  by rewrite (drop_S _ _ _ Hi), view_cons, entry_view_kept in Hsuf.
Qed.

Lemma ready_as_is k i (diffs : list Diff) (E0 : jsstring) (c : char) :
  diffs !! i = Some (EQUAL, E0 ++ [c]) -> isHighSurrogate (Some c) = false ->
  good k i diffs -> exists st, ready k i diffs (E0 ++ [c]) st.
Proof.
  intros Hi Hc Hgood.
  destruct (good_cut k i diffs _ Hi ltac:(by destruct E0) Hgood) as (st & Hpre & Hsuf).
  exists st. split; [done|]. cbn [runv] in Hsuf.
  destruct (stepv true st (true, E0 ++ [c])) as [st'|] eqn:Hstep; [|done].
  destruct (stepv_units _ _ _ _ Hstep) as [open' Hu]. cbn [snd] in Hu.
  pose proof (units_last _ _ _ _ Hu) as Ho. rewrite Hc in Ho. subst open'.
  rewrite (stepv_pending_equal st _ false Hu) in Hstep. injection Hstep as <-.
  by split.
Qed.

Lemma ready_forward i (diffs : list Diff) (E0 : jsstring) (h : char) :
  diffs !! i = Some (EQUAL, E0 ++ [h]) -> isHighSurrogate (Some h) = true ->
  good INSERT i diffs -> good DELETE i diffs ->
  exists E',
    deisolateChar diffs i Forward !! i = Some (EQUAL, E')
    /\ (E' = E0 \/ exists y, E' = (E0 ++ [h]) ++ [y])
    /\ (exists st, ready INSERT i (deisolateChar diffs i Forward) E' st)
    /\ (exists st, ready DELETE i (deisolateChar diffs i Forward) E' st).
Proof.
  intros Hi Hh HgI HgD.
  destruct (good_cut INSERT i diffs _ Hi ltac:(by destruct E0) HgI) as (stI & HpreI & HsufI).
  destruct (good_cut DELETE i diffs _ Hi ltac:(by destruct E0) HgD) as (stD & HpreD & HsufD).
  destruct (deisolate_forward_sides diffs i E0 h Hi)
    as [Htake [(Hl & HpI & HpD)|(y & x & Hl & HpI & HpD)]].
  - exists E0. split; [done|]. split; [by left|].
    destruct (forward_pushed _ _ _ _ _ Hh HsufI HpI) as [HuI HrI].
    destruct (forward_pushed _ _ _ _ _ Hh HsufD HpD) as [HuD HrD].
    split; [exists stI|exists stD]; (split; [by rewrite Htake|by split]).
  - exists ((E0 ++ [h]) ++ [y]). split; [done|]. split; [by eauto|].
    destruct HpI as (XI0 & vsI & HvI & HvI'), HpD as (XD0 & vsD & HvD & HvD').
    rewrite HvI in HsufI. rewrite HvD in HsufD.
    pose proof (pending_high_then_low _ _ _ _ _ _ Hh HsufI) as Hy.
    destruct (forward_pulled _ _ _ y _ _ _ Hh Hy HsufI) as [HuI HrI].
    destruct (forward_pulled _ _ _ y _ _ _ Hh Hy HsufD) as [HuD HrD].
    split; [exists stI|exists stD]; (split; [by rewrite Htake|]); split; try done.
    + by rewrite HvI'.
    + by rewrite HvD'.
Qed.

Lemma ready_open k i (diffs : list Diff) (l : char) (E1 : jsstring) st :
  isLowSurrogate (Some l) = true -> ready k i diffs (l :: E1) st ->
  units false E1 = Some false
  /\ runv true Closed (view k (drop (S i) diffs)) = Some Closed
  /\ exists v2 X,
       view k (take i diffs) = v2 ++ [(false, X)]
       /\ runv false Closed v2 = Some Closed /\ units false X = Some true.
Proof.
  intros Hl (Hpre & Hu & Hsuf).
  destruct (units_cons_low _ _ _ _ Hl Hu) as [Hopen HE1].
  split; [done|]. split; [done|].
  destruct st as [|b]; [done|]. by apply (runv_done_open _ b).
Qed.

Lemma ready_backward i (diffs : list Diff) (l : char) (E1 : jsstring) stI stD :
  diffs !! i = Some (EQUAL, l :: E1) -> isLowSurrogate (Some l) = true ->
  ready INSERT i diffs (l :: E1) stI -> ready DELETE i diffs (l :: E1) stD ->
  exists E',
    deisolateChar diffs i Backward !! i = Some (EQUAL, E')
    /\ ready INSERT i (deisolateChar diffs i Backward) E' Closed
    /\ ready DELETE i (deisolateChar diffs i Backward) E' Closed.
Proof.
  intros Hi Hl HrI HrD.
  destruct (ready_open _ _ _ _ _ _ Hl HrI) as (HE1 & HsufI & vI & XI & HvI & HrunI & HXI).
  destruct (ready_open _ _ _ _ _ _ Hl HrD) as (_ & HsufD & vD & XD & HvD & HrunD & HXD).
  destruct (deisolate_backward_sides diffs i l E1 vI XI vD XD Hi HvI HvD)
    as [Hdrop [(Hlook & HvI' & HvD')|(y & x & XI0 & XD0 & -> & -> & Hlook & HvI' & HvD')]].
  - exists E1. split; [done|]. unfold ready. rewrite Hdrop, HvI', HvD'.
    split; (split; [by apply prefix_pushed|by split]).
  - exists (y :: l :: E1). split; [done|]. unfold ready. rewrite Hdrop, HvI', HvD'.
    destruct (prefix_popped _ _ _ HrunI HXI) as [HpI Hy].
    destruct (prefix_popped _ _ _ HrunD HXD) as [HpD _].
    assert (units false (y :: l :: E1) = Some false) as Hu.
    { rewrite (units_cons_high y _ Hy). cbn [units]. rewrite Hl.
      destruct (isHighSurrogate (Some l)) eqn:Hh; [|done].
      exfalso. by apply (surrogate_kinds_disjoint (Some l)). }
    split; (split; [done|by split]).
Qed.

Lemma ready_closed k i (diffs : list Diff) (E : jsstring) st :
  ready k i diffs E st ->
  (forall c t, E = c :: t -> isLowSurrogate (Some c) = false) ->
  st = Closed.
Proof.
  intros (Hpre & Hu & _) Hfirst.
  pose proof (runv_done_state _ _ _ Hpre ltac:(done)) as Hst.
  destruct st as [|[|]]; [done|done|]. exfalso. cbn [is_open] in Hu.
  destruct E as [|c t]; [done|].
  pose proof (units_open_first _ _ _ Hu) as Hlow. by rewrite (Hfirst c t) in Hlow.
Qed.

(** The loop moves on to the next index. *)
Lemma ready_good k i (diffs : list Diff) (E : jsstring) :
  diffs !! i = Some (EQUAL, E) -> ready k i diffs E Closed -> good k (S i) diffs.
Proof.
  intros Hi (Hpre & Hu & Hsuf). exists Closed. split; [|done].
  rewrite (take_S_r _ _ _ Hi), view_app, view_single, entry_view_equal.
  rewrite runv_app, Hpre. cbn [mbind option_bind]. unfold ne. case_bool_decide; [done|].
  cbn [runv]. by rewrite stepv_done_equal.
Qed.

Lemma good_skip k i (diffs : list Diff) d :
  diffs !! i = Some d -> entry_view k d = [] -> good k i diffs -> good k (S i) diffs.
Proof.
  intros Hi Hd (st & Hpre & Hsuf). exists st.
  rewrite (take_S_r _ _ _ Hi), view_app, view_single, Hd, app_nil_r.
  by rewrite (drop_S _ _ _ Hi), view_cons, Hd in Hsuf.
Qed.

Lemma good_edit k i (diffs : list Diff) op (t : jsstring) :
  diffs !! i = Some (op, t) -> op <> EQUAL -> good k i diffs -> good k (S i) diffs.
Proof.
  intros Hi Hop Hgood.
  destruct (entry_view k (op, t)) as [|e rest] eqn:Hv; [by eapply good_skip|].
  unfold entry_view in Hv. cbn [fst snd] in Hv. apply Z.eqb_neq in Hop. rewrite Hop in Hv.
  destruct (negb (is_empty (op, t)) && (false || (op =? k))); [|done].
  injection Hv as <- <-. destruct Hgood as (st & Hpre & Hsuf).
  rewrite (drop_S _ _ _ Hi), view_cons in Hsuf. unfold entry_view in Hsuf.
  cbn [fst snd] in Hsuf. rewrite Hop in Hsuf.
  destruct (negb (is_empty (op, t)) && (false || (op =? k))) eqn:Hc.
  - cbn [app runv] in Hsuf.
    destruct (stepv true st (false, t)) as [st1|] eqn:Hstep; [|done].
    exists st1. split; [|done].
    rewrite (take_S_r _ _ _ Hi), view_app, view_single. unfold entry_view.
    cbn [fst snd]. rewrite Hop, Hc. rewrite runv_app, Hpre. cbn [mbind option_bind runv].
    assert (stepv false st (false, t) = stepv true st (false, t)) as ->; [|by rewrite Hstep].
    unfold stepv. cbn [fst snd].
    destruct (units (is_open st) t) as [[|]|]; by destruct st as [|[|]].
  - exists st. split; [|done].
    rewrite (take_S_r _ _ _ Hi), view_app, view_single. unfold entry_view.
    cbn [fst snd]. rewrite Hop, Hc. by rewrite app_nil_r.
Qed.

Lemma charAt_last (t : jsstring) (c : char) :
  charAt (t ++ [c]) (strlen (t ++ [c]) - 1) = Some c.
Proof.
  pose proof (splitChar_forward_snoc t c) as Hs. unfold splitChar in Hs. by injection Hs.
Qed.

(** One turn of the first loop of [adjustDiffForSurrogatePairs] keeps both
    sides in order. *)
Lemma repair_at_good (diffs : list Diff) i :
  (i < length diffs)%nat -> good INSERT i diffs -> good DELETE i diffs ->
  good INSERT (S i) (repair_at diffs i) /\ good DELETE (S i) (repair_at diffs i).
Proof.
  intros Hlt HgI HgD. destruct (lookup_lt_is_Some_2 diffs i Hlt) as [[op t] Hi].
  unfold repair_at. rewrite Hi.
  destruct (strlen t =? 0) eqn:Hlen.
  { apply Z.eqb_eq in Hlen. unfold strlen in Hlen.
    assert (t = []) as -> by (destruct t; [done|cbn [length] in Hlen; lia]).
    split; by eapply good_skip. }
  apply strlen_zero in Hlen.
  destruct (Z.eqb_spec op EQUAL) as [->|Hop].
  2:{ rewrite !andb_false_r. split; by eapply good_edit. }
  rewrite !andb_true_r.
  destruct (snoc_or_nil t) as [->|(E0 & c & Hlast)]; [done|].
  destruct t as [|f t1] eqn:Hfirst; [done|]. rewrite <- Hfirst in *.
  assert (charAt t 0 = Some f) as -> by (by rewrite Hfirst).
  assert (charAt t (strlen t - 1) = Some c) as -> by (rewrite Hlast; apply charAt_last).
  set (diffs1 := if isHighSurrogate (Some c) then deisolateChar diffs i Forward else diffs).
  assert (exists E', diffs1 !! i = Some (EQUAL, E')
                     /\ (E' = [] /\ isLowSurrogate (Some f) = false
                         \/ exists t1', E' = f :: t1')
                     /\ (exists st, ready INSERT i diffs1 E' st)
                     /\ (exists st, ready DELETE i diffs1 E' st))
    as (E' & Hi1 & HE' & [stI HrI] & [stD HrD]).
  { unfold diffs1. destruct (isHighSurrogate (Some c)) eqn:Hc.
    - rewrite Hlast in Hi.
      destruct (ready_forward i diffs E0 c Hi Hc HgI HgD) as (E' & Hl & HE' & HrI & HrD).
      exists E'. split; [done|]. split; [|by split].
      destruct HE' as [->|[y ->]].
      + destruct E0 as [|f' E0'].
        * left. split; [done|]. rewrite Hfirst in Hlast. injection Hlast as -> _.
          destruct (isLowSurrogate (Some c)) eqn:Hlow; [|done].
          exfalso. by apply (surrogate_kinds_disjoint (Some c)).
        * right. rewrite Hfirst in Hlast. injection Hlast as -> _. by exists E0'.
      + right. rewrite <- Hlast, Hfirst. by exists (t1 ++ [y]).
    - exists t. split; [done|]. split; [right; by exists t1|].
      rewrite Hlast in Hi |- *. split; by apply ready_as_is. }
  destruct (isLowSurrogate (Some f)) eqn:Hf.
  - destruct HE' as [[_ ?]|[t1' ->]]; [done|].
    destruct (ready_backward i diffs1 f t1' stI stD Hi1 Hf HrI HrD) as (E'' & Hi2 & HrI' & HrD').
    split; by eapply ready_good.
  - assert (forall c' t', E' = c' :: t' -> isLowSurrogate (Some c') = false) as Hclosed.
    { intros c' t' ->. destruct HE' as [[? _]|[t1' [= -> _]]]; done. }
    rewrite (ready_closed _ _ _ _ _ HrI Hclosed) in HrI.
    rewrite (ready_closed _ _ _ _ _ HrD Hclosed) in HrD.
    split; by eapply ready_good.
Qed.

(** *** The loop, start to end *)

Lemma repair_loop_good fuel (diffs : list Diff) i repaired :
  repair_loop fuel diffs i = Some repaired ->
  good INSERT i diffs -> good DELETE i diffs ->
  exists n, (length repaired <= n)%nat /\ good INSERT n repaired /\ good DELETE n repaired.
Proof.
  revert diffs i. induction fuel as [|fuel IH]; intros diffs i Hloop HgI HgD.
  - destruct (decide (i < length diffs)%nat) as [Hlt|Hge].
    + cbn in Hloop. by rewrite bool_decide_eq_true_2 in Hloop by lia.
    + rewrite repair_loop_done in Hloop by lia. injection Hloop as <-.
      exists i. split; [lia|done].
  - destruct (decide (i < length diffs)%nat) as [Hlt|Hge].
    + rewrite repair_loop_step in Hloop by done.
      destruct (repair_at_good diffs i Hlt HgI HgD) as [HgI' HgD'].
      by apply (IH _ _ Hloop).
    + rewrite repair_loop_done in Hloop by lia. injection Hloop as <-.
      exists i. split; [lia|done].
Qed.

(** Once the loop has visited every entry, every text of the side is a
    sequence of whole characters. *)
Lemma runv_done_closed v :
  runv false Closed v = Some Closed -> Forall (fun e => units false e.2 = Some false) v.
Proof.
  induction v as [|e v IH]; [done|]. cbn [runv].
  destruct (stepv false Closed e) as [st|] eqn:Hstep; [|done]. cbn [mbind option_bind].
  unfold stepv in Hstep. cbn [is_open] in Hstep.
  destruct (units false e.2) as [o|] eqn:Hu; [|done].
  destruct (_ || _); [done|]. injection Hstep as <-. rewrite andb_false_r.
  destruct o.
  - intros Hrun. exfalso. destruct v as [|e' v']; [done|]. cbn [runv] in Hrun.
    unfold stepv in Hrun. destruct (units (is_open (Open false)) e'.2); [|done].
    by rewrite andb_false_r, orb_true_r in Hrun.
  - intros Hrun. constructor; [done|by apply IH].
Qed.

Lemma good_end k n (diffs : list Diff) :
  (length diffs <= n)%nat -> good k n diffs ->
  Forall (fun e => units false e.2 = Some false) (view k diffs).
Proof.
  intros Hn (st & Hpre & Hsuf). rewrite take_ge in Hpre by done.
  rewrite drop_ge in Hsuf by done. injection Hsuf as ->. by apply runv_done_closed.
Qed.

Lemma good_paired n (diffs : list Diff) :
  (length diffs <= n)%nat -> good INSERT n diffs -> good DELETE n diffs ->
  Forall (fun d : Diff => known_type d.1 = true -> paired d.2 = true) diffs.
Proof.
  intros Hn HgI HgD. apply Forall_forall. intros [op t] Hd Hop. cbn [fst snd] in *.
  destruct (decide (t = [])) as [->|Ht]; [done|]. apply paired_units.
  assert (exists k b, (b, t) ∈ view k diffs /\ (k = INSERT \/ k = DELETE)) as (k & b & Hin & Hk).
  { unfold known_type in Hop. apply orb_true_iff in Hop as [Hop|Hop];
      [apply orb_true_iff in Hop as [Hop|Hop]|]; apply Z.eqb_eq in Hop; subst op.
    - exists DELETE, false. split; [|by right]. apply list_elem_of_bind.
      exists (DELETE, t). split; [|done]. rewrite entry_view_edit by done. by left.
    - exists INSERT, false. split; [|by left]. apply list_elem_of_bind.
      exists (INSERT, t). split; [|done]. rewrite entry_view_edit by done. by left.
    - exists INSERT, true. split; [|by left]. apply list_elem_of_bind.
      exists (EQUAL, t). split; [|done]. rewrite entry_view_kept by done. by left. }
  assert (Forall (fun e => units false e.2 = Some false) (view k diffs)) as Hall.
  { destruct Hk as [->| ->]; by eapply good_end. }
  rewrite Forall_forall in Hall. exact (Hall _ Hin).
Qed.

(** The sweep only takes entries away. *)
Lemma sweep_loop_Forall (P : Diff -> Prop) fuel (diffs : list Diff) i swept_diffs :
  Forall P diffs -> sweep_loop fuel diffs i = Some swept_diffs -> Forall P swept_diffs.
Proof.
  revert diffs i. induction fuel as [|fuel IH]; intros diffs i HP; cbn [sweep_loop].
  - case_bool_decide; [done|]. by intros [= <-].
  - case_bool_decide; [|by intros [= <-]].
    destruct (strlen (text_at diffs i) =? 0); apply IH; [by apply Forall_delete|done].
Qed.

(** The repair of a script whose two sides are in order returns entries
    that are sequences of whole characters. *)
Lemma adjust_paired fuel (diffs repaired : list Diff) :
  adjustDiffForSurrogatePairs fuel diffs = Some repaired ->
  good INSERT 0 diffs -> good DELETE 0 diffs ->
  Forall (fun d : Diff => known_type d.1 = true -> paired d.2 = true) repaired.
Proof.
  unfold adjustDiffForSurrogatePairs. intros Hadj HgI HgD.
  destruct (repair_loop fuel diffs 0) as [mid|] eqn:Hmid; [|done].
  cbn [mbind option_bind] in Hadj.
  destruct (repair_loop_good _ _ _ _ Hmid HgI HgD) as (n & Hn & HgI' & HgD').
  eapply sweep_loop_Forall; [|done]. by eapply good_paired.
Qed.

(** *** The script that merge cleanup hands over *)

Definition may_follow (t t' : DiffType) : bool :=
  if t =? DELETE then (t' =? INSERT) || (t' =? EQUAL)
  else if t =? INSERT then t' =? EQUAL
  else (t' =? DELETE) || (t' =? INSERT).

(** Modelled from the spec: the form of a script after merge cleanup, whose
    module is not among the sources.  The entries are of the three kinds
    and none is empty; the edits between two EQUAL entries are at most one
    DELETE followed by at most one INSERT; no two EQUAL entries are
    neighbours. *)
Fixpoint merged (diffs : list Diff) : bool :=
  match diffs with
  | [] => true
  | d :: rest =>
      known_type d.1 && negb (is_empty d)
      && match rest with
         | d' :: _ => may_follow d.1 d'.1
         | [] => true
         end
      && merged rest
  end.

(** No two edits in a row on a side. *)
Fixpoint separated (v : list (bool * jsstring)) : bool :=
  match v with
  | [] => true
  | e :: rest =>
      match rest with
      | e' :: _ => e.1 || e'.1
      | [] => true
      end && separated rest
  end.

(** A side that is empty or starts with an EQUAL entry. *)
Definition starts_kept (v : list (bool * jsstring)) : Prop :=
  match v with
  | [] => True
  | e :: _ => e.1 = true
  end.

Lemma merged_cons (d : Diff) (rest : list Diff) :
  merged (d :: rest) = true ->
  known_type d.1 = true /\ d.2 <> []
  /\ match rest with
     | d' :: _ => may_follow d.1 d'.1 = true
     | [] => True
     end
  /\ merged rest = true.
Proof.
  cbn [merged]. rewrite !andb_true_iff, negb_true_iff. intros [[[Hk He] Hf] Hm].
  split; [done|]. split; [|split; [by destruct rest|done]].
  destruct d as [op t]. rewrite is_empty_spec in He. by apply bool_decide_eq_false in He.
Qed.

Lemma merged_after_insert k (t : jsstring) (rest : list Diff) :
  merged ((INSERT, t) :: rest) = true -> starts_kept (view k rest).
Proof.
  intros (_ & _ & Hf & Hm)%merged_cons. destruct rest as [|[op' t'] rest']; [done|].
  cbn [fst] in Hf. unfold may_follow in Hf. change (INSERT =? DELETE) with false in Hf.
  change (INSERT =? INSERT) with true in Hf. cbn match in Hf. apply Z.eqb_eq in Hf as ->.
  apply merged_cons in Hm as (_ & Ht' & _). cbn [snd] in Ht'.
  by rewrite view_cons, entry_view_kept.
Qed.

Lemma merged_after_delete (t : jsstring) (rest : list Diff) :
  merged ((DELETE, t) :: rest) = true -> starts_kept (view DELETE rest).
Proof.
  intros (_ & _ & Hf & Hm)%merged_cons. destruct rest as [|[op' t'] rest']; [done|].
  cbn [fst] in Hf. unfold may_follow in Hf. change (DELETE =? DELETE) with true in Hf.
  cbn match in Hf. apply orb_true_iff in Hf as [Hf|Hf]; apply Z.eqb_eq in Hf as ->.
  - rewrite view_cons, entry_view_other by done. by eapply merged_after_insert.
  - apply merged_cons in Hm as (_ & Ht' & _). cbn [snd] in Ht'.
    by rewrite view_cons, entry_view_kept.
Qed.

Lemma merged_separated k (diffs : list Diff) :
  k = INSERT \/ k = DELETE -> merged diffs = true -> separated (view k diffs) = true.
Proof.
  intros Hk. induction diffs as [|[op t] rest IH]; [done|]. intros Hm.
  pose proof Hm as (Hop & Ht & _ & Hrest)%merged_cons. cbn [fst snd] in Hop, Ht.
  specialize (IH Hrest). rewrite view_cons.
  assert (forall b, starts_kept (view k rest) ->
                    separated ([(b, t)] ++ view k rest) = true) as Hedit.
  { intros b Hs. cbn [app separated]. rewrite IH, andb_true_r.
    destruct (view k rest) as [|e' v']; [done|]. cbn in Hs. rewrite Hs. apply orb_true_r. }
  unfold known_type in Hop. apply orb_true_iff in Hop as [Hop|Hop];
    [apply orb_true_iff in Hop as [Hop|Hop]|]; apply Z.eqb_eq in Hop; subst op.
  - destruct Hk as [->| ->].
    + by rewrite entry_view_other.
    + rewrite entry_view_edit by done. apply Hedit. by eapply merged_after_delete.
  - destruct Hk as [->| ->].
    + rewrite entry_view_edit by done. apply Hedit. by eapply merged_after_insert.
    + by rewrite entry_view_other.
  - rewrite entry_view_kept by done. cbn [app separated]. rewrite IH, andb_true_r.
    by destruct (view k rest).
Qed.

(** The texts of a side, one after the other. *)
Definition side_text (v : list (bool * jsstring)) : jsstring := mjoin (snd <$> v).

Lemma side_text_view k (diffs : list Diff) :
  side_text (view k diffs)
  = concat ((fun d : Diff => if (d.1 =? EQUAL) || (d.1 =? k) then d.2 else []) <$> diffs).
Proof.
  induction diffs as [|[op t] rest IH]; [done|].
  rewrite view_cons. unfold side_text in *. rewrite fmap_app, join_app, IH.
  cbn [fmap list_fmap concat fst snd]. f_equal.
  unfold entry_view. rewrite is_empty_spec. cbn [fst snd].
  case_bool_decide as Ht.
  - subst t. cbn. by destruct ((op =? EQUAL) || (op =? k)).
  - cbn [negb andb]. destruct ((op =? EQUAL) || (op =? k)); [|done]. cbn. apply app_nil_r.
Qed.

(** A side with no two edits in a row, whose text is a sequence of whole
    characters, is in order before the loop starts. *)
Lemma runv_separated v st :
  separated v = true -> (st = Open false -> starts_kept v) ->
  units (is_open st) (side_text v) = Some false ->
  runv true st v = Some Closed.
Proof.
  revert st. induction v as [|[b t] v IH]; intros st Hsep Hst Hu.
  - cbn in Hu. injection Hu as Hu. by destruct st.
  - unfold side_text in Hu. cbn [fmap list_fmap mjoin list_join snd] in Hu.
    rewrite units_app in Hu.
    destruct (units (is_open st) t) as [o|] eqn:Ht; [|done]. cbn [mbind option_bind] in Hu.
    cbn [separated] in Hsep. apply andb_true_iff in Hsep as [Hhead Hsep].
    cbn [runv].
    assert (stepv true st (b, t) = Some (if o then Open b else Closed)) as ->.
    { unfold stepv. cbn [fst snd]. rewrite Ht. rewrite andb_false_r, andb_true_r.
      destruct st as [|[|]]; cbn [orb]; try done.
      specialize (Hst eq_refl). cbn in Hst. by subst b. }
    cbn [mbind option_bind]. apply IH; [done| |by destruct o].
    destruct o; [|done]. intros [= ->]. destruct v as [|e' v']; [done|].
    cbn [fst] in Hhead. done.
Qed.

Lemma merged_good k (diffs : list Diff) :
  k = INSERT \/ k = DELETE -> merged diffs = true ->
  paired (side_text (view k diffs)) = true -> good k 0 diffs.
Proof.
  intros Hk Hm Hp. exists Closed. rewrite take_0, drop_0. split; [done|].
  apply runv_separated; [by apply merged_separated|done|by apply paired_units].
Qed.

(** *** [diff] *)

(** The script that [diff] hands to the repair. *)
Definition handed_over
    (commonPrefix commonSuffix : jsstring -> jsstring -> Z)
    (compute_ : jsstring -> jsstring -> InternalDiffOptions -> list Diff)
    (cleanupMerge : list Diff -> list Diff)
    (now : Q) (a b : jsstring) (opts : option DiffOptions) : list Diff :=
  _diff commonPrefix commonSuffix compute_ cleanupMerge a b
    (createInternalOpts now (default {| opt_checkLines := None; opt_timeout := None |} opts)).

Lemma diff_repairs_handed_over
    (commonPrefix commonSuffix : jsstring -> jsstring -> Z)
    (compute_ : jsstring -> jsstring -> InternalDiffOptions -> list Diff)
    (cleanupMerge : list Diff -> list Diff)
    fuel now (a b : jsstring) (opts : option DiffOptions) :
  diff commonPrefix commonSuffix compute_ cleanupMerge fuel now (Some a) (Some b) opts
  = Returns <$> adjustDiffForSurrogatePairs fuel
                  (handed_over commonPrefix commonSuffix compute_ cleanupMerge now a b opts).
Proof. unfold diff, handed_over. cbn. by destruct (adjustDiffForSurrogatePairs _ _). Qed.

(** C2: for two texts that are sequences of whole characters (every
    surrogate has its partner), when the script handed to the repair
    reconstructs the two texts and has the form merge cleanup gives it,
    [diff] returns a script in which the text of every EQUAL, INSERT and
    DELETE entry is a sequence of whole characters: it neither starts with
    a low surrogate nor ends with a high one. *)
Theorem diff_keeps_pairs_together
    (commonPrefix commonSuffix : jsstring -> jsstring -> Z)
    (compute_ : jsstring -> jsstring -> InternalDiffOptions -> list Diff)
    (cleanupMerge : list Diff -> list Diff)
    (fuel : nat) (now : Q) (a b : jsstring) (opts : option DiffOptions) :
  paired a = true -> paired b = true ->
  merged (handed_over commonPrefix commonSuffix compute_ cleanupMerge now a b opts) = true ->
  text1 (handed_over commonPrefix commonSuffix compute_ cleanupMerge now a b opts) = a ->
  text2 (handed_over commonPrefix commonSuffix compute_ cleanupMerge now a b opts) = b ->
  (repair_budget (handed_over commonPrefix commonSuffix compute_ cleanupMerge now a b opts)
   <= fuel)%nat ->
  exists script,
    diff commonPrefix commonSuffix compute_ cleanupMerge fuel now (Some a) (Some b) opts
    = Some (Returns script)
    /\ Forall (fun d : Diff =>
                 known_type d.1 = true -> paired d.2 = true /\ closed_ends d.2 = true)
              script.
Proof.
  intros Ha Hb Hm H1 H2 Hfuel. rewrite diff_repairs_handed_over.
  set (script0 := handed_over _ _ _ _ _ _ _ _) in *.
  destruct (adjust_returns fuel script0 Hfuel) as [script Hadj].
  exists script. rewrite Hadj. split; [done|].
  assert (good INSERT 0 script0) as HgI.
  { apply merged_good; [by left|done|]. rewrite side_text_view. by rewrite <- H2 in Hb. }
  assert (good DELETE 0 script0) as HgD.
  { apply merged_good; [by right|done|]. rewrite side_text_view. by rewrite <- H1 in Ha. }
  pose proof (adjust_paired fuel script0 script Hadj HgI HgD) as Hall.
  eapply Forall_impl; [exact Hall|]. intros d Hd Hk. specialize (Hd Hk).
  split; [done|]. by apply units_closed_ends, paired_units.
Qed.

(** A stand-in for the import [commonPrefix] that counts code units and so
    cuts between the two halves of a pair. *)
Fixpoint unit_prefix (a b : jsstring) : Z :=
  match a, b with
  | x :: a, y :: b => if x =? y then 1 + unit_prefix a b else 0
  | _, _ => 0
  end.

Lemma diff_keeps_pairs_together_example :
  exists script,
    diff unit_prefix no_affix replace_all keep 9 0 (Some [hi1; lo1]) (Some [hi1; lo2]) None
    = Some (Returns script)
    /\ Forall (fun d : Diff =>
                 known_type d.1 = true -> paired d.2 = true /\ closed_ends d.2 = true)
              script.
Proof.
  apply (diff_keeps_pairs_together unit_prefix no_affix replace_all keep
           9 0 [hi1; lo1] [hi1; lo2] None);
    [reflexivity | reflexivity | reflexivity | reflexivity | reflexivity | vm_compute; lia].
Defined.

(** There the script handed over keeps the high surrogate the two texts
    share and replaces the low one; the repair moves the high surrogate
    into both edits. *)
Lemma diff_repairs_split_pair :
  handed_over unit_prefix no_affix replace_all keep 0 [hi1; lo1] [hi1; lo2] None
  = [(EQUAL, [hi1]); (DELETE, [lo1]); (INSERT, [lo2])]
  /\ diff unit_prefix no_affix replace_all keep 9 0 (Some [hi1; lo1]) (Some [hi1; lo2]) None
     = Some (Returns [(DELETE, [hi1; lo1]); (INSERT, [hi1; lo2])]).
Proof. split; reflexivity. Qed.

(** * Further properties *)

(** ** [levenshtein]: errors, bounds, symmetry *)

Lemma levenshtein_loop_throws (diffs : list Diff) leven insertions deletions :
  levenshtein_loop diffs leven insertions deletions = Throws UnknownOperation
  <-> Exists (fun d : Diff => known_type d.1 = false) diffs.
Proof.
  revert leven insertions deletions.
  induction diffs as [|[op data] diffs IH]; intros leven insertions deletions.
  - cbn. split; [done|by inversion 1].
  - cbn [levenshtein_loop]. rewrite Exists_cons. cbn [fst]. unfold known_type.
    destruct (Z.eqb_spec op INSERT) as [->|Hi].
    { rewrite IH. cbn. split; [by right|by intros [|]]. }
    destruct (Z.eqb_spec op DELETE) as [->|Hd].
    { rewrite IH. cbn. split; [by right|by intros [|]]. }
    destruct (Z.eqb_spec op EQUAL) as [->|He].
    { rewrite IH. cbn. split; [by right|by intros [|]]. }
    split; [by left|done].
Qed.

(** X1: [levenshtein] throws its error exactly when some entry of the
    script is of none of the three kinds; the texts do not matter. *)
Theorem levenshtein_throws_on_unknown_kind (diffs : list Diff) :
  levenshtein diffs = Throws UnknownOperation
  <-> Exists (fun d : Diff => known_type d.1 = false) diffs.
Proof.
  unfold levenshtein. split.
  - intros Hthrow. by apply levenshtein_loop_throws in Hthrow.
  - intros Hbad. by apply levenshtein_loop_throws.
Qed.

(** The loop between its bounds, whatever it starts with. *)
Lemma levenshtein_loop_bounds (diffs : list Diff) leven insertions deletions n :
  0 <= insertions -> 0 <= deletions ->
  levenshtein_loop diffs leven insertions deletions = Returns n ->
  leven + Z.max (insertions + length_of INSERT diffs) (deletions + length_of DELETE diffs) <= n
  /\ n <= leven + (insertions + length_of INSERT diffs) + (deletions + length_of DELETE diffs).
Proof.
  revert leven insertions deletions.
  induction diffs as [|[op data] diffs IH]; intros leven insertions deletions Hi Hd.
  - cbn. intros [= <-]. lia.
  - cbn [levenshtein_loop length_of fst snd]. pose proof (strlen_nonneg data) as Hlen.
    pose proof (length_of_nonneg INSERT diffs). pose proof (length_of_nonneg DELETE diffs).
    destruct (Z.eqb_spec op INSERT) as [->|Hop].
    { change (INSERT =? DELETE) with false. cbn match. intros Hloop.
      apply IH in Hloop; lia. }
    destruct (Z.eqb_spec op DELETE) as [->|Hop'].
    { intros Hloop. apply IH in Hloop; lia. }
    destruct (op =? EQUAL); [|done].
    intros Hloop. apply IH in Hloop; lia.
Qed.

(** X2: the count [levenshtein] returns lies between the larger of the
    total inserted and the total deleted length and their sum. *)
Theorem levenshtein_between_max_and_sum (diffs : list Diff) n :
  levenshtein diffs = Returns n ->
  Z.max (length_of INSERT diffs) (length_of DELETE diffs) <= n
  /\ n <= length_of INSERT diffs + length_of DELETE diffs.
Proof.
  unfold levenshtein. intros Hloop.
  apply levenshtein_loop_bounds in Hloop; [|lia|lia]. lia.
Qed.

Lemma levenshtein_between_max_and_sum_example :
  levenshtein [(DELETE, js "ab"); (EQUAL, js "c"); (INSERT, js "xyz")] = Returns 5
  /\ Z.max (length_of INSERT [(DELETE, js "ab"); (EQUAL, js "c"); (INSERT, js "xyz")])
           (length_of DELETE [(DELETE, js "ab"); (EQUAL, js "c"); (INSERT, js "xyz")]) <= 5
  /\ 5 <= length_of INSERT [(DELETE, js "ab"); (EQUAL, js "c"); (INSERT, js "xyz")]
          + length_of DELETE [(DELETE, js "ab"); (EQUAL, js "c"); (INSERT, js "xyz")].
Proof.
  split; [reflexivity|].
  apply (levenshtein_between_max_and_sum
           [(DELETE, js "ab"); (EQUAL, js "c"); (INSERT, js "xyz")] 5).
  reflexivity.
Defined.

(** The script read backwards in time: what was inserted is deleted and
    what was deleted is inserted. *)
Definition inverse (diffs : list Diff) : list Diff :=
  (fun d : Diff =>
     (if d.1 =? INSERT then DELETE else if d.1 =? DELETE then INSERT else d.1, d.2))
    <$> diffs.

(** X3: [levenshtein] does not tell a script from its inverse: exchanging
    INSERT and DELETE leaves the outcome, count or error, as it is. *)
Theorem levenshtein_of_inverse (diffs : list Diff) :
  levenshtein (inverse diffs) = levenshtein diffs.
Proof.
  unfold levenshtein.
  enough (forall leven insertions deletions,
             levenshtein_loop (inverse diffs) leven insertions deletions
             = levenshtein_loop diffs leven deletions insertions) as H by apply H.
  induction diffs as [|[op data] diffs IH]; intros leven insertions deletions.
  - cbn. f_equal. lia.
  - cbn [inverse fmap list_fmap levenshtein_loop fst snd]. fold (inverse diffs).
    destruct (Z.eqb_spec op INSERT) as [->|Hi].
    { change (DELETE =? INSERT) with false. change (DELETE =? DELETE) with true.
      cbn match. apply IH. }
    destruct (Z.eqb_spec op DELETE) as [->|Hd].
    { change (INSERT =? INSERT) with true. cbn match. apply IH. }
    apply Z.eqb_neq in Hi, Hd. rewrite Hi, Hd.
    destruct (op =? EQUAL); [|done]. rewrite IH. f_equal. lia.
Qed.

Lemma levenshtein_loop_shift (diffs : list Diff) leven insertions deletions extra :
  levenshtein_loop diffs (leven + extra) insertions deletions
  = match levenshtein_loop diffs leven insertions deletions with
    | Returns n => Returns (n + extra)
    | Throws e => Throws e
    end.
Proof.
  revert leven insertions deletions.
  induction diffs as [|[op data] diffs IH]; intros leven insertions deletions.
  - cbn. f_equal. lia.
  - cbn [levenshtein_loop].
    destruct (op =? INSERT); [apply IH|]. destruct (op =? DELETE); [apply IH|].
    destruct (op =? EQUAL); [|done].
    replace (leven + extra + Z.max insertions deletions)
      with (leven + Z.max insertions deletions + extra) by lia.
    apply IH.
Qed.

(** X4: an EQUAL entry cuts the count in two: the count of a script is the
    count of what comes before the entry plus the count of what comes
    after, and the text of the entry plays no part. *)
Theorem levenshtein_adds_across_equal (before after : list Diff) (t : jsstring) n1 n2 :
  levenshtein before = Returns n1 -> levenshtein after = Returns n2 ->
  levenshtein (before ++ (EQUAL, t) :: after) = Returns (n1 + n2).
Proof.
  unfold levenshtein. intros H1 H2.
  enough (forall leven insertions deletions m,
             levenshtein_loop before leven insertions deletions = Returns m ->
             levenshtein_loop (before ++ (EQUAL, t) :: after) leven insertions deletions
             = Returns (n2 + m)) as H.
  { rewrite (H 0 0 0 n1 H1). f_equal. lia. }
  clear H1. induction before as [|[op data] before IH]; intros leven insertions deletions m.
  - cbn [levenshtein_loop app]. intros [= <-]. change (EQUAL =? INSERT) with false.
    change (EQUAL =? DELETE) with false. change (EQUAL =? EQUAL) with true. cbn match.
    replace (leven + Z.max insertions deletions)
      with (0 + (leven + Z.max insertions deletions)) at 1 by lia.
    rewrite levenshtein_loop_shift, H2. done.
  - cbn [levenshtein_loop app].
    destruct (op =? INSERT); [apply IH|]. destruct (op =? DELETE); [apply IH|].
    destruct (op =? EQUAL); [apply IH|done].
Qed.

Lemma levenshtein_adds_across_equal_example :
  levenshtein [(DELETE, js "ab"); (INSERT, js "x")] = Returns 2
  /\ levenshtein [(INSERT, js "yz")] = Returns 2
  /\ levenshtein ([(DELETE, js "ab"); (INSERT, js "x")] ++ (EQUAL, js "kept") :: [(INSERT, js "yz")])
     = Returns (2 + 2).
Proof.
  split; [reflexivity|]. split; [reflexivity|].
  apply (levenshtein_adds_across_equal
           [(DELETE, js "ab"); (INSERT, js "x")] [(INSERT, js "yz")] (js "kept") 2 2);
    reflexivity.
Defined.

(** ** [toDelta]: errors and what the delta is made of *)

Lemma toDelta_loop_returns (diffs : list Diff) (text : list jsstring) :
  (exists out, toDelta_loop diffs text = Returns out)
  <-> well_typed diffs /\ Forall (fun d : Diff => d.1 = INSERT -> paired d.2 = true) diffs.
Proof.
  revert text. induction diffs as [|[op data] diffs IH]; intros text.
  - cbn. split; [by intros _; split; constructor|by eauto].
  - cbn [toDelta_loop]. unfold well_typed. rewrite !Forall_cons. cbn [fst snd].
    fold (well_typed diffs). unfold known_type.
    destruct (Z.eqb_spec op INSERT) as [->|Hi].
    { destruct (encodeURI data) as [encoded|] eqn:He.
      - rewrite IH. assert (paired data = true) by (apply encodeURI_paired; by eexists).
        cbn. tauto.
      - split; [by intros [? ?]|]. intros [_ [Hp _]].
        apply (proj2 (encodeURI_paired data)) in Hp; [|done]. rewrite He in Hp.
        by destruct Hp. }
    destruct (Z.eqb_spec op DELETE) as [->|Hd].
    { rewrite IH. cbn. split; [tauto|]. intros [[_ ?] [_ ?]]. tauto. }
    destruct (Z.eqb_spec op EQUAL) as [->|He].
    { rewrite IH. cbn. split; [tauto|]. intros [[_ ?] [_ ?]]. tauto. }
    split; [by intros [? ?]|]. by intros [[? _] _].
Qed.

(** X5: [toDelta] returns a delta exactly when every entry of the script is
    of one of the three kinds and no inserted text holds a surrogate
    without its partner; otherwise it throws. *)
Theorem toDelta_returns_iff (diffs : list Diff) :
  (exists delta, toDelta diffs = Returns delta)
  <-> well_typed diffs /\ Forall (fun d : Diff => d.1 = INSERT -> paired d.2 = true) diffs.
Proof.
  rewrite <- (toDelta_loop_returns diffs []). unfold toDelta. split.
  - intros [delta Hd]. destruct (toDelta_loop diffs []) as [out|]; [by eexists|done].
  - intros [out ->]. by eexists.
Qed.

(** A printable ASCII character, the space included. *)
Definition printable (c : char) : Prop := 32 <= c <= 126.

Lemma uri_unescaped_printable c : uri_unescaped c = true -> printable c.
Proof.
  intros H. unfold printable. unfold uri_unescaped in H.
  repeat (apply orb_true_iff in H as [H|H]).
  - unfold in_range in H. cbn in H. eval_codes_in H. lia.
  - unfold in_range in H. cbn in H. eval_codes_in H. lia.
  - unfold in_range in H. cbn in H. eval_codes_in H. lia.
  - apply bool_decide_eq_true_1 in H.
    apply list_elem_of_In in H. cbn in H. eval_codes_in H. lia.
  - apply bool_decide_eq_true_1 in H.
    apply list_elem_of_In in H. cbn in H. eval_codes_in H. lia.
Qed.

Lemma hex_digit_printable n : printable (hex_digit n).
Proof.
  unfold hex_digit, printable. generalize (Z.to_nat n). intros k.
  do 17 (destruct k as [|k]; [cbn; eval_codes; lia|]). cbn. lia.
Qed.

Lemma escape_printable cp : Forall printable (escape cp).
Proof.
  unfold escape. apply Forall_forall. intros c Hc.
  apply list_elem_of_join in Hc as (piece & Hc & Hpiece).
  apply list_elem_of_fmap in Hpiece as (octet & -> & _).
  unfold percent in Hc. apply elem_of_app in Hc as [Hc|Hc].
  - apply list_elem_of_In in Hc. destruct Hc as [<-|[]]. unfold printable. by vm_compute.
  - apply list_elem_of_In in Hc. destruct Hc as [<-|[<-|[]]]; apply hex_digit_printable.
Qed.

Lemma encodeURI_printable s encoded : encodeURI s = Some encoded -> Forall printable encoded.
Proof.
  revert encoded. induction s as [s IH] using list_induction_by_length. intros encoded.
  destruct s as [|c rest]; [cbn; intros [= <-]; constructor|].
  cbn [encodeURI].
  destruct (uri_unescaped c) eqn:Hu.
  { destruct (encodeURI rest) as [e|] eqn:He; [|done]. cbn. intros [= <-].
    constructor; [by apply uri_unescaped_printable | apply (IH rest); [cbn; lia|done]]. }
  destruct (isHighSurrogate (Some c)).
  - destruct rest as [|d rest']; [done|].
    destruct (isLowSurrogate (Some d)); [|done].
    destruct (encodeURI rest') as [e|] eqn:He; [|done]. cbn. intros [= <-].
    apply Forall_app. split; [apply escape_printable | apply (IH rest'); [cbn; lia|done]].
  - destruct (isLowSurrogate (Some c)); [done|].
    destruct (encodeURI rest) as [e|] eqn:He; [|done]. cbn. intros [= <-].
    apply Forall_app. split; [apply escape_printable | apply (IH rest); [cbn; lia|done]].
Qed.

Lemma digits_printable s : Forall is_digit s -> Forall printable s.
Proof. intros H. eapply Forall_impl; [done|]. unfold is_digit, printable. intros; lia. Qed.

Lemma toDelta_loop_printable (diffs : list Diff) (text out : list jsstring) :
  Forall (Forall printable) text -> toDelta_loop diffs text = Returns out ->
  Forall (Forall printable) out.
Proof.
  revert text. induction diffs as [|[op data] diffs IH]; intros text Htext.
  - cbn. by intros [= <-].
  - cbn [toDelta_loop]. pose proof (digits_printable _ (decimal_digits (strlen data))) as Hdig.
    assert (forall (sign : jsstring) body,
               Forall printable sign -> Forall printable body ->
               Forall (Forall printable) (text ++ [sign ++ body])) as Hmore.
    { intros sign body Hs Hb. apply Forall_app. split; [done|].
      constructor; [|done]. by apply Forall_app. }
    destruct (op =? INSERT).
    { destruct (encodeURI data) as [encoded|] eqn:He; [|done].
      apply IH, Hmore; [|by eapply encodeURI_printable].
      repeat constructor; unfold printable; by vm_compute. }
    destruct (op =? DELETE).
    { apply IH, Hmore; [|done]. repeat constructor; unfold printable; by vm_compute. }
    destruct (op =? EQUAL); [|done].
    apply IH, Hmore; [|done]. repeat constructor; unfold printable; by vm_compute.
Qed.

(** A tab or a printable ASCII character. *)
Definition delta_unit (c : char) : Prop := c = 9 \/ printable c.

Lemma join_tab_units (parts : list jsstring) :
  Forall (Forall printable) parts -> Forall delta_unit (join tab parts).
Proof.
  induction 1 as [|p parts Hp _ IH]; [constructor|].
  assert (Forall delta_unit p) as Hp'.
  { eapply Forall_impl; [done|]. intros c Hc. by right. }
  destruct parts as [|q parts]; [done|].
  change (join tab (p :: q :: parts)) with (p ++ tab ++ join tab (q :: parts)).
  apply Forall_app. split; [done|]. apply Forall_app. split; [|done].
  constructor; [by left|constructor].
Qed.

Lemma replace_pct20_units s : Forall delta_unit s -> Forall delta_unit (replace_pct20 s).
Proof.
  induction s as [s IH] using list_induction_by_length. intros Hs.
  destruct s as [|c [|c2 [|c3 rest']]]; try done.
  inversion Hs as [|? ? Hc Hs1]; subst. inversion Hs1 as [|? ? Hc2 Hs2]; subst.
  inversion Hs2 as [|? ? Hc3 Hs3]; subst.
  rewrite replace_pct20_unfold. case_bool_decide.
  - apply Forall_app. split; [|apply IH; [cbn; lia|done]].
    change (js " ") with [32]. constructor; [|constructor]. right. unfold printable. lia.
  - constructor; [done|]. apply IH; [cbn; lia|done].
Qed.

(** X6: a delta that [toDelta] returns is plain ASCII: every code unit is
    a tab or a printable character, whatever the inserted texts hold. *)
Theorem toDelta_is_ascii (diffs : list Diff) (delta : jsstring) :
  toDelta diffs = Returns delta -> Forall delta_unit delta.
Proof.
  unfold toDelta. destruct (toDelta_loop diffs []) as [out|] eqn:Hloop; [|done].
  intros [= <-]. apply replace_pct20_units, join_tab_units.
  by eapply toDelta_loop_printable.
Qed.

Lemma toDelta_is_ascii_example :
  toDelta [(EQUAL, js "ab"); (INSERT, [233; hi1; lo1; 32])]
  = Returns (js "=2" ++ tab ++ js "+%C3%A9%F0%90%80%80 ")
  /\ Forall delta_unit (js "=2" ++ tab ++ js "+%C3%A9%F0%90%80%80 ").
Proof.
  split; [reflexivity|].
  apply (toDelta_is_ascii [(EQUAL, js "ab"); (INSERT, [233; hi1; lo1; 32])]).
  reflexivity.
Defined.

(** Two entries that [toDelta] cannot tell apart: the same kind, and the
    same text when they are INSERT entries, the same length otherwise. *)
Definition same_token (d d' : Diff) : Prop :=
  d.1 = d'.1 /\ if d.1 =? INSERT then d.2 = d'.2 else length d.2 = length d'.2.

(** X7: the delta holds none of the deleted or kept text, only its length:
    two scripts whose entries agree in kind, in inserted text and in the
    length of every other text have the same outcome of [toDelta]. *)
Theorem toDelta_keeps_lengths_only (diffs diffs' : list Diff) :
  Forall2 same_token diffs diffs' -> toDelta diffs = toDelta diffs'.
Proof.
  intros Hsame. unfold toDelta.
  enough (forall text, toDelta_loop diffs text = toDelta_loop diffs' text) as -> by done.
  induction Hsame as [|[op data] [op' data'] diffs diffs' [Hop Hdata] _ IH]; intros text;
    [done|].
  cbn [fst snd] in Hop, Hdata. subst op'. cbn [toDelta_loop].
  destruct (op =? INSERT).
  - subst data'. destruct (encodeURI data); [apply IH|done].
  - unfold strlen. rewrite Hdata.
    destruct (op =? DELETE); [apply IH|]. destruct (op =? EQUAL); [apply IH|done].
Qed.

Lemma toDelta_keeps_lengths_only_example :
  toDelta [(EQUAL, js "kept"); (DELETE, js "old"); (INSERT, js "new")]
  = toDelta [(EQUAL, js "four"); (DELETE, js "xyz"); (INSERT, js "new")].
Proof.
  apply (toDelta_keeps_lengths_only
           [(EQUAL, js "kept"); (DELETE, js "old"); (INSERT, js "new")]
           [(EQUAL, js "four"); (DELETE, js "xyz"); (INSERT, js "new")]).
  repeat constructor.
Defined.

(** [s.split(sep)] for a separator of one code unit. *)
Fixpoint split_at (sep : char) (s : jsstring) : list jsstring :=
  match s with
  | [] => [[]]
  | c :: rest =>
      if c =? sep then [] :: split_at sep rest
      else
        match split_at sep rest with
        | part :: parts => (c :: part) :: parts
        | [] => [[c]]
        end
  end.

Lemma split_at_no_sep sep (s : jsstring) :
  Forall (fun c => c <> sep) s -> split_at sep s = [s].
Proof.
  induction 1 as [|c rest Hc _ IH]; [done|]. cbn [split_at].
  apply Z.eqb_neq in Hc. by rewrite Hc, IH.
Qed.

Lemma split_at_app sep (s rest : jsstring) :
  Forall (fun c => c <> sep) s ->
  split_at sep (s ++ sep :: rest) = s :: split_at sep rest.
Proof.
  induction 1 as [|c s Hc _ IH]; cbn [app split_at].
  - by rewrite Z.eqb_refl.
  - apply Z.eqb_neq in Hc. by rewrite Hc, IH.
Qed.

Lemma split_at_join (parts : list jsstring) :
  parts <> [] -> Forall no_tab parts -> split_at 9 (join tab parts) = parts.
Proof.
  intros Hne Hparts. induction Hparts as [|p parts Hp Hparts IH]; [done|].
  destruct parts as [|q parts]; [by apply split_at_no_sep|].
  change (join tab (p :: q :: parts)) with (p ++ 9 :: join tab (q :: parts)).
  rewrite split_at_app by done. by rewrite IH.
Qed.

(** X8: the tokens can be read back from the delta: for a script that is
    not empty and that [toDelta] accepts, cutting the delta at its tabs
    gives one token per entry, the token of that entry. *)
Theorem toDelta_splits_into_tokens (diffs : list Diff) :
  diffs <> [] -> well_typed diffs ->
  Forall (fun d : Diff => d.1 = INSERT -> paired d.2 = true) diffs ->
  exists delta,
    toDelta diffs = Returns delta
    /\ mapM delta_token diffs = Some (split_at 9 delta)
    /\ length (split_at 9 delta) = length diffs.
Proof.
  intros Hne Hwt Hp.
  destruct (toDelta_loop_tokens diffs [] Hwt Hp) as (raw & Hloop & Htok & Htab).
  exists (join tab (replace_pct20 <$> raw)).
  assert (replace_pct20 <$> raw <> []) as Hraw.
  { intros Hnil. rewrite Hnil in Htok. apply Forall2_nil_inv_r in Htok. done. }
  rewrite split_at_join by done. split; [|split].
  - unfold toDelta. rewrite Hloop. cbn [app]. by rewrite replace_pct20_join.
  - by apply mapM_Some_2.
  - symmetry. by eapply Forall2_length.
Qed.

Lemma toDelta_splits_into_tokens_example :
  exists delta,
    toDelta [(EQUAL, js "ab"); (INSERT, js "a b")] = Returns delta
    /\ mapM delta_token [(EQUAL, js "ab"); (INSERT, js "a b")] = Some (split_at 9 delta)
    /\ length (split_at 9 delta) = length [(EQUAL, js "ab"); (INSERT, js "a b")].
Proof.
  apply (toDelta_splits_into_tokens [(EQUAL, js "ab"); (INSERT, js "a b")]).
  - done.
  - repeat constructor.
  - repeat constructor.
Defined.

(** ** [splitChar] and [combineChar] *)

(** X9: [combineChar] undoes [splitChar] in either direction exactly on
    the texts that are not empty; the empty text is split into itself and
    [undefined], which [combineChar] writes out. *)
Theorem combineChar_undoes_splitChar (data : jsstring) (dir : direction) :
  combineChar (splitChar data dir).1 (splitChar data dir).2 dir = data <-> data <> [].
Proof.
  split.
  - intros Hback ->. by destruct dir.
  - intros Hne. destruct dir.
    + destruct (snoc_or_nil data) as [->|(rest & c & ->)]; [done|].
      by rewrite splitChar_forward_snoc.
    + destruct data as [|c rest]; [done|]. by rewrite splitChar_backward_cons.
Qed.

(** ** [_diff]: taking the common ends off and putting them back *)

(** [s.substring(0, n)] and [s.substring(n)] are the two parts of [s],
    whatever [n] is. *)
Lemma substring_split (s : jsstring) (n : Z) :
  substring s 0 n ++ substring_from s n = s.
Proof.
  unfold substring_from, substring, clamp, strlen.
  replace (Z.to_nat (Z.max 0 (Z.min 0 (Z.of_nat (length s))))) with 0%nat by lia.
  replace (Z.to_nat (Z.max 0 (Z.min (Z.of_nat (length s)) (Z.of_nat (length s)))))
    with (length s) by lia.
  set (c := Z.to_nat (Z.max 0 (Z.min n (Z.of_nat (length s))))).
  assert (c <= length s)%nat as Hc by (unfold c; lia).
  rewrite Nat.min_0_l, Nat.max_0_l, Nat.sub_0_r, drop_0.
  replace (c `min` length s)%nat with c by lia.
  replace (c `max` length s)%nat with (length s) by lia.
  rewrite (take_ge (drop c s)) by (rewrite length_drop; lia).
  apply take_drop.
Qed.

Lemma text1_app (diffs1 diffs2 : list Diff) :
  text1 (diffs1 ++ diffs2) = text1 diffs1 ++ text1 diffs2.
Proof. unfold text1. by rewrite fmap_app, concat_app. Qed.

Lemma text2_app (diffs1 diffs2 : list Diff) :
  text2 (diffs1 ++ diffs2) = text2 diffs1 ++ text2 diffs2.
Proof. unfold text2. by rewrite fmap_app, concat_app. Qed.

(** The script with the two common ends put back as EQUAL entries. *)
Lemma text1_with_ends (prefix suffix : jsstring) (diffs : list Diff) :
  text1 ((if bool_decide (suffix = [])
          then (if bool_decide (prefix = []) then diffs else (EQUAL, prefix) :: diffs)
          else (if bool_decide (prefix = []) then diffs else (EQUAL, prefix) :: diffs)
               ++ [(EQUAL, suffix)]))
  = prefix ++ text1 diffs ++ suffix.
Proof.
  assert (text1 (if bool_decide (prefix = []) then diffs else (EQUAL, prefix) :: diffs)
          = prefix ++ text1 diffs) as Hp.
  { case_bool_decide as Hp; [by subst|]. done. }
  destruct (decide (suffix = [])) as [->|Hs].
  - rewrite (bool_decide_eq_true_2 _ eq_refl). by rewrite Hp, !app_nil_r.
  - rewrite (bool_decide_eq_false_2 _ Hs). rewrite text1_app, Hp. cbn.
    by rewrite app_nil_r, <- app_assoc.
Qed.

Lemma text2_with_ends (prefix suffix : jsstring) (diffs : list Diff) :
  text2 ((if bool_decide (suffix = [])
          then (if bool_decide (prefix = []) then diffs else (EQUAL, prefix) :: diffs)
          else (if bool_decide (prefix = []) then diffs else (EQUAL, prefix) :: diffs)
               ++ [(EQUAL, suffix)]))
  = prefix ++ text2 diffs ++ suffix.
Proof.
  assert (text2 (if bool_decide (prefix = []) then diffs else (EQUAL, prefix) :: diffs)
          = prefix ++ text2 diffs) as Hp.
  { case_bool_decide as Hp; [by subst|]. done. }
  destruct (decide (suffix = [])) as [->|Hs].
  - rewrite (bool_decide_eq_true_2 _ eq_refl). by rewrite Hp, !app_nil_r.
  - rewrite (bool_decide_eq_false_2 _ Hs). rewrite text2_app, Hp. cbn.
    by rewrite app_nil_r, <- app_assoc.
Qed.

(** X11: [_diff] loses nothing when it takes the common ends off and puts
    them back: if the lengths its imports report are those of a prefix and
    of a suffix that the two texts share, if [compute_] returns a script
    from the one middle to the other, and if merge cleanup keeps the two
    reconstructions, then the script [_diff] returns reconstructs [textA]
    and [textB]. *)
Theorem _diff_reconstructs
    (commonPrefix commonSuffix : jsstring -> jsstring -> Z)
    (compute_ : jsstring -> jsstring -> InternalDiffOptions -> list Diff)
    (cleanupMerge : list Diff -> list Diff)
    (textA textB : jsstring) (options : InternalDiffOptions) :
  (forall x y, substring y 0 (commonPrefix x y) = substring x 0 (commonPrefix x y)) ->
  (forall x y, substring_from y (strlen y - commonSuffix x y)
               = substring_from x (strlen x - commonSuffix x y)) ->
  (forall x y o, text1 (compute_ x y o) = x /\ text2 (compute_ x y o) = y) ->
  (forall diffs, text1 (cleanupMerge diffs) = text1 diffs
                 /\ text2 (cleanupMerge diffs) = text2 diffs) ->
  text1 (_diff commonPrefix commonSuffix compute_ cleanupMerge textA textB options) = textA
  /\ text2 (_diff commonPrefix commonSuffix compute_ cleanupMerge textA textB options) = textB.
Proof.
  intros Hprefix Hsuffix Hcompute Hmerge. unfold _diff, str_eqb. cbv zeta.
  case_bool_decide as Heq.
  { subst textB. case_bool_decide as Hnil; [by subst|]. cbn. by rewrite app_nil_r. }
  split.
  - rewrite (proj1 (Hmerge _)), text1_with_ends, (proj1 (Hcompute _ _ _)).
    rewrite substring_split. apply substring_split.
  - rewrite (proj2 (Hmerge _)), text2_with_ends, (proj2 (Hcompute _ _ _)).
    rewrite <- (Hprefix textA textB).
    rewrite <- (Hsuffix (substring_from textA (commonPrefix textA textB))
                        (substring_from textB (commonPrefix textA textB))).
    rewrite substring_split. apply substring_split.
Qed.

(** The stand-ins for the imports keep to what is asked of them. *)
Lemma substring_from_drop (s : jsstring) (n : Z) : substring_from s n = drop (clamp s n) s.
Proof.
  pose proof (substring_split s n) as Hsplit.
  assert (substring s 0 n = take (clamp s n) s) as Htake.
  { unfold substring. cbv zeta.
    assert (clamp s 0 = 0%nat) as -> by (unfold clamp, strlen; lia).
    by rewrite Nat.min_0_l, Nat.max_0_l, Nat.sub_0_r, drop_0. }
  rewrite Htake in Hsplit. apply (app_inv_head (take (clamp s n) s)).
  by rewrite Hsplit, take_drop.
Qed.

Lemma substring_take (s : jsstring) (n : Z) : substring s 0 n = take (Z.to_nat n) s.
Proof.
  pose proof (substring_split s n) as Hsplit. rewrite substring_from_drop in Hsplit.
  transitivity (take (clamp s n) s).
  - apply (app_inv_tail (drop (clamp s n) s)). by rewrite Hsplit, take_drop.
  - unfold clamp, strlen. destruct (decide (Z.to_nat n <= length s)%nat).
    + f_equal. lia.
    + rewrite !take_ge by lia. done.
Qed.

Lemma unit_prefix_common (x y : jsstring) :
  substring y 0 (unit_prefix x y) = substring x 0 (unit_prefix x y).
Proof.
  rewrite !substring_take.
  revert y. induction x as [|c x IH]; intros y; [done|].
  destruct y as [|d y]; [done|].
  cbn [unit_prefix]. destruct (Z.eqb_spec c d) as [->|Hne]; [|done].
  assert (0 <= unit_prefix x y) as Hpos.
  { clear. revert y. induction x as [|c x IH]; intros [|d y]; cbn; try lia.
    destruct (c =? d); [|lia]. specialize (IH y). lia. }
  replace (Z.to_nat (1 + unit_prefix x y)) with (S (Z.to_nat (unit_prefix x y))) by lia.
  cbn [take]. by rewrite IH.
Qed.

Lemma no_affix_common (x y : jsstring) :
  substring_from y (strlen y - no_affix x y) = substring_from x (strlen x - no_affix x y).
Proof.
  rewrite !substring_from_drop. unfold no_affix, clamp, strlen.
  rewrite !drop_ge by lia. done.
Qed.

Lemma replace_all_reconstructs (x y : jsstring) (o : InternalDiffOptions) :
  text1 (replace_all x y o) = x /\ text2 (replace_all x y o) = y.
Proof. unfold replace_all. cbn. by rewrite !app_nil_r. Qed.

Lemma _diff_reconstructs_example :
  text1 (_diff unit_prefix no_affix replace_all keep (js "abcd") (js "abxy")
           {| checkLines := true; deadline := Infinity |}) = js "abcd"
  /\ text2 (_diff unit_prefix no_affix replace_all keep (js "abcd") (js "abxy")
              {| checkLines := true; deadline := Infinity |}) = js "abxy".
Proof.
  apply (_diff_reconstructs unit_prefix no_affix replace_all keep (js "abcd") (js "abxy")
           {| checkLines := true; deadline := Infinity |}).
  - exact unit_prefix_common.
  - exact no_affix_common.
  - exact replace_all_reconstructs.
  - done.
Defined.

(** ** [deisolateChar] and the two reconstructions *)

Lemma side_text_app (v1 v2 : list (bool * jsstring)) :
  side_text (v1 ++ v2) = side_text v1 ++ side_text v2.
Proof. unfold side_text. by rewrite fmap_app, join_app. Qed.

Lemma side_text_ne b (t : jsstring) : side_text (ne b t) = t.
Proof. unfold ne, side_text. case_bool_decide; [by subst|]. cbn. apply app_nil_r. Qed.

Lemma side_text_cons b (t : jsstring) v : side_text ((b, t) :: v) = t ++ side_text v.
Proof. done. Qed.

Lemma text1_side (diffs : list Diff) : text1 diffs = side_text (view DELETE diffs).
Proof. by rewrite side_text_view. Qed.

Lemma text2_side (diffs : list Diff) : text2 diffs = side_text (view INSERT diffs).
Proof. by rewrite side_text_view. Qed.

(** The text of a side, cut at the entry [i]. *)
Lemma side_text_at k i (diffs : list Diff) (E : jsstring) :
  diffs !! i = Some (EQUAL, E) ->
  side_text (view k diffs)
  = side_text (view k (take i diffs)) ++ E ++ side_text (view k (drop (S i) diffs)).
Proof.
  intros Hi. rewrite <- (take_drop_middle diffs i _ Hi) at 1.
  by rewrite view_app, view_cons, entry_view_equal, !side_text_app, side_text_ne.
Qed.

Lemma pushed_text (h : char) vs vs' : pushed h vs vs' -> side_text vs' = h :: side_text vs.
Proof. by intros [(b & X & vs2 & -> & ->)|(-> & _)]. Qed.

Lemma popped_text (x : char) vs vs' : popped x vs vs' -> side_text vs = x :: side_text vs'.
Proof.
  intros (X0 & vs2 & -> & ->). by rewrite side_text_cons, side_text_app, side_text_ne.
Qed.

(** What the forward repair does to the two reconstructions. *)
Lemma deisolate_forward_texts (diffs : list Diff) i (E0 : jsstring) (h : char) :
  diffs !! i = Some (EQUAL, E0 ++ [h]) ->
  take i (deisolateChar diffs i Forward) = take i diffs
  /\ text2 (deisolateChar diffs i Forward) = text2 diffs
  /\ ((deisolateChar diffs i Forward !! i = Some (EQUAL, E0)
       /\ text1 (deisolateChar diffs i Forward) = text1 diffs)
      \/ (exists y x front back,
            deisolateChar diffs i Forward !! i = Some (EQUAL, (E0 ++ [h]) ++ [y])
            /\ text1 diffs = front ++ x :: back
            /\ text1 (deisolateChar diffs i Forward) = front ++ y :: back)).
Proof.
  intros Hi.
  destruct (deisolate_forward_sides diffs i E0 h Hi)
    as [Htake [(Hl & HpI & HpD)|(y & x & Hl & HpI & HpD)]]; (split; [done|]).
  - rewrite !text2_side, !text1_side.
    rewrite (side_text_at INSERT i diffs _ Hi), (side_text_at DELETE i diffs _ Hi).
    rewrite (side_text_at INSERT i _ _ Hl), (side_text_at DELETE i _ _ Hl).
    rewrite Htake, (pushed_text _ _ _ HpI), (pushed_text _ _ _ HpD).
    split; [by rewrite <- !app_assoc|]. left. split; [done|]. by rewrite <- !app_assoc.
  - rewrite !text2_side, !text1_side.
    rewrite (side_text_at INSERT i diffs _ Hi), (side_text_at DELETE i diffs _ Hi).
    rewrite (side_text_at INSERT i _ _ Hl), (side_text_at DELETE i _ _ Hl).
    rewrite Htake, (popped_text _ _ _ HpI), (popped_text _ _ _ HpD).
    split; [by rewrite <- !app_assoc|]. right.
    exists y, x, (side_text (view DELETE (take i diffs)) ++ E0 ++ [h]),
      (side_text (view DELETE (drop (S i) (deisolateChar diffs i Forward)))).
    split; [done|]. by rewrite <- !app_assoc.
Qed.

(** X12: the forward repair of an EQUAL entry with text never changes the
    destination text of the script, and it leaves the entries before that
    entry as they are. *)
Theorem deisolate_forward_keeps_text2 (diffs : list Diff) i (E : jsstring) :
  diffs !! i = Some (EQUAL, E) -> E <> [] ->
  text2 (deisolateChar diffs i Forward) = text2 diffs
  /\ take i (deisolateChar diffs i Forward) = take i diffs.
Proof.
  intros Hi HE. destruct (snoc_or_nil E) as [->|(E0 & h & ->)]; [done|].
  destruct (deisolate_forward_texts diffs i E0 h Hi) as (Htake & Htext & _). by split.
Qed.

Lemma deisolate_forward_keeps_text2_example :
  text2 (deisolateChar [(EQUAL, js "ab"); (INSERT, js "cd"); (EQUAL, js "e")] 0 Forward)
  = text2 [(EQUAL, js "ab"); (INSERT, js "cd"); (EQUAL, js "e")]
  /\ take 0 (deisolateChar [(EQUAL, js "ab"); (INSERT, js "cd"); (EQUAL, js "e")] 0 Forward)
     = take 0 [(EQUAL, js "ab"); (INSERT, js "cd"); (EQUAL, js "e")].
Proof.
  apply (deisolate_forward_keeps_text2
           [(EQUAL, js "ab"); (INSERT, js "cd"); (EQUAL, js "e")] 0 (js "ab"));
    [reflexivity|done].
Defined.

(** X13: the forward repair changes the source text of the script in at
    most one code unit.  When the entry loses its last unit the source
    text stays; in the shared-character case the entry gains the first
    unit [y] of the INSERT entry that follows while the DELETE entry loses
    its first unit [x], so [y] takes the place of [x]. *)
Theorem deisolate_forward_text1 (diffs : list Diff) i (E : jsstring) :
  diffs !! i = Some (EQUAL, E) -> E <> [] ->
  (exists E0 h,
      E = E0 ++ [h]
      /\ deisolateChar diffs i Forward !! i = Some (EQUAL, E0)
      /\ text1 (deisolateChar diffs i Forward) = text1 diffs)
  \/ (exists y x front back,
         deisolateChar diffs i Forward !! i = Some (EQUAL, E ++ [y])
         /\ text1 diffs = front ++ x :: back
         /\ text1 (deisolateChar diffs i Forward) = front ++ y :: back).
Proof.
  intros Hi HE. destruct (snoc_or_nil E) as [->|(E0 & h & ->)]; [done|].
  destruct (deisolate_forward_texts diffs i E0 h Hi)
    as (_ & _ & [[Hl Htext]|(y & x & front & back & Hl & H1 & H1')]).
  - left. by exists E0, h.
  - right. by exists y, x, front, back.
Qed.

Lemma deisolate_forward_text1_example :
  (exists E0 h,
      js "abc" = E0 ++ [h]
      /\ deisolateChar [(EQUAL, js "abc"); (INSERT, js "de"); (DELETE, js "df")] 0 Forward
           !! 0%nat = Some (EQUAL, E0)
      /\ text1 (deisolateChar [(EQUAL, js "abc"); (INSERT, js "de"); (DELETE, js "df")]
                  0 Forward)
         = text1 [(EQUAL, js "abc"); (INSERT, js "de"); (DELETE, js "df")])
  \/ (exists y x front back,
         deisolateChar [(EQUAL, js "abc"); (INSERT, js "de"); (DELETE, js "df")] 0 Forward
           !! 0%nat = Some (EQUAL, js "abc" ++ [y])
         /\ text1 [(EQUAL, js "abc"); (INSERT, js "de"); (DELETE, js "df")]
            = front ++ x :: back
         /\ text1 (deisolateChar [(EQUAL, js "abc"); (INSERT, js "de"); (DELETE, js "df")]
                     0 Forward) = front ++ y :: back).
Proof.
  apply (deisolate_forward_text1
           [(EQUAL, js "abc"); (INSERT, js "de"); (DELETE, js "df")] 0 (js "abc"));
    [reflexivity|done].
Defined.

(** On the side [k], the last entry with text before index [i] is an edit
    of kind [k], not an EQUAL entry. *)
Definition edit_before (k : Z) (i : nat) (diffs : list Diff) : Prop :=
  exists v X, view k (take i diffs) = v ++ [(false, X)].

(** X14: the backward repair of an EQUAL entry with text, when an INSERT
    and a DELETE entry with text come before it with no EQUAL entry with
    text in between, keeps the destination text and the entries after the
    entry, and changes the source text in at most one code unit: either
    the entry loses its first unit and the source text stays, or (the
    shared-character case) the entry gains the last unit [y] of the INSERT
    entry and [y] takes the place of the last unit [x] of the DELETE
    entry. *)
Theorem deisolate_backward_texts (diffs : list Diff) i (E : jsstring) :
  diffs !! i = Some (EQUAL, E) -> E <> [] ->
  edit_before INSERT i diffs -> edit_before DELETE i diffs ->
  text2 (deisolateChar diffs i Backward) = text2 diffs
  /\ drop (S i) (deisolateChar diffs i Backward) = drop (S i) diffs
  /\ ((exists l E1,
         E = l :: E1
         /\ deisolateChar diffs i Backward !! i = Some (EQUAL, E1)
         /\ text1 (deisolateChar diffs i Backward) = text1 diffs)
      \/ (exists y x front back,
            deisolateChar diffs i Backward !! i = Some (EQUAL, y :: E)
            /\ text1 diffs = front ++ x :: back
            /\ text1 (deisolateChar diffs i Backward) = front ++ y :: back)).
Proof.
  intros Hi HE (vI & XI & HvI) (vD & XD & HvD). destruct E as [|l E1]; [done|].
  destruct (deisolate_backward_sides diffs i l E1 vI XI vD XD Hi HvI HvD)
    as [Hdrop [(Hl & HvI' & HvD')|(y & x & XI0 & XD0 & -> & -> & Hl & HvI' & HvD')]].
  - rewrite !text2_side, !text1_side.
    rewrite (side_text_at INSERT i diffs _ Hi), (side_text_at DELETE i diffs _ Hi).
    rewrite (side_text_at INSERT i _ _ Hl), (side_text_at DELETE i _ _ Hl).
    rewrite Hdrop, HvI, HvD, HvI', HvD'. rewrite !side_text_app, !side_text_cons.
    cbn [side_text fmap list_fmap mjoin list_join]. rewrite !app_nil_r.
    split; [by rewrite <- !app_assoc|]. split; [done|]. left. exists l, E1.
    split; [done|]. split; [done|]. by rewrite <- !app_assoc.
  - rewrite !text2_side, !text1_side.
    rewrite (side_text_at INSERT i diffs _ Hi), (side_text_at DELETE i diffs _ Hi).
    rewrite (side_text_at INSERT i _ _ Hl), (side_text_at DELETE i _ _ Hl).
    rewrite Hdrop, HvI, HvD, HvI', HvD'. rewrite !side_text_app, !side_text_ne, !side_text_cons.
    cbn [side_text fmap list_fmap mjoin list_join]. rewrite !app_nil_r.
    split; [by rewrite <- !app_assoc|]. split; [done|]. right.
    exists y, x, (side_text vD ++ XD0),
      (l :: E1 ++ side_text (view DELETE (drop (S i) diffs))).
    split; [done|]. split; by rewrite <- !app_assoc.
Qed.

Lemma deisolate_backward_texts_example :
  text2 (deisolateChar [(INSERT, js "a"); (DELETE, js "b"); (EQUAL, js "cde")] 2 Backward)
  = text2 [(INSERT, js "a"); (DELETE, js "b"); (EQUAL, js "cde")]
  /\ drop 3 (deisolateChar [(INSERT, js "a"); (DELETE, js "b"); (EQUAL, js "cde")] 2 Backward)
     = drop 3 [(INSERT, js "a"); (DELETE, js "b"); (EQUAL, js "cde")]
  /\ ((exists l E1,
         js "cde" = l :: E1
         /\ deisolateChar [(INSERT, js "a"); (DELETE, js "b"); (EQUAL, js "cde")] 2 Backward
              !! 2%nat = Some (EQUAL, E1)
         /\ text1 (deisolateChar [(INSERT, js "a"); (DELETE, js "b"); (EQUAL, js "cde")]
                     2 Backward)
            = text1 [(INSERT, js "a"); (DELETE, js "b"); (EQUAL, js "cde")])
      \/ (exists y x front back,
            deisolateChar [(INSERT, js "a"); (DELETE, js "b"); (EQUAL, js "cde")] 2 Backward
              !! 2%nat = Some (EQUAL, y :: js "cde")
            /\ text1 [(INSERT, js "a"); (DELETE, js "b"); (EQUAL, js "cde")]
               = front ++ x :: back
            /\ text1 (deisolateChar [(INSERT, js "a"); (DELETE, js "b"); (EQUAL, js "cde")]
                        2 Backward) = front ++ y :: back)).
Proof.
  apply (deisolate_backward_texts
           [(INSERT, js "a"); (DELETE, js "b"); (EQUAL, js "cde")] 2 (js "cde")).
  - reflexivity.
  - done.
  - by exists [], (js "a").
  - by exists [], (js "b").
Defined.

(** ** [adjustDiffForSurrogatePairs] as a whole *)

Lemma sweep_loop_length fuel (diffs : list Diff) i swept_diffs :
  sweep_loop fuel diffs i = Some swept_diffs -> (length swept_diffs <= length diffs)%nat.
Proof.
  revert diffs i. induction fuel as [|fuel IH]; intros diffs i; cbn [sweep_loop].
  - case_bool_decide; [done|]. by intros [= <-].
  - case_bool_decide as Hi; [|by intros [= <-]].
    destruct (strlen (text_at diffs i) =? 0); intros Hloop; apply IH in Hloop; [|done].
    rewrite length_delete in Hloop by (by apply lookup_lt_is_Some_2). lia.
Qed.

(** X15: [adjustDiffForSurrogatePairs] comes to an end on every script,
    although its first loop runs up to a length that grows while it runs:
    with fuel for the weight of the script (one per entry, four more per
    code unit of an EQUAL entry, one more per code unit of another entry)
    it returns, and the script it returns has no more entries than that
    weight. *)
Theorem adjust_terminates (fuel : nat) (diffs : list Diff) :
  (repair_budget diffs <= fuel)%nat ->
  exists repaired,
    adjustDiffForSurrogatePairs fuel diffs = Some repaired
    /\ (length repaired <= repair_budget diffs)%nat.
Proof.
  intros Hfuel. unfold adjustDiffForSurrogatePairs, repair_budget in *.
  destruct (repair_loop_returns fuel diffs 0) as (mid & Hmid & Hlen);
    [by rewrite drop_0|].
  rewrite drop_0 in Hlen. rewrite Hmid. cbn [mbind option_bind].
  destruct (sweep_loop_returns fuel mid 0 ltac:(lia)) as [repaired Hsweep].
  exists repaired. split; [done|].
  apply sweep_loop_length in Hsweep. lia.
Qed.

Lemma adjust_terminates_example :
  exists repaired,
    adjustDiffForSurrogatePairs 9 [(EQUAL, [hi1]); (DELETE, [lo1]); (INSERT, [lo2])]
    = Some repaired
    /\ (length repaired
        <= repair_budget [(EQUAL, [hi1]); (DELETE, [lo1]); (INSERT, [lo2])])%nat.
Proof.
  apply (adjust_terminates 9 [(EQUAL, [hi1]); (DELETE, [lo1]); (INSERT, [lo2])]).
  vm_compute. lia.
Defined.

Lemma repair_at_settled (diffs : list Diff) i op (t : jsstring) :
  diffs !! i = Some (op, t) -> (op = EQUAL -> closed_ends t = true) ->
  repair_at diffs i = diffs.
Proof.
  intros Hi Hc. destruct (Z.eqb_spec op EQUAL) as [->|Hop].
  - by eapply repair_at_closed_ends; [|apply Hc].
  - unfold repair_at. rewrite Hi. apply Z.eqb_neq in Hop. rewrite Hop, !andb_false_r.
    by destruct (strlen t =? 0).
Qed.

Lemma repair_loop_settled fuel (diffs : list Diff) i :
  Forall (fun d : Diff => d.1 = EQUAL -> closed_ends d.2 = true) diffs ->
  (length diffs - i <= fuel)%nat -> repair_loop fuel diffs i = Some diffs.
Proof.
  intros Hall. revert i. induction fuel as [|fuel IH]; intros i Hfuel.
  - by rewrite repair_loop_done by lia.
  - destruct (decide (i < length diffs)%nat) as [Hlt|Hge].
    + rewrite repair_loop_step by done.
      destruct (lookup_lt_is_Some_2 diffs i Hlt) as [[op t] Hi].
      rewrite (repair_at_settled diffs i op t Hi).
      * apply IH. lia.
      * rewrite Forall_lookup in Hall. apply (Hall i _ Hi).
    + by rewrite repair_loop_done by lia.
Qed.

Lemma swept_nonempty (diffs : list Diff) :
  Forall (fun d : Diff => d.2 <> []) diffs -> swept diffs = diffs.
Proof.
  induction 1 as [|[op t] diffs Ht _ IH]; [done|]. cbn [swept].
  rewrite is_empty_spec, bool_decide_eq_false_2 by done. by rewrite IH.
Qed.

(** X16: a script in which no entry is empty and no EQUAL entry starts
    with a low surrogate or ends with a high one is returned by
    [adjustDiffForSurrogatePairs] as it is; one turn of fuel per entry is
    enough. *)
Theorem adjust_leaves_settled_script (fuel : nat) (diffs : list Diff) :
  Forall (fun d : Diff => d.2 <> [] /\ (d.1 = EQUAL -> closed_ends d.2 = true)) diffs ->
  (length diffs <= fuel)%nat ->
  adjustDiffForSurrogatePairs fuel diffs = Some diffs.
Proof.
  intros Hall Hfuel. unfold adjustDiffForSurrogatePairs.
  rewrite repair_loop_settled; [|by eapply Forall_impl; [done|]; intros d [_ ?]|lia].
  cbn [mbind option_bind]. rewrite sweep_loop_swept by lia.
  rewrite take_0, drop_0. cbn [app]. f_equal. apply swept_nonempty.
  eapply Forall_impl; [done|]. by intros d [? _].
Qed.

Lemma adjust_leaves_settled_script_example :
  adjustDiffForSurrogatePairs 3 [(EQUAL, js "a"); (DELETE, [lo1; hi1]); (EQUAL, [hi1; lo1])]
  = Some [(EQUAL, js "a"); (DELETE, [lo1; hi1]); (EQUAL, [hi1; lo1])].
Proof.
  apply (adjust_leaves_settled_script 3
           [(EQUAL, js "a"); (DELETE, [lo1; hi1]); (EQUAL, [hi1; lo1])]).
  - repeat constructor; done.
  - cbn. lia.
Defined.

Lemma text1_filter (diffs : list Diff) :
  text1 (filter (fun d : Diff => is_empty d = false) diffs) = text1 diffs.
Proof.
  induction diffs as [|[op t] diffs IH]; [done|].
  destruct (is_empty (op, t)) eqn:He.
  - rewrite filter_cons_False by (by rewrite He). rewrite IH.
    rewrite is_empty_spec in He. apply bool_decide_eq_true in He. subst t.
    unfold text1. cbn. by destruct ((op =? EQUAL) || (op =? DELETE)).
  - rewrite filter_cons_True by done. unfold text1 in *. cbn. by rewrite IH.
Qed.

Lemma text2_filter (diffs : list Diff) :
  text2 (filter (fun d : Diff => is_empty d = false) diffs) = text2 diffs.
Proof.
  induction diffs as [|[op t] diffs IH]; [done|].
  destruct (is_empty (op, t)) eqn:He.
  - rewrite filter_cons_False by (by rewrite He). rewrite IH.
    rewrite is_empty_spec in He. apply bool_decide_eq_true in He. subst t.
    unfold text2. cbn. by destruct ((op =? EQUAL) || (op =? INSERT)).
  - rewrite filter_cons_True by done. unfold text2 in *. cbn. by rewrite IH.
Qed.

Lemma sweep_loop_filter fuel (diffs : list Diff) i swept_diffs :
  sweep_loop fuel diffs i = Some swept_diffs ->
  filter (fun d : Diff => is_empty d = false) swept_diffs
  = filter (fun d : Diff => is_empty d = false) diffs.
Proof.
  revert diffs i. induction fuel as [|fuel IH]; intros diffs i; cbn [sweep_loop].
  - case_bool_decide; [done|]. by intros [= <-].
  - case_bool_decide as Hi; [|by intros [= <-]].
    destruct (lookup_lt_is_Some_2 diffs i Hi) as [d Hd].
    unfold text_at. rewrite Hd.
    destruct (strlen d.2 =? 0) eqn:Hlen; intros Hloop; apply IH in Hloop; [|done].
    rewrite Hloop, delete_take_drop.
    rewrite <- (take_drop_middle diffs i d Hd) at 3.
    rewrite !filter_app, filter_cons_False; [done|].
    unfold is_empty. by rewrite Hlen.
Qed.

(** X17: the second loop of [adjustDiffForSurrogatePairs] takes away
    entries with empty text only: the entries with text come out as they
    went in, in the same order, and so do the two reconstructions. *)
Theorem sweep_keeps_text (fuel : nat) (diffs swept_diffs : list Diff) :
  sweep_loop fuel diffs 0 = Some swept_diffs ->
  filter (fun d : Diff => is_empty d = false) swept_diffs
  = filter (fun d : Diff => is_empty d = false) diffs
  /\ text1 swept_diffs = text1 diffs
  /\ text2 swept_diffs = text2 diffs.
Proof.
  intros Hsweep. pose proof (sweep_loop_filter _ _ _ _ Hsweep) as Hfilter.
  split; [done|]. split.
  - by rewrite <- (text1_filter swept_diffs), Hfilter, text1_filter.
  - by rewrite <- (text2_filter swept_diffs), Hfilter, text2_filter.
Qed.

Lemma sweep_keeps_text_example :
  filter (fun d : Diff => is_empty d = false) [(INSERT, []); (DELETE, js "b")]
  = filter (fun d : Diff => is_empty d = false)
      [(EQUAL, []); (INSERT, []); (INSERT, []); (DELETE, js "b")]
  /\ text1 [(INSERT, []); (DELETE, js "b")]
     = text1 [(EQUAL, []); (INSERT, []); (INSERT, []); (DELETE, js "b")]
  /\ text2 [(INSERT, []); (DELETE, js "b")]
     = text2 [(EQUAL, []); (INSERT, []); (INSERT, []); (DELETE, js "b")].
Proof.
  apply (sweep_keeps_text 4 [(EQUAL, []); (INSERT, []); (INSERT, []); (DELETE, js "b")]
           [(INSERT, []); (DELETE, js "b")]).
  reflexivity.
Defined.

(** *** The destination text, when only the forward repair runs *)

(** No EQUAL entry starts with a low surrogate. *)
Definition no_low_start (diffs : list Diff) : Prop :=
  Forall (fun d : Diff => d.1 = EQUAL -> isLowSurrogate (charAt d.2 0) = false) diffs.

(** The same on a side of the script. *)
Definition kept_start_ok (v : list (bool * jsstring)) : Prop :=
  Forall (fun e : bool * jsstring => e.1 = true -> isLowSurrogate (charAt e.2 0) = false) v.

Lemma no_low_start_view (diffs : list Diff) :
  no_low_start diffs <-> kept_start_ok (view INSERT diffs).
Proof.
  unfold no_low_start, kept_start_ok. induction diffs as [|[op t] diffs IH]; [done|].
  rewrite view_cons, Forall_cons, Forall_app, IH. cbn [fst snd].
  destruct (decide (t = [])) as [->|Ht].
  { assert (entry_view INSERT (op, []) = []) as -> by done.
    split; [by intros [_ ?]|]. intros [_ ?]. split; [|done]. intros _.
    by unfold isLowSurrogate. }
  destruct (Z.eqb_spec op EQUAL) as [->|Hop].
  - rewrite entry_view_kept by done. rewrite Forall_singleton. cbn [fst snd]. tauto.
  - split.
    + intros [_ ?]. split; [|done]. unfold entry_view. cbn [fst snd].
      apply Z.eqb_neq in Hop. rewrite Hop.
      destruct (negb (is_empty (op, t)) && (false || (op =? INSERT))); [|done].
      by rewrite Forall_singleton.
    + intros [_ ?]. by split.
Qed.

Lemma pushed_start_ok (h : char) vs vs' :
  isLowSurrogate (Some h) = false -> pushed h vs vs' ->
  kept_start_ok vs -> kept_start_ok vs'.
Proof.
  unfold kept_start_ok. intros Hh [(b & X & vs2 & -> & ->)|(-> & _)].
  - rewrite !Forall_cons. cbn [fst snd]. intros [_ ?]. split; [|done]. intros _.
    unfold charAt. cbn. done.
  - intros Hvs. by constructor.
Qed.

Lemma popped_start_ok (x : char) vs vs' :
  popped x vs vs' -> kept_start_ok vs -> kept_start_ok vs'.
Proof.
  unfold kept_start_ok. intros (X0 & vs2 & -> & ->). rewrite Forall_cons, Forall_app.
  intros [_ ?]. split; [|done]. unfold ne. case_bool_decide; [done|].
  by rewrite Forall_singleton.
Qed.

Lemma view_at k i (diffs : list Diff) (E : jsstring) :
  diffs !! i = Some (EQUAL, E) ->
  view k diffs = view k (take i diffs) ++ ne true E ++ view k (drop (S i) diffs).
Proof.
  intros Hi. rewrite <- (take_drop_middle diffs i _ Hi) at 1.
  by rewrite view_app, view_cons, entry_view_equal.
Qed.

(** One turn of the first loop, when no EQUAL entry starts with a low
    surrogate: the destination text stays, and still no EQUAL entry
    starts with a low surrogate. *)
Lemma repair_at_forward_only (diffs : list Diff) i :
  no_low_start diffs ->
  text2 (repair_at diffs i) = text2 diffs /\ no_low_start (repair_at diffs i).
Proof.
  intros Hok. unfold repair_at.
  destruct (diffs !! i) as [[op t]|] eqn:Hi; [|done].
  destruct (strlen t =? 0) eqn:Hlen; [done|]. apply strlen_zero in Hlen.
  destruct (Z.eqb_spec op EQUAL) as [->|Hop]; [|by rewrite !andb_false_r].
  rewrite !andb_true_r.
  assert (isLowSurrogate (charAt t 0) = false) as ->.
  { unfold no_low_start in Hok. rewrite Forall_lookup in Hok. by apply (Hok i _ Hi). }
  destruct (snoc_or_nil t) as [->|(E0 & h & ->)]; [done|].
  rewrite charAt_last. destruct (isHighSurrogate (Some h)) eqn:Hh; [|done].
  assert (isLowSurrogate (Some h) = false) as Hnotlow.
  { destruct (isLowSurrogate (Some h)) eqn:Hl; [|done].
    exfalso. by apply (surrogate_kinds_disjoint (Some h)). }
  destruct (deisolate_forward_texts diffs i E0 h Hi) as (_ & Htext & _).
  split; [done|]. apply no_low_start_view. apply no_low_start_view in Hok.
  rewrite (view_at INSERT i diffs _ Hi) in Hok.
  apply Forall_app in Hok as [Hpre Hrest]. apply Forall_app in Hrest as [Hentry Hsuf].
  assert (isLowSurrogate (charAt (E0 ++ [h]) 0) = false) as Hfirst.
  { unfold ne in Hentry. rewrite bool_decide_eq_false_2 in Hentry by (by destruct E0).
    rewrite Forall_singleton in Hentry. by apply Hentry. }
  destruct (deisolate_forward_sides diffs i E0 h Hi)
    as [Htake [(Hl & HpI & _)|(y & x & Hl & HpI & _)]].
  - rewrite (view_at INSERT i _ _ Hl), Htake. apply Forall_app. split; [done|].
    apply Forall_app. split; [|by eapply pushed_start_ok].
    unfold ne. case_bool_decide; [done|]. rewrite Forall_singleton. intros _.
    cbn [snd]. destruct E0 as [|c E0']; [done|]. exact Hfirst.
  - rewrite (view_at INSERT i _ _ Hl), Htake. apply Forall_app. split; [done|].
    apply Forall_app. split; [|by eapply popped_start_ok].
    unfold ne. case_bool_decide; [done|]. rewrite Forall_singleton. intros _.
    cbn [snd]. destruct E0 as [|c E0']; exact Hfirst.
Qed.

Lemma repair_loop_forward_only fuel (diffs : list Diff) i repaired :
  no_low_start diffs -> repair_loop fuel diffs i = Some repaired ->
  text2 repaired = text2 diffs.
Proof.
  revert diffs i. induction fuel as [|fuel IH]; intros diffs i Hok; cbn [repair_loop].
  - case_bool_decide; [done|]. by intros [= <-].
  - case_bool_decide; [|by intros [= <-]].
    destruct (repair_at_forward_only diffs i Hok) as [Htext Hok'].
    intros Hloop. rewrite (IH _ _ Hok' Hloop). exact Htext.
Qed.

(** X18: when no EQUAL entry of the script starts with a low surrogate,
    [adjustDiffForSurrogatePairs] keeps the destination text: only the
    forward repair runs then, and it never changes that text. *)
Theorem adjust_keeps_text2 (fuel : nat) (diffs repaired : list Diff) :
  no_low_start diffs ->
  adjustDiffForSurrogatePairs fuel diffs = Some repaired ->
  text2 repaired = text2 diffs.
Proof.
  unfold adjustDiffForSurrogatePairs. intros Hok Hadj.
  destruct (repair_loop fuel diffs 0) as [mid|] eqn:Hmid; [|done].
  cbn [mbind option_bind] in Hadj.
  rewrite <- (repair_loop_forward_only _ _ _ _ Hok Hmid).
  rewrite <- (text2_filter repaired), (sweep_loop_filter _ _ _ _ Hadj).
  apply text2_filter.
Qed.

Lemma adjust_keeps_text2_example :
  text2 [(DELETE, [hi1; lo1]); (INSERT, [hi1; lo2])]
  = text2 [(EQUAL, [hi1]); (DELETE, [lo1]); (INSERT, [lo2])].
Proof.
  apply (adjust_keeps_text2 9 [(EQUAL, [hi1]); (DELETE, [lo1]); (INSERT, [lo2])]
           [(DELETE, [hi1; lo1]); (INSERT, [hi1; lo2])]).
  - repeat constructor; cbn [fst snd]; intros Hkind; (by vm_compute in Hkind) || by vm_compute.
  - reflexivity.
Defined.

(** *** The kinds of the entries *)

Lemma set_text_well_typed (diffs : list Diff) a t :
  well_typed diffs -> well_typed (set_text diffs a t).
Proof.
  unfold well_typed, set_text. intros Hwt. apply Forall_alter; [done|].
  intros d _ Hd. exact Hd.
Qed.

Lemma splice_insert_well_typed (diffs : list Diff) j d :
  known_type d.1 = true -> well_typed diffs -> well_typed (splice_insert diffs j d).
Proof.
  unfold well_typed, splice_insert. intros Hd Hwt. apply Forall_app. split.
  - by apply Forall_take.
  - constructor; [done|]. by apply Forall_drop.
Qed.

Lemma deisolateChar_well_typed (diffs : list Diff) i dir :
  well_typed diffs -> well_typed (deisolateChar diffs i dir).
Proof.
  intros Hwt. unfold deisolateChar.
  assert (forall j ins del, well_typed (move_char diffs i dir j ins del)) as Hmove.
  { intros j ins del. unfold move_char.
    destruct (splitChar (text_at diffs i) dir) as [text c].
    destruct ins as [a|], del as [b|]; cbn [fmap option_fmap option_map];
      repeat first [apply set_text_well_typed | apply splice_insert_well_typed; [done|]];
      done. }
  destruct (scan diffs dir (indices_ahead diffs i dir) (Z.of_nat i + step dir) None None)
    as [j|j ins del].
  - destruct (splitChar (text_at diffs i) dir) as [rest c].
    by do 2 apply set_text_well_typed.
  - assert (forall a b, well_typed (pull_char diffs i dir a b)) as Hpull.
    { intros a b. unfold pull_char.
      destruct (splitChar (text_at diffs a) (opposite dir)) as [insertText insertChar].
      destruct (splitChar (text_at diffs b) (opposite dir)) as [deleteText c].
      by do 3 apply set_text_well_typed. }
    destruct ins as [a|]; [|apply Hmove]. destruct del as [b|]; [|apply Hmove].
    destruct (hasSharedChar diffs a b dir); [apply Hpull|apply Hmove].
Qed.

Lemma repair_at_well_typed (diffs : list Diff) i :
  well_typed diffs -> well_typed (repair_at diffs i).
Proof.
  intros Hwt. unfold repair_at. destruct (diffs !! i) as [[op t]|]; [|done].
  destruct (strlen t =? 0); [done|].
  destruct (isHighSurrogate _ && _), (isLowSurrogate _ && _);
    repeat apply deisolateChar_well_typed; done.
Qed.

(** X19: the repair makes no entry of another kind: on a script of DELETE,
    INSERT and EQUAL entries, every entry of the script that
    [adjustDiffForSurrogatePairs] returns is of one of these kinds. *)
Theorem adjust_keeps_kinds (fuel : nat) (diffs repaired : list Diff) :
  well_typed diffs ->
  adjustDiffForSurrogatePairs fuel diffs = Some repaired ->
  well_typed repaired.
Proof.
  unfold adjustDiffForSurrogatePairs. intros Hwt Hadj.
  destruct (repair_loop fuel diffs 0) as [mid|] eqn:Hmid; [|done].
  cbn [mbind option_bind] in Hadj.
  eapply (sweep_loop_Forall _ _ mid 0); [|exact Hadj].
  clear Hadj. revert Hmid Hwt. generalize 0%nat. revert diffs.
  induction fuel as [|fuel IH]; intros diffs i; cbn [repair_loop].
  - case_bool_decide; [done|]. by intros [= <-].
  - case_bool_decide; [|by intros [= <-]].
    intros Hloop Hwt. apply (IH _ _ Hloop). by apply repair_at_well_typed.
Qed.

Lemma adjust_keeps_kinds_example :
  well_typed [(INSERT, [hi1; lo2]); (EQUAL, [hi2; lo1])].
Proof.
  apply (adjust_keeps_kinds 12 split_pair_script
           [(INSERT, [hi1; lo2]); (EQUAL, [hi2; lo1])]).
  - repeat constructor.
  - reflexivity.
Defined.
